(** * Ryobi garage-door integration: session controller and state model

    A shallow embedding of [custom_components/ryobi_garage] (ryobiapi.py,
    gdodevice.py, cover.py) and the properties of its message handler,
    merge engine, send/reconnect loop and derived accessors.

    Layout:
    - [Py]      the fragment of Python's object model the code relies on
                (JSON values, subscripting, [in], iteration, truthiness);
    - the controller object, the environment it talks to and the monad
      that threads both;
    - the methods of RyobiApi, RyobiWssCtrl, GdoDevice and RyobiGarageDoor;
    - scenarios, and the observations the statements are made of;
    - the properties, each with the lemmas it rests on. *)

From Stdlib Require Import ZArith List String Ascii Bool Lia DecimalString.
From Stdlib Require Import Floats.SpecFloat.
Import ListNotations.

Local Open Scope string_scope.
Local Open Scope Z_scope.
Local Open Scope list_scope.

Set Warnings "-register-all".

(* ===================================================================== *)
(** * Python values *)
(* ===================================================================== *)

Module Py.

(** What [json.loads] can return, which is also everything the controller
    ever stores in [garage_state].  A [str] is modelled by a Rocq string
    (characters up to code point 255); an [int] is unbounded; a [float] is
    its IEEE value.  A [dict] keeps its entries in insertion order. *)
Inductive pyval : Type :=
| PNone
| PBool (b : bool)
| PInt (z : Z)
| PFloat (f : spec_float)
| PStr (s : string)
| PList (l : list pyval)
| PDict (d : list (pyval * pyval)).

(** The exceptions that occur in the modelled code. *)
Inductive exn : Type :=
| KeyError (k : pyval)
| TypeError
| IndexError
| AttributeError
| JSONDecodeError
| OtherError (name : string).

(** Outcome of evaluating an expression or running a method.  [Fuel] is not
    a Python outcome: it marks a run of the model cut short by its recursion
    bound (see [publish_wss]). *)
Inductive res (A : Type) : Type :=
| Ok (a : A)
| Raise (e : exn)
| Fuel.
Arguments Ok {A} a.
Arguments Raise {A} e.
Arguments Fuel {A}.

(** ** Hashing and key equality

    Dict keys compare with [==] on hashable values: [True == 1 == 1.0],
    strings equal only strings, lists and dicts are unhashable.  [hkey] is
    the canonical form two keys share exactly when they are equal. *)
Inductive hkey : Type :=
| HNone
| HNum (z : Z)
| HFrac (neg : bool) (m : positive) (e : Z)
| HInf (neg : bool)
| HNan
| HStr (s : string).

Fixpoint odd_part (m : positive) (e : Z) : positive * Z :=
  match m with
  | xO m' => odd_part m' (e + 1)
  | _ => (m, e)
  end.

Definition hash_float (f : spec_float) : hkey :=
  match f with
  | S754_zero _ => HNum 0
  | S754_infinity s => HInf s
  | S754_nan => HNan
  | S754_finite s m e =>
      let '(m', e') := odd_part m e in
      if 0 <=? e'
      then HNum ((if s then -1 else 1) * (Z.pos m' * 2 ^ e'))
      else HFrac s m' e'
  end.

Definition hash_key (k : pyval) : option hkey :=
  match k with
  | PNone => Some HNone
  | PBool b => Some (HNum (if b then 1 else 0))
  | PInt z => Some (HNum z)
  | PFloat f => Some (hash_float f)
  | PStr s => Some (HStr s)
  | PList _ | PDict _ => None
  end.

Definition hkey_eq_dec (a b : hkey) : {a = b} + {a <> b}.
Proof.
  decide equality;
    auto using Z.eq_dec, Pos.eq_dec, bool_dec, string_dec.
Defined.

Definition entry_has (h : hkey) (kv : pyval * pyval) : bool :=
  match hash_key (fst kv) with
  | Some h' => if hkey_eq_dec h h' then true else false
  | None => false
  end.

(** ** Dict entries *)

Fixpoint dict_get (h : hkey) (d : list (pyval * pyval)) : option pyval :=
  match d with
  | [] => None
  | kv :: d' => if entry_has h kv then Some (snd kv) else dict_get h d'
  end.

(** [d[k] = v]: an existing key keeps its place (and its key object), a new
    one goes last. *)
Fixpoint dict_set (h : hkey) (k v : pyval) (d : list (pyval * pyval))
  : list (pyval * pyval) :=
  match d with
  | [] => [(k, v)]
  | kv :: d' =>
      if entry_has h kv then (fst kv, v) :: d'
      else kv :: dict_set h k v d'
  end.

(** ** Sequences *)

(** An [int] or [bool] used as a sequence index. *)
Definition as_index (k : pyval) : option Z :=
  match k with
  | PInt z => Some z
  | PBool b => Some (if b then 1 else 0)
  | _ => None
  end.

(** Position selected by index [z] in a sequence of length [n]: negative
    indices count from the end; [None] is IndexError. *)
Definition norm_index (n : nat) (z : Z) : option nat :=
  let i := if z <? 0 then z + Z.of_nat n else z in
  if (i <? 0) || (Z.of_nat n <=? i) then None else Some (Z.to_nat i).

Fixpoint list_set {A} (l : list A) (i : nat) (v : A) : list A :=
  match l, i with
  | [], _ => []
  | _ :: l', O => v :: l'
  | x :: l', S i' => x :: list_set l' i' v
  end.

Fixpoint chars (s : string) : list string :=
  match s with
  | EmptyString => []
  | String c s' => String c EmptyString :: chars s'
  end.

(** ** Strings *)

(** [needle in hay] on two strings. *)
Fixpoint contains (needle hay : string) : bool :=
  String.prefix needle hay ||
  match hay with
  | EmptyString => false
  | String _ hay' => contains needle hay'
  end.

(** [s.split(".")]. *)
Fixpoint split_dot (s : string) : list string :=
  match s with
  | EmptyString => [EmptyString]
  | String c s' =>
      if Ascii.eqb c "."%char then EmptyString :: split_dot s'
      else match split_dot s' with
           | h :: t => String c h :: t
           | [] => [String c EmptyString]
           end
  end.

(** ** Operators *)

(** [o[k]]. *)
Definition getitem (o k : pyval) : res pyval :=
  match o with
  | PDict d =>
      match hash_key k with
      | None => Raise TypeError
      | Some h =>
          match dict_get h d with
          | Some v => Ok v
          | None => Raise (KeyError k)
          end
      end
  | PList l =>
      match as_index k with
      | None => Raise TypeError
      | Some z =>
          match norm_index (List.length l) z with
          | None => Raise IndexError
          | Some i => Ok (nth i l PNone)
          end
      end
  | PStr s =>
      match as_index k with
      | None => Raise TypeError
      | Some z =>
          match norm_index (String.length s) z with
          | None => Raise IndexError
          | Some i => Ok (PStr (nth i (chars s) EmptyString))
          end
      end
  | _ => Raise TypeError
  end.

(** [o[k] = v], returning the updated object. *)
Definition setitem (o k v : pyval) : res pyval :=
  match o with
  | PDict d =>
      match hash_key k with
      | None => Raise TypeError
      | Some h => Ok (PDict (dict_set h k v d))
      end
  | PList l =>
      match as_index k with
      | None => Raise TypeError
      | Some z =>
          match norm_index (List.length l) z with
          | None => Raise IndexError
          | Some i => Ok (PList (list_set l i v))
          end
      end
  | _ => Raise TypeError
  end.

(** [v == s] for a string literal [s]. *)
Definition eq_str (v : pyval) (s : string) : bool :=
  match v with
  | PStr t => String.eqb t s
  | _ => false
  end.

(** [s in o] for a string literal [s]. *)
Definition str_in (s : string) (o : pyval) : res bool :=
  match o with
  | PDict d =>
      Ok (match dict_get (HStr s) d with Some _ => true | None => false end)
  | PList l => Ok (existsb (fun e => eq_str e s) l)
  | PStr t => Ok (contains s t)
  | _ => Raise TypeError
  end.

(** The items [for item in o] runs through. *)
Definition iter (o : pyval) : res (list pyval) :=
  match o with
  | PDict d => Ok (map fst d)
  | PList l => Ok l
  | PStr s => Ok (map PStr (chars s))
  | _ => Raise TypeError
  end.

(** [bool(v)], the test of [if v:]. *)
Definition truth (v : pyval) : bool :=
  match v with
  | PNone => false
  | PBool b => b
  | PInt z => negb (z =? 0)
  | PFloat (S754_zero _) => false
  | PFloat _ => true
  | PStr s => negb (String.eqb s EmptyString)
  | PList l => match l with [] => false | _ => true end
  | PDict d => match d with [] => false | _ => true end
  end.

(** A dict literal with string keys. *)
Definition dict (l : list (string * pyval)) : pyval :=
  PDict (map (fun kv => (PStr (fst kv), snd kv)) l).

End Py.
Import Py.

(* ===================================================================== *)
(** * The controller object and its environment *)
(* ===================================================================== *)

(** ryobiapi.py, module constants. *)
Inductive sock_state : Type := SOCK_CONNECTED | SOCK_CLOSE | SOCK_ERROR.

Definition sock_str (s : sock_state) : string :=
  match s with
  | SOCK_CONNECTED => "Open"
  | SOCK_CLOSE => "Close"
  | SOCK_ERROR => "Error"
  end.

Definition sock_eqb (a b : sock_state) : bool :=
  match a, b with
  | SOCK_CONNECTED, SOCK_CONNECTED
  | SOCK_CLOSE, SOCK_CLOSE
  | SOCK_ERROR, SOCK_ERROR => true
  | _, _ => false
  end.

Definition GARAGE_UPDATE_MSG : string := "wskAttributeUpdateNtfy".
Definition WS_AUTH_OK : string := "authorizedWebSocket".
Definition WS_CMD_ACK : string := "result".
Definition WS_OK : string := "OK".
Definition HTTP_ENDPOINT : string := "https://tti.tiwiconnect.com/api".
Definition N_RETRY : nat := 5.
Definition WS_RETRY : nat := 10.

(** const.py *)
Definition WS_CMD_COVER_OPEN : pyval := dict [("doorCommand", PInt 1)].
Definition WS_CMD_COVER_CLOSE : pyval := dict [("doorCommand", PInt 0)].

(** The attributes of a [GdoDevice] (a [RyobiWssCtrl], itself a [RyobiApi])
    that the modelled methods read or write.  [subscriber] holds the
    registered callbacks by handle; [ws] is the [WebSocketApp] object, by
    the order of its creation ([wst], its thread, is only ever asked
    [is_alive()], which the environment answers).  [device_id] is a string:
    the constructor of [GdoDevice] concatenates it to the device name. *)
Record ctrl : Type := {
  username : pyval;
  password : pyval;
  api_key : pyval;
  user_id : pyval;
  device_id : string;
  port_id : pyval;
  socket_state : sock_state;
  subscriber : list nat;
  ws : option nat;
  sent_counter : Z;
  garage_state : pyval
}.

Definition set_api_key (v : pyval) (c : ctrl) : ctrl :=
  {| username := username c; password := password c; api_key := v;
     user_id := user_id c; device_id := device_id c; port_id := port_id c;
     socket_state := socket_state c; subscriber := subscriber c;
     ws := ws c; sent_counter := sent_counter c;
     garage_state := garage_state c |}.

Definition set_user_id (v : pyval) (c : ctrl) : ctrl :=
  {| username := username c; password := password c; api_key := api_key c;
     user_id := v; device_id := device_id c; port_id := port_id c;
     socket_state := socket_state c; subscriber := subscriber c;
     ws := ws c; sent_counter := sent_counter c;
     garage_state := garage_state c |}.

Definition set_socket_state (s : sock_state) (c : ctrl) : ctrl :=
  {| username := username c; password := password c; api_key := api_key c;
     user_id := user_id c; device_id := device_id c; port_id := port_id c;
     socket_state := s; subscriber := subscriber c;
     ws := ws c; sent_counter := sent_counter c;
     garage_state := garage_state c |}.

Definition set_subscriber (l : list nat) (c : ctrl) : ctrl :=
  {| username := username c; password := password c; api_key := api_key c;
     user_id := user_id c; device_id := device_id c; port_id := port_id c;
     socket_state := socket_state c; subscriber := l;
     ws := ws c; sent_counter := sent_counter c;
     garage_state := garage_state c |}.

Definition set_ws (h : option nat) (c : ctrl) : ctrl :=
  {| username := username c; password := password c; api_key := api_key c;
     user_id := user_id c; device_id := device_id c; port_id := port_id c;
     socket_state := socket_state c; subscriber := subscriber c;
     ws := h; sent_counter := sent_counter c;
     garage_state := garage_state c |}.

Definition set_sent_counter (n : Z) (c : ctrl) : ctrl :=
  {| username := username c; password := password c; api_key := api_key c;
     user_id := user_id c; device_id := device_id c; port_id := port_id c;
     socket_state := socket_state c; subscriber := subscriber c;
     ws := ws c; sent_counter := n;
     garage_state := garage_state c |}.

Definition set_garage_state (g : pyval) (c : ctrl) : ctrl :=
  {| username := username c; password := password c; api_key := api_key c;
     user_id := user_id c; device_id := device_id c; port_id := port_id c;
     socket_state := socket_state c; subscriber := subscriber c;
     ws := ws c; sent_counter := sent_counter c;
     garage_state := g |}.

(** ** What the outside world sees and does *)

Inductive level : Type := DEBUG | WARNING | ERROR.

(** Everything a method does besides changing the object: log records
    (format string and the arguments that are Python values), HTTP requests,
    operations on the socket, sleeps, and calls of subscribers. *)
Inductive event : Type :=
| Log (lv : level) (fmt : string) (args : list pyval)
| HttpSend (method url : string)
| WsNew (h : nat)
| WsSend (h : nat) (json_message : pyval)
| WsClose (h : nat)
| Sleep
| Called (sub : nat).

(** What is received from the network, given with what [json.loads] makes
    of it (the decoder is library code and is not modelled): a text that is
    not well-formed JSON, bytes that are not valid UTF-8 text, or the value
    a JSON text decodes to. *)
Inductive wire : Type :=
| NotJson (raw : string)
| Json (v : pyval)
| NotUtf8 (raw : string).

Definition json_loads (t : wire) : res pyval :=
  match t with
  | NotJson _ => Raise JSONDecodeError
  | Json v => Ok v
  | NotUtf8 _ => Raise (OtherError "UnicodeDecodeError")
  end.

(** The callbacks the socket thread invokes on the controller. *)
Inductive callback : Type :=
| OnOpen
| OnClose (close_status_code close_msg : pyval)
| OnError (error : pyval)
| OnMessage (msg : wire)
| OnPong (message : pyval).

(** Answers of the HTTP server to [client.send]: a response with its status
    and body, or an [httpx.RequestError]. *)
Inductive http_reply : Type :=
| HttpResponse (status_code : Z) (body : wire)
| HttpRequestError.

(** Creating the [WebSocketApp] and starting its thread: the constructor
    raises [WebSocketException], or the thread starts, the callbacks [cbs]
    run, and [is_alive()] answers [alive]. *)
Inductive spawn_reply : Type :=
| SpawnRaises
| Spawned (cbs : list callback) (alive : bool).

(** [ws.send]: delivered, [WebSocketConnectionClosedException], or some
    other exception. *)
Inductive send_reply : Type :=
| SendOk
| SendClosed
| SendRaises (e : exn).

(** The environment is a script of answers, consumed in order.  The socket
    thread runs beside the coroutine; its callbacks are delivered where the
    coroutine waits for the socket: when the thread is started, and during
    each [asyncio.sleep].  [reports] says whether the socket library's
    dispatcher hands an exception raised by a callback to [on_error] (it
    always swallows it).  [raising] says what the callable registered as
    subscriber [s] does when it is called: it raises the exception given,
    or it returns. *)
Record environment : Type := {
  http : list http_reply;
  spawn : list spawn_reply;
  send : list send_reply;
  sleep : list (list callback);
  reports : bool;
  raising : nat -> option exn
}.

(** Subscribers that all return. *)
Definition all_return : nat -> option exn := fun _ => None.

Definition set_http (l : list http_reply) (e : environment) : environment :=
  {| http := l; spawn := spawn e; send := send e; sleep := sleep e;
     reports := reports e; raising := raising e |}.

Definition set_spawn (l : list spawn_reply) (e : environment) : environment :=
  {| http := http e; spawn := l; send := send e; sleep := sleep e;
     reports := reports e; raising := raising e |}.

Definition set_send (l : list send_reply) (e : environment) : environment :=
  {| http := http e; spawn := spawn e; send := l; sleep := sleep e;
     reports := reports e; raising := raising e |}.

Definition set_sleep (l : list (list callback)) (e : environment)
  : environment :=
  {| http := http e; spawn := spawn e; send := send e; sleep := l;
     reports := reports e; raising := raising e |}.

Record world : Type := {
  self : ctrl;
  env : environment;
  out : list event;
  next_ws : nat
}.

(** ** The monad: state that survives exceptions *)

Definition M (A : Type) : Type := world -> res A * world.

Definition ret {A} (a : A) : M A := fun w => (Ok a, w).

Definition bind {A B} (m : M A) (k : A -> M B) : M B :=
  fun w =>
    match m w with
    | (Ok a, w') => k a w'
    | (Raise e, w') => (Raise e, w')
    | (Fuel, w') => (Fuel, w')
    end.

Definition lift {A} (r : res A) : M A := fun w => (r, w).

Definition raise {A} (e : exn) : M A := lift (Raise e).

Declare Scope py_scope.
Delimit Scope py_scope with py.
Notation "x <- m ;; k" := (bind m (fun x => k))
  (at level 61, m at next level, right associativity) : py_scope.
Notation "m ;;; k" := (bind m (fun _ => k))
  (at level 61, right associativity) : py_scope.
Local Open Scope py_scope.

Definition get_self : M ctrl := fun w => (Ok (self w), w).

Definition with_self (f : ctrl -> ctrl) (w : world) : world :=
  {| self := f (self w); env := env w; out := out w; next_ws := next_ws w |}.

Definition with_env (f : environment -> environment) (w : world) : world :=
  {| self := self w; env := f (env w); out := out w; next_ws := next_ws w |}.

(** The world after the events [l] have been added to its record. *)
Definition with_out (l : list event) (w : world) : world :=
  {| self := self w; env := env w; out := out w ++ l; next_ws := next_ws w |}.

Definition modify_self (f : ctrl -> ctrl) : M unit :=
  fun w => (Ok tt, with_self f w).

Definition emit (e : event) : M unit :=
  fun w => (Ok tt, with_out [e] w).

Definition log (lv : level) (fmt : string) (args : list pyval) : M unit :=
  emit (Log lv fmt args).

(** [for i in l: body], where the body may [return] from the enclosing
    function ([Some]) or fall through to the next round ([None]). *)
Fixpoint for_each {I A} (l : list I) (body : I -> M (option A))
  : M (option A) :=
  match l with
  | [] => ret None
  | i :: l' =>
      r <- body i ;;
      match r with
      | Some a => ret (Some a)
      | None => for_each l' body
      end
  end.

(** [for i in l: body] without [return]. *)
Fixpoint for_ {I} (l : list I) (body : I -> M unit) : M unit :=
  match l with
  | [] => ret tt
  | i :: l' => body i ;;; for_ l' body
  end.

Definition range (n : nat) : list Z := map Z.of_nat (seq 0 n).

Coercion PStr : string >-> pyval.

(* ===================================================================== *)
(** * class RyobiApi *)
(* ===================================================================== *)

(** [await client.send(request)]: the request goes out and the next answer
    of the script comes back; a script that has run dry answers with a
    transport error. *)
Definition client_send (method url : string) : M http_reply :=
  emit (HttpSend method url) ;;;
  fun w =>
    match http (env w) with
    | [] => (Ok HttpRequestError, w)
    | r :: rest => (Ok r, with_env (set_http rest) w)
    end.

(** The dict [send_http] returns on a 401. *)
Definition http_401_error : pyval :=
  dict [("msg", PStr "error");
        ("details",
         PStr "Invalid login credentials HTTP 401 Unothorized. Skipped retry")].

(** The dict [send_http] returns when every attempt has failed. *)
Definition http_retry_error : pyval :=
  dict [("msg", PStr "error"); ("details", PStr "Failed after 5 retry")].

(** [RyobiApi.send_http] (a static method; [headers], the same dict at every
    call, is left out). *)
Definition send_http (url : string) (params : pyval) (method : string)
  : M pyval :=
  log DEBUG "Send HTTP request Url=%s Params=%s" [PStr url; params] ;;;
  r <- for_each (range N_RETRY) (fun attempt =>
         resp <- client_send method url ;;
         match resp with
         | HttpRequestError =>
             (* except httpx.RequestError *)
             log DEBUG "Send HTTP exception details=%s retry... (%s/%s)"
                 [PStr "RequestError"; PInt attempt; PInt (Z.of_nat N_RETRY)] ;;;
             ret None
         | HttpResponse status_code body =>
             if status_code =? 200 then
               log DEBUG "RyobiApi: Send HTTP OK, return=200" [] ;;;
               j <- lift (json_loads body) ;;
               log DEBUG "RyobiApi: HTTP data received = %s" [j] ;;;
               j' <- lift (json_loads body) ;;
               ret (Some j')
             else if status_code =? 401 then
               log ERROR
                 "RyobiApi: Invlaid login credentials. HTTP 401 Unauthorized. Skipping retry"
                 [] ;;;
               ret (Some http_401_error)
             else
               log WARNING
                 "RyobiApi: Bad server response (status code=%s) retry... (%s/%s)"
                 [PInt status_code; PInt attempt; PInt (Z.of_nat N_RETRY)] ;;;
               ret None
         end) ;;
  match r with
  | Some v => ret v
  | None =>
      log ERROR "RyobiApi: HTTP error after %s retry" [PInt (Z.of_nat N_RETRY)] ;;;
      ret http_retry_error
  end.

Definition login_url : string := HTTP_ENDPOINT ++ "/login".

(** [RyobiApi.login]. *)
Definition login : M bool :=
  log DEBUG "RyobiApi try login" [] ;;;
  c <- get_self ;;
  let params := dict [("username", username c); ("password", password c)] in
  resp <- send_http login_url params "POST" ;;
  result <- lift (getitem resp "result") ;;
  has_id <- lift (str_in "_id" result) ;;
  if has_id then
    result <- lift (getitem resp "result") ;;
    id <- lift (getitem result "_id") ;;
    modify_self (set_user_id id) ;;;
    result <- lift (getitem resp "result") ;;
    auth <- lift (getitem result "auth") ;;
    has_key <- lift (str_in "apiKey" auth) ;;
    if has_key then
      result <- lift (getitem resp "result") ;;
      auth <- lift (getitem result "auth") ;;
      key <- lift (getitem auth "apiKey") ;;
      modify_self (set_api_key key) ;;;
      log DEBUG "RyobiApi: Login successful. Id and Api Key retrieved" [] ;;;
      ret true
    else
      log ERROR "RyobiApi: Could not get Api Key from server response: %s"
          [resp] ;;;
      ret false
  else
    log ERROR
      "RyobiApi: Something went wrong with login, no user id found. See server response: %s"
      [resp] ;;;
    ret false.

(** ** Devices *)

(** Sequencing of expressions that may raise. *)
Definition rbind {A B} (r : res A) (k : A -> res B) : res B :=
  match r with
  | Ok a => k a
  | Raise e => Raise e
  | Fuel => Fuel
  end.

Notation "x <-- r ;; k" := (rbind r (fun x => k))
  (at level 61, r at next level, right associativity) : py_scope.

(** [o[k1]...[kn]]. *)
Fixpoint subscript (o : pyval) (p : list pyval) : res pyval :=
  match p with
  | [] => Ok o
  | k :: p' => v <-- getitem o k ;; subscript v p'
  end.

(** [s.startswith(prefix)] for a string literal [prefix]. *)
Definition startswith (s : pyval) (prefix : string) : res bool :=
  match s with
  | PStr t => Ok (String.prefix prefix t)
  | _ => Raise AttributeError
  end.

Definition devices_url : string := HTTP_ENDPOINT ++ "/devices".

(** The dict [get_devices] builds from one [result] of the answer. *)
Definition device_of (c : ctrl) (result : pyval) : res pyval :=
  type_ids <-- getitem result "deviceTypeIds" ;;
  d_id <-- getitem result "varName" ;;
  name <-- subscript result [PStr "metaData"; PStr "name"] ;;
  version <-- subscript result [PStr "metaData"; PStr "version"] ;;
  description <-- subscript result [PStr "metaData"; PStr "description"] ;;
  last_seen <-- subscript result [PStr "metaData"; PStr "sys"; PStr "lastSeen"] ;;
  Ok (dict [("username", username c);
            ("password", password c);
            ("api_key", api_key c);
            ("u_id", user_id c);
            ("type_ids", type_ids);
            ("d_id", d_id);
            ("name", name);
            ("version", version);
            ("description", description);
            ("last_seen", last_seen)]).

(** The loop of [get_devices] over the results, [devices] being
    [self.devices]: what has been appended stays appended when a later
    result raises. *)
Fixpoint append_devices (c : ctrl) (results devices : list pyval)
  : res unit * list pyval :=
  match results with
  | [] => (Ok tt, devices)
  | result :: rest =>
      match device_of c result with
      | Ok device => append_devices c rest (devices ++ [device])
      | Raise e => (Raise e, devices)
      | Fuel => (Fuel, devices)
      end
  end.

(** [RyobiApi.get_devices].  The list [self.devices], which only this
    method touches, is passed in and handed back beside the outcome. *)
Definition get_devices (devices : list pyval) (w : world)
  : (res pyval * list pyval) * world :=
  match (log DEBUG "RyobiApi get list of devices" [] ;;;
         c <- get_self ;;
         send_http devices_url
           (dict [("username", username c); ("password", password c)])
           "GET") w with
  | (Ok resp, w1) =>
      if truth resp then
        match (rs <-- getitem resp "result" ;; iter rs) with
        | Ok results =>
            match append_devices (self w1) results devices with
            | (Ok _, devices') =>
                ((Ok (PList devices'), devices'),
                 with_out
                   [Log DEBUG "RyobiApi: Get device list OK. %s devices found"
                        [PInt (Z.of_nat (List.length devices'))]] w1)
            | (Raise e, devices') => ((Raise e, devices'), w1)
            | (Fuel, devices') => ((Fuel, devices'), w1)
            end
        | Raise e => ((Raise e, devices), w1)
        | Fuel => ((Fuel, devices), w1)
        end
      else
        ((Ok (PList []), devices),
         with_out [Log ERROR "RyobiApi: FAILED to get device list: %s" [resp]]
           w1)
  | (Raise e, w1) => ((Raise e, devices), w1)
  | (Fuel, w1) => ((Fuel, devices), w1)
  end.

(** [any(needle in sub for sub in l)]. *)
Definition any_in (needle : string) (l : list pyval) : res bool :=
  (fix go (l : list pyval) : res bool :=
     match l with
     | [] => Ok false
     | sub :: l' =>
         b <-- str_in needle sub ;;
         if b then Ok true else go l'
     end) l.

(** The loop of [extract_device_info] that looks for the module port with
    a garage door: the [moduleId] and the [portId] of the first one, where
    the loop breaks. *)
Fixpoint find_port (deviceMap : pyval) (modules : list pyval)
  : res (option (pyval * pyval)) :=
  match modules with
  | [] => Ok None
  | module :: rest =>
      is_port <-- startswith module "modulePort_" ;;
      if is_port then
        profiles <-- subscript deviceMap
                       [module; PStr "at"; PStr "moduleProfiles"; PStr "value"] ;;
        subs <-- iter profiles ;;
        found <-- any_in "garageDoor" subs ;;
        if found then
          module_id <-- subscript deviceMap
                          [module; PStr "at"; PStr "moduleId"; PStr "value"] ;;
          port <-- subscript deviceMap
                     [module; PStr "at"; PStr "portId"; PStr "value"] ;;
          Ok (Some (module_id, port))
        else find_port deviceMap rest
      else find_port deviceMap rest
  end.

Section Format.

(** The text of a value inside an f-string. *)
Variable format : pyval -> string.

(** The state model [extract_device_info] builds from the attributes of the
    door and of the light. *)
Definition extract_garage_state (garage_door garage_light : pyval)
  : res pyval :=
  vm_lastValue <-- subscript garage_door [PStr "vacationMode"; PStr "lastValue"] ;;
  vm_value <-- subscript garage_door [PStr "vacationMode"; PStr "value"] ;;
  vm_enum <-- subscript garage_door [PStr "vacationMode"; PStr "enum"] ;;
  vm_index <-- subscript garage_door [PStr "vacationMode"; PStr "value"] ;;
  vacation_state <-- getitem vm_enum vm_index ;;
  sf_lastSet <-- subscript garage_door [PStr "sensorFlag"; PStr "lastSet"] ;;
  sf_lastValue <-- subscript garage_door [PStr "sensorFlag"; PStr "lastValue"] ;;
  sf_value <-- subscript garage_door [PStr "sensorFlag"; PStr "value"] ;;
  om_lastSet <-- subscript garage_door [PStr "opMode"; PStr "lastSet"] ;;
  om_lastValue <-- subscript garage_door [PStr "opMode"; PStr "lastValue"] ;;
  om_value <-- subscript garage_door [PStr "opMode"; PStr "value"] ;;
  om_enum <-- subscript garage_door [PStr "opMode"; PStr "enum"] ;;
  om_index <-- subscript garage_door [PStr "opMode"; PStr "value"] ;;
  op_state <-- getitem om_enum om_index ;;
  ds_lastSet <-- subscript garage_door [PStr "doorState"; PStr "lastSet"] ;;
  ds_lastValue <-- subscript garage_door [PStr "doorState"; PStr "lastValue"] ;;
  ds_value <-- subscript garage_door [PStr "doorState"; PStr "value"] ;;
  ds_enum <-- subscript garage_door [PStr "doorState"; PStr "enum"] ;;
  ds_table <-- subscript garage_door [PStr "doorState"; PStr "enum"] ;;
  ds_index <-- subscript garage_door [PStr "doorState"; PStr "value"] ;;
  ds_state <-- getitem ds_table ds_index ;;
  percent <-- subscript garage_door [PStr "doorPercentOpen"; PStr "value"] ;;
  dp_lastSet <-- subscript garage_door [PStr "doorPosition"; PStr "lastSet"] ;;
  dp_lastValue <-- subscript garage_door [PStr "doorPosition"; PStr "lastValue"] ;;
  dp_value <-- subscript garage_door [PStr "doorPosition"; PStr "value"] ;;
  ls_lastSet <-- subscript garage_light [PStr "lightState"; PStr "lastSet"] ;;
  ls_lastValue <-- subscript garage_light [PStr "lightState"; PStr "lastValue"] ;;
  ls_value <-- subscript garage_light [PStr "lightState"; PStr "value"] ;;
  lt_lastSet <-- subscript garage_light [PStr "lightTimer"; PStr "lastSet"] ;;
  lt_lastValue <-- subscript garage_light [PStr "lightTimer"; PStr "lastValue"] ;;
  lt_value <-- subscript garage_light [PStr "lightTimer"; PStr "value"] ;;
  Ok (dict [
    ("vacationMode",
     dict [("lastValue", vm_lastValue); ("value", vm_value);
           ("vacation_state", vacation_state)]);
    ("sensorFlag",
     dict [("lastSet", sf_lastSet); ("lastValue", sf_lastValue);
           ("value", sf_value)]);
    ("opMode",
     dict [("lastSet", om_lastSet); ("lastValue", om_lastValue);
           ("value", om_value); ("op_state", op_state)]);
    ("doorState",
     dict [("lastSet", ds_lastSet); ("lastValue", ds_lastValue);
           ("value", ds_value); ("enum", ds_enum); ("state", ds_state)]);
    ("doorPercentOpen", percent);
    ("doorPosition",
     dict [("lastSet", dp_lastSet); ("lastValue", dp_lastValue);
           ("value", dp_value)]);
    ("garageLight",
     dict [("lightState",
            dict [("lastSet", ls_lastSet); ("lastValue", ls_lastValue);
                  ("value", ls_value)]);
           ("lightTimer",
            dict [("lastSet", lt_lastSet); ("lastValue", lt_lastValue);
                  ("value", lt_value)])])]).

(** What [extract_device_info] computes from the response. *)
Definition device_info_of (response : pyval) : res pyval :=
  first_result <-- subscript response [PStr "result"; PInt 0] ;;
  master_unit <-- subscript first_result
                    [PStr "deviceTypeMap"; PStr "masterUnit"; PStr "at"] ;;
  serial <-- subscript master_unit [PStr "serialNumber"; PStr "value"] ;;
  mac <-- subscript master_unit [PStr "macAddress"; PStr "value"] ;;
  deviceMap <-- getitem first_result "deviceTypeMap" ;;
  modules <-- iter deviceMap ;;
  found <-- find_port deviceMap modules ;;
  match found with
  | None =>
      (* [port] has not been assigned *)
      Raise (OtherError "UnboundLocalError")
  | Some (module_id, port) =>
      garage_door <-- subscript first_result
                        [PStr "deviceTypeMap";
                         PStr ("garageDoor_" ++ format port); PStr "at"] ;;
      garage_light <-- subscript first_result
                         [PStr "deviceTypeMap";
                          PStr ("garageLight_" ++ format port); PStr "at"] ;;
      garage_state <-- extract_garage_state garage_door garage_light ;;
      Ok (dict [("serial", serial); ("mac", mac);
                ("module_id", module_id); ("port_id", port);
                ("garage_state", garage_state)])
  end.

(** [RyobiApi.extract_device_info]. *)
Definition extract_device_info (response : pyval) : M pyval :=
  log DEBUG "RyobiApi: Extracting device info. " [] ;;;
  lift (device_info_of response).

(** [RyobiApi.get_device]. *)
Definition get_device (d_id : pyval) : M pyval :=
  log DEBUG "Ryopbi Api: Retrieving device information for %s. " [d_id] ;;;
  c <- get_self ;;
  resp <- send_http (devices_url ++ "/" ++ format d_id)
            (dict [("username", username c); ("password", password c)])
            "GET" ;;
  if truth resp then extract_device_info resp
  else
    log ERROR
      "RyobiApi: Could not get information for that device. Returning nothing. "
      [] ;;;
    ret (dict [("garage_state", PNone); ("serial", PNone); ("mac", PNone)]).

End Format.

(* ===================================================================== *)
(** * class RyobiWssCtrl *)
(* ===================================================================== *)

Definition WS_ENDPOINT : string := "wss://tti.tiwiconnect.com/api/wsrpc".

(** [RyobiWssCtrl.subscribe]. *)
Definition subscribe (s : nat) : M unit :=
  log DEBUG "RyobiApi (WSS): adding a new subscriber" [] ;;;
  c <- get_self ;;
  modify_self (set_subscriber (subscriber c ++ [s])).

(** [subscriber(self)]: the call of one registered callable.  The callable
    is any code, the one cover.py registers being
    [lambda gdodevice: self.schedule_update_ha_state(False)]; it returns or
    raises, as the environment says, and is taken to leave the controller
    alone. *)
Definition call_subscriber (s : nat) : M unit :=
  emit (Called s) ;;;
  fun w =>
    match raising (env w) s with
    | Some e => (Raise e, w)
    | None => (Ok tt, w)
    end.

(** [RyobiWssCtrl._call_subscriber]: the callables are called in the order
    of the list, with nothing around the calls, so that the first one that
    raises ends the loop. *)
Definition _call_subscriber : M unit :=
  log DEBUG "RyobiApi (WSS): Calling subscriber (schedule_update_ha_state)" [] ;;;
  c <- get_self ;;
  for_ (subscriber c) call_subscriber.

(** [update.keys()]. *)
Definition keys (o : pyval) : res (list pyval) :=
  match o with
  | PDict d => Ok (map fst d)
  | _ => Raise AttributeError
  end.

(** [key.split(".")[1]]. *)
Definition module_of (key : pyval) : res string :=
  match key with
  | PStr k =>
      match nth_error (split_dot k) 1 with
      | Some m => Ok m
      | None => Raise IndexError
      end
  | _ => Raise AttributeError
  end.

(** ["garageDoor" in key], for a [key] that has a [split] method. *)
Definition key_mentions (s : string) (key : pyval) : bool :=
  match key with
  | PStr k => contains s k
  | _ => false
  end.

(** [o[k]... = ...] where the target of the store lies inside [o[k]]: the
    object found at [o[k]] is changed in place by [f].  Values are trees
    (what [json.loads] builds shares nothing), so this is the same as
    putting the changed object back at [k]. *)
Definition update_at (o k : pyval) (f : pyval -> res pyval) : res pyval :=
  match getitem o k with
  | Ok v =>
      match f v with
      | Ok v' => setitem o k v'
      | Raise e => Raise e
      | Fuel => Fuel
      end
  | Raise e => Raise e
  | Fuel => Fuel
  end.

(** [self.garage_state = ...] through [f], an exception leaving it as is. *)
Definition store_garage_state (f : pyval -> res pyval) : M unit :=
  c <- get_self ;;
  g <- lift (f (garage_state c)) ;;
  modify_self (set_garage_state g).

(** [RyobiWssCtrl.parse_device_update]. *)
Definition parse_device_update (update : pyval) : M unit :=
  c <- get_self ;;
  var_name <- lift (getitem update "varName") ;;
  if negb (eq_str var_name (device_id c)) then
    var_name <- lift (getitem update "varName") ;;
    log DEBUG
      "RyobiApi (WSS): Recieved update for a differnt device! (%s but I am %s)"
      [var_name; PStr (device_id c)] ;;;
    ret tt
  else
    ks <- lift (keys update) ;;
    for_ ks (fun key =>
      if eq_str key "topic" || eq_str key "varName" || eq_str key "id"
      then ret tt
      else
        u <- lift (getitem update key) ;;
        log DEBUG "RyobiApi (WSS) parse update each item in %s: %s" [key; u] ;;;
        module_name <- lift (module_of key) ;;
        if key_mentions "garageDoor" key then
          u <- lift (getitem update key) ;;
          items <- lift (iter u) ;;
          for_ items (fun item =>
            u <- lift (getitem update key) ;;
            v <- lift (getitem u item) ;;
            store_garage_state (fun g =>
              update_at g module_name (fun grp => setitem grp item v)))
        else if key_mentions "garageLight" key then
          u <- lift (getitem update key) ;;
          items <- lift (iter u) ;;
          for_ items (fun item =>
            u <- lift (getitem update key) ;;
            v <- lift (getitem u item) ;;
            store_garage_state (fun g =>
              update_at g "garageLight" (fun gl =>
                update_at gl module_name (fun grp => setitem grp item v))))
        else
          log ERROR "RyobiApi (WSS) parse update: Did not recognized module: %s"
              [key]).

(** [RyobiWssCtrl.on_message]. *)
Definition on_message (msg : wire) : M unit :=
  modify_self (set_sent_counter 0) ;;;
  message <- lift (json_loads msg) ;;
  log DEBUG "RyobiApi (WSS) Msg received %s" [message] ;;;
  has_method <- lift (str_in "method" message) ;;
  if has_method then
    m <- lift (getitem message "method") ;;
    if eq_str m GARAGE_UPDATE_MSG then
      log DEBUG "RyobiApi (WSS) recieved garage door update message. " [] ;;;
      has_params <- lift (str_in "params" message) ;;
      if has_params then
        params <- lift (getitem message "params") ;;
        parse_device_update params ;;;
        _call_subscriber
      else ret tt
    else
      m <- lift (getitem message "method") ;;
      if eq_str m WS_AUTH_OK then
        params <- lift (getitem message "params") ;;
        authorized <- lift (getitem params "authorized") ;;
        if truth authorized then
          log DEBUG "RyobiApi (WSS) Msg: Api Key? authorization OK. " []
        else
          log ERROR
            "RyobiApi (WSS) Msg: Api Key? not authorized based on response form server. "
            []
      else ret tt
  else
    has_result <- lift (str_in "result" message) ;;
    if has_result then
      r <- lift (getitem message "result") ;;
      has_inner <- lift (str_in "result" r) ;;
      (if has_inner then
         r <- lift (getitem message WS_CMD_ACK) ;;
         inner <- lift (getitem r "result") ;;
         if eq_str inner WS_OK then
           log DEBUG "RyobiApi (WSS) Msg: Recieved OK result from server. " []
         else ret tt
       else ret tt) ;;;
      r <- lift (getitem message WS_CMD_ACK) ;;
      has_auth <- lift (str_in "authorized" r) ;;
      if has_auth then
        r <- lift (getitem message WS_CMD_ACK) ;;
        authorized <- lift (getitem r "authorized") ;;
        if truth authorized then
          log DEBUG "RyobiApi (WSS) Msg: User? authorization OK. " []
        else ret tt
      else ret tt
    else
      log ERROR "RyobiApi (WSS) Received an unknown message from server: %s}"
          [message].

(** [RyobiWssCtrl.on_error].  The record of the log line holds the value
    [error] where the code logs the text [(details : <error>)] made from
    it, and the empty string when [error] is falsy, as the code does. *)
Definition on_error (error : pyval) : M unit :=
  let details := if truth error then error else PStr "" in
  log DEBUG "RyobiApi (WSS) Error: %s" [details] ;;;
  modify_self (set_socket_state SOCK_ERROR).

(** [RyobiWssCtrl.on_close].  The records of the two log lines hold the
    values [close_status_code] and [close_msg] where the code logs
    [str(close_status_code)] and [str(close_msg)]. *)
Definition on_close (close_status_code close_msg : pyval) : M unit :=
  log DEBUG "RyobiApi (WSS) Closed" [] ;;;
  (if truth close_status_code || truth close_msg then
     log DEBUG "RyobiApi (WSS) Close Status_code: %s" [close_status_code] ;;;
     log DEBUG "RyobiApi (WSS) Close Message: %s" [close_msg]
   else ret tt) ;;;
  modify_self (set_socket_state SOCK_CLOSE).

(** [RyobiWssCtrl.on_open]. *)
Definition on_open : M unit :=
  log DEBUG "RyobiApi (WSS) Connection established OK" [] ;;;
  modify_self (set_socket_state SOCK_CONNECTED).

(** [RyobiWssCtrl.on_pong] is declared with the one parameter [message];
    the socket library calls its callbacks with the socket first, so the
    call fails on its arguments. *)
Definition on_pong (message : pyval) : M unit :=
  raise TypeError.

Definition exn_name (e : exn) : string :=
  match e with
  | KeyError _ => "KeyError"
  | TypeError => "TypeError"
  | IndexError => "IndexError"
  | AttributeError => "AttributeError"
  | JSONDecodeError => "JSONDecodeError"
  | OtherError n => n
  end.

Definition handler (cb : callback) : M unit :=
  match cb with
  | OnOpen => on_open
  | OnClose code msg => on_close code msg
  | OnError error => on_error error
  | OnMessage msg => on_message msg
  | OnPong message => on_pong message
  end.

(** The socket library's dispatcher: it runs the callback and keeps an
    exception from reaching the coroutine. *)
Definition dispatch (cb : callback) : M unit :=
  fun w =>
    match handler cb w with
    | (Ok _, w') => (Ok tt, w')
    | (Raise e, w') =>
        if reports (env w') then on_error (PStr (exn_name e)) w'
        else (Ok tt, w')
    | (Fuel, w') => (Fuel, w')
    end.

(** [await asyncio.sleep(...)]: the callbacks the script schedules for this
    wait run. *)
Definition asyncio_sleep : M unit :=
  emit Sleep ;;;
  cbs <- (fun w =>
            match sleep (env w) with
            | [] => (Ok [], w)
            | cbs :: rest => (Ok cbs, with_env (set_sleep rest) w)
            end) ;;
  for_ cbs dispatch.

(** [RyobiWssCtrl.check_credentials]. *)
Definition check_credentials : M bool :=
  log DEBUG "RyobiApi (WSS) Checking credentials" [] ;;;
  c <- get_self ;;
  if negb (truth (api_key c)) then
    log DEBUG "RyobiApi (WSS) api key needed" [] ;;;
    ok <- login ;;
    if ok then ret true else ret false
  else
    log DEBUG "RyobiApi (WSS) api_key are OK" [] ;;;
    ret true.

(** [websocket.WebSocketApp(...)], [threading.Thread(...)], [start()] and
    [is_alive()]: the answer of the script; one that has run dry lets the
    constructor fail. *)
Definition next_spawn : M spawn_reply :=
  fun w =>
    match spawn (env w) with
    | [] => (Ok SpawnRaises, w)
    | r :: rest => (Ok r, with_env (set_spawn rest) w)
    end.

Definition new_ws : M nat :=
  fun w => (Ok (next_ws w),
            {| self := set_ws (Some (next_ws w)) (self w); env := env w;
               out := out w ++ [WsNew (next_ws w)];
               next_ws := S (next_ws w) |}).

(** [RyobiWssCtrl.open_wss_thread]. *)
Definition open_wss_thread : M bool :=
  ok <- check_credentials ;;
  if negb ok then
    log ERROR "RyobiApi (WSS) Failed to obtain WSS Api Key" [] ;;;
    ret false
  else
    c <- get_self ;;
    log DEBUG "RyobiApi (WSS) Addr=%s / Api Key=%s"
        [PStr WS_ENDPOINT; api_key c] ;;;
    r <- next_spawn ;;
    match r with
    | SpawnRaises =>
        (* except websocket.WebSocketException *)
        modify_self (set_socket_state SOCK_ERROR) ;;;
        log DEBUG "RyobiApi (WSS) Error while opening socket: %s"
            [PStr "WebSocketException"] ;;;
        ret false
    | Spawned cbs alive =>
        _ <- new_ws ;;
        for_ cbs dispatch ;;;
        if alive then
          log DEBUG "RyobiApi (WSS) Thread was init" [] ;;;
          ret true
        else
          log ERROR "RyobiApi (WSS) Thread connection init has FAILED" [] ;;;
          ret false
    end.

Definition auth_frame (c : ctrl) : pyval :=
  dict [("jsonrpc", PStr "2.0"); ("id", PInt 3);
        ("method", PStr "srvWebSocketAuth");
        ("params", dict [("varName", username c); ("apiKey", api_key c)])].

Definition subscribe_frame (d_id : string) : pyval :=
  dict [("jsonrpc", PStr "2.0"); ("id", PInt 3);
        ("method", PStr "wskSubscribe");
        ("params", dict [("topic", PStr (d_id ++ ".wskAttributeUpdateNtfy"))])].

Section Connect.

(** [publish_wss] and [connect_wss] call each other; [connect_wss] and
    the two methods it uses are written over the [publish_wss] they
    call. *)
Variable publish_wss : pyval -> M bool.

(** [RyobiWssCtrl.authenticate_with_server]. *)
Definition authenticate_with_server : M unit :=
  log DEBUG "RyobiApi (WSS) Attempting to authenticate with websocket. " [] ;;;
  c <- get_self ;;
  _ <- publish_wss (auth_frame c) ;;
  ret tt.

(** [RyobiWssCtrl.subscribe_to_notifications]. *)
Definition subscribe_to_notifications (d_id : string) : M bool :=
  log DEBUG "RyobiApi (WSS) Subscribing to notifications for %s. "
      [PStr d_id] ;;;
  _ <- publish_wss (subscribe_frame d_id) ;;
  store_garage_state (fun g => setitem g "is_available" (PBool true)) ;;;
  _call_subscriber ;;;
  ret true.

(** [RyobiWssCtrl.connect_wss]. *)
Definition connect_wss_with : M bool :=
  c <- get_self ;;
  if sock_eqb (socket_state c) SOCK_CONNECTED then
    log DEBUG "RyobiApi (WSS) Already connected... " [] ;;;
    ret true
  else
    log DEBUG "RyobiApi (WSS) Not connected, connecting" [] ;;;
    ok <- open_wss_thread ;;
    if ok then
      log DEBUG "RyobiApi (WSS) Connecting" [] ;;;
      r <- for_each (range WS_RETRY) (fun i =>
             log DEBUG "RyobiApi (WSS) awaiting connection established... %s"
                 [PInt i] ;;;
             c <- get_self ;;
             if sock_eqb (socket_state c) SOCK_CONNECTED then
               authenticate_with_server ;;;
               asyncio_sleep ;;;
               c <- get_self ;;
               _ <- subscribe_to_notifications (device_id c) ;;
               ret (Some true)
             else
               asyncio_sleep ;;;
               ret None) ;;
      match r with
      | Some b => ret b
      | None => ret false
      end
    else ret false.

End Connect.

(** [self.ws.close()]. *)
Definition ws_close : M unit :=
  c <- get_self ;;
  match ws c with
  | None => raise AttributeError
  | Some h => emit (WsClose h)
  end.

(** [self.ws.send(json_message)]: the call, and the answer of the script;
    one that has run dry answers that the connection is closed. *)
Definition ws_send (json_message : pyval) : M send_reply :=
  c <- get_self ;;
  match ws c with
  | None => raise AttributeError
  | Some h =>
      emit (WsSend h json_message) ;;;
      fun w =>
        match send (env w) with
        | [] => (Ok SendClosed, w)
        | r :: rest => (Ok r, with_env (set_send rest) w)
        end
  end.

(** One round of the [for attempt in range(N_RETRY)] loop of [publish_wss],
    over the [connect_wss] it calls: [Some] is the [return] of the round. *)
Definition publish_attempt (connect_wss : M bool) (json_message : pyval)
    (attempt : Z) : M (option bool) :=
  c <- get_self ;;
  if sock_eqb (socket_state c) SOCK_CONNECTED then
    r <- ws_send json_message ;;
    match r with
    | SendOk =>
        c <- get_self ;;
        modify_self (set_sent_counter (sent_counter c + 1)) ;;;
        log DEBUG "RyobiApi (WSS) Msg published OK (%s)" [PInt attempt] ;;;
        ret (Some true)
    | SendClosed =>
        (* except websocket.WebSocketConnectionClosedException *)
        modify_self (set_socket_state SOCK_CLOSE) ;;;
        log DEBUG "RyobiApi (WSS) Error while publishing message (details: %s)"
            [PStr "WebSocketConnectionClosedException"] ;;;
        ret None
    | SendRaises e => raise e
    end
  else
    log DEBUG
      "RyobiApi (WSS) Can't publish message socket_state= %s, reconnecting... "
      [PStr (sock_str (socket_state c))] ;;;
    _ <- connect_wss ;;
    ret None.

(** The loop. *)
Definition publish_loop (connect_wss : M bool) (json_message : pyval)
  : M (option bool) :=
  for_each (range N_RETRY) (publish_attempt connect_wss json_message).

(** [RyobiWssCtrl.publish_wss].  The text [json.dumps] produces is
    represented by the value it serialises.  [fuel] bounds the depth of the
    calls [publish_wss] -> [connect_wss] -> [publish_wss]. *)
Fixpoint publish_wss (fuel : nat) (dict_message : pyval) : M bool :=
  match fuel with
  | O => lift Fuel
  | S fuel' =>
      let json_message := dict_message in
      log DEBUG "RyobiApi (WSS) Publishing message : %s" [json_message] ;;;
      c <- get_self ;;
      (if 5 <=? sent_counter c then
         log WARNING
           "RyobiApi (WSS) Link is UP, but server has stopped answering request. "
           [] ;;;
         modify_self (set_sent_counter 0) ;;;
         ws_close ;;;
         modify_self (set_socket_state SOCK_CLOSE)
       else ret tt) ;;;
      r <- publish_loop (connect_wss_with (publish_wss fuel')) json_message ;;
      match r with
      | Some b => ret b
      | None =>
          log ERROR "RyobiApi (WSS) Failed to puslish message after %s retry. "
              [PInt (Z.of_nat N_RETRY)] ;;;
          ret false
      end
  end.

(** [RyobiWssCtrl.connect_wss], as [publish_wss] calls it at depth [fuel]. *)
Definition connect_wss (fuel : nat) : M bool :=
  connect_wss_with (publish_wss fuel).

(** [RyobiWssCtrl.send_command]: the method has no [return] statement. *)
Definition send_command (fuel : nat) (command : pyval) : M pyval :=
  c <- get_self ;;
  log DEBUG "RyobiApi (WSS) send_command: %s to garage_door: %s"
      [command; PStr (device_id c)] ;;;
  _ <- publish_wss fuel command ;;
  ret PNone.

(* ===================================================================== *)
(** * class GdoDevice *)
(* ===================================================================== *)

(** The state [GdoDevice.__init__] builds when it is given none. *)
Definition default_garage_state : pyval :=
  dict [
    ("vacationMode",
     dict [("lastValue", PNone); ("value", PNone); ("vacation_state", PNone)]);
    ("sensorFlag",
     dict [("lastSet", PNone); ("lastValue", PNone); ("value", PNone)]);
    ("doorState",
     dict [("state", PNone); ("lastSet", PNone); ("lastValue", PNone);
           ("value", PNone);
           ("enum", PList [PStr "Closed"; PStr "Open"; PStr "Closing";
                           PStr "Opening"; PStr "Fault"])]);
    ("doorPercentOpen", PNone);
    ("doorPosition",
     dict [("lastSet", PNone); ("lastValue", PNone); ("value", PNone)]);
    ("garageLight",
     dict [("lightState",
            dict [("lastSet", PNone); ("lastValue", PNone); ("value", PNone)]);
           ("lightTimer",
            dict [("lastSet", PNone); ("lastValue", PNone); ("value", PNone)])])
  ].

(** [GdoDevice.current_state] (a property; reading it stores the derived
    state in [garage_state["doorState"]["state"]]). *)
Definition current_state : M pyval :=
  c <- get_self ;;
  has <- lift (str_in "doorState" (garage_state c)) ;;
  if has then
    ds <- lift (getitem (garage_state c) "doorState") ;;
    enum <- lift (getitem ds "enum") ;;
    ds <- lift (getitem (garage_state c) "doorState") ;;
    value <- lift (getitem ds "value") ;;
    s <- lift (getitem enum value) ;;
    store_garage_state (fun g =>
      update_at g "doorState" (fun grp => setitem grp "state" s)) ;;;
    c <- get_self ;;
    ds <- lift (getitem (garage_state c) "doorState") ;;
    lift (getitem ds "state")
  else ret PNone.

(** [GdoDevice.prepare_command_payload]. *)
Definition prepare_command_payload (c : ctrl) (command : pyval) : pyval :=
  dict [("jsonrpc", PStr "2.0");
        ("method", PStr "gdoModuleCommand");
        ("params",
         dict [("msgType", PInt 16);
               ("moduleType", PInt 5);
               ("portId", port_id c);
               ("moduleMsg", command);
               ("topic", PStr (device_id c))])].

(** [GdoDevice.open_cover]. *)
Definition open_cover (fuel : nat) : M pyval :=
  c <- get_self ;;
  send_command fuel (prepare_command_payload c WS_CMD_COVER_OPEN).

(** [GdoDevice.close_cover]. *)
Definition close_cover (fuel : nat) : M pyval :=
  c <- get_self ;;
  send_command fuel (prepare_command_payload c WS_CMD_COVER_CLOSE).

(** [GdoDevice.is_available] (a property). *)
Definition is_available : M pyval :=
  c <- get_self ;;
  has <- lift (str_in "is_available" (garage_state c)) ;;
  if has then lift (getitem (garage_state c) "is_available")
  else ret PNone.

(** [GdoDevice.is_opening] (a property): [True] or, by falling off the end,
    [None]. *)
Definition is_opening : M pyval :=
  c <- get_self ;;
  ds <- lift (getitem (garage_state c) "doorState") ;;
  s <- lift (getitem ds "state") ;;
  if eq_str s "Opening" then ret (PBool true) else ret PNone.

(** [GdoDevice.is_closing] (a property). *)
Definition is_closing : M pyval :=
  c <- get_self ;;
  ds <- lift (getitem (garage_state c) "doorState") ;;
  s <- lift (getitem ds "state") ;;
  if eq_str s "Closing" then ret (PBool true) else ret PNone.

(** [GdoDevice.is_closed] (a property). *)
Definition is_closed : M pyval :=
  c <- get_self ;;
  ds <- lift (getitem (garage_state c) "doorState") ;;
  s <- lift (getitem ds "state") ;;
  if eq_str s "Closed" then ret (PBool true) else ret PNone.

(** [GdoDevice.error_info] (a property). *)
Definition error_info : M pyval :=
  c <- get_self ;;
  ds <- lift (getitem (garage_state c) "doorState") ;;
  s <- lift (getitem ds "state") ;;
  if eq_str s "Fault" then ret (PStr "Door in faulty State.") else ret PNone.

(* ===================================================================== *)
(** * class RyobiGarageDoor (cover.py) *)
(* ===================================================================== *)

(** [RyobiGarageDoor.current_cover_position]. *)
Definition current_cover_position : M pyval :=
  s <- current_state ;;
  if eq_str s "Closed" then ret (PInt (-1))
  else
    s <- current_state ;;
    if eq_str s "Open" then ret (PInt 100)
    else
      c <- get_self ;;
      dp <- lift (getitem (garage_state c) "doorPosition") ;;
      lift (getitem dp "value").

(** The four state names cover.py imports from Home Assistant's cover
    component; their values are Home Assistant's. *)
Record cover_states : Type := {
  STATE_CLOSED : pyval;
  STATE_OPEN : pyval;
  STATE_CLOSING : pyval;
  STATE_OPENING : pyval
}.

Definition STATE_MAPPING (ha : cover_states) : pyval :=
  dict [("Closed", STATE_CLOSED ha);
        ("Open", STATE_OPEN ha);
        ("Closing", STATE_CLOSING ha);
        ("Opening", STATE_OPENING ha)].

(** [try: body  except KeyError: handler]. *)
Definition try_except_KeyError {A} (body handler : M A) : M A :=
  fun w =>
    match body w with
    | (Raise (KeyError _), w') => handler w'
    | r => r
    end.

(** [RyobiGarageDoor.state] (a property). *)
Definition state (ha : cover_states) : M pyval :=
  try_except_KeyError
    (s <- current_state ;;
     mapped_state <- lift (getitem (STATE_MAPPING ha) s) ;;
     s' <- current_state ;;
     log DEBUG "Ryobi Cover: Ryobi State (%s) mapped to HA State = %s "
         [s'; mapped_state] ;;;
     ret mapped_state)
    (s <- current_state ;;
     (if eq_str s "Fault" then
        log ERROR
          "Roybi Cover: The Garage Door is in a 'FAULT' state. Someting is wrong!"
          []
      else
        s' <- current_state ;;
        log ERROR "Roybi Cover: Found an unsupported state, current_state: %s"
            [s']) ;;;
     ret PNone).

(** [RyobiGarageDoor.available] (a property). *)
Definition available : M pyval :=
  a <- is_available ;;
  log DEBUG "Garage Door: available=%s" [a] ;;;
  is_available.

(* ===================================================================== *)
(** * Scenarios *)
(* ===================================================================== *)

(** An environment in which nothing answers. *)
Definition quiet : environment :=
  {| http := []; spawn := []; send := []; sleep := []; reports := false;
     raising := all_return |}.

(** A controller as [GdoDevice.__init__] leaves it, logged in. *)
Definition new_ctrl (d_id : string) (d_state : pyval) : ctrl :=
  {| username := PStr "user"; password := PStr "secret";
     api_key := PStr "k1"; user_id := PStr "u1";
     device_id := d_id; port_id := PInt 7;
     socket_state := SOCK_CLOSE; subscriber := []; ws := None;
     sent_counter := 0; garage_state := d_state |}.

(** The world a controller starts in. *)
Definition boot (c : ctrl) (e : environment) : world :=
  {| self := c; env := e; out := [];
     next_ws := match ws c with Some h => S h | None => 0 end |}.

(** The controller of [dev1] with one subscriber, in the default state. *)
Definition watching_dev1 : world :=
  boot (set_subscriber [0%nat] (new_ctrl "dev1" default_garage_state)) quiet.

(** Subscribers of which [s] raises [e] when called, the others return. *)
Definition raising_at (s : nat) (e : exn) : nat -> option exn :=
  fun x => if Nat.eqb x s then Some e else None.

(** The controller of [dev1] with three subscribers, the second of which
    raises when it is called. *)
Definition failing_subscriber : world :=
  boot (set_subscriber [0%nat; 1%nat; 2%nat]
          (new_ctrl "dev1" default_garage_state))
       {| http := []; spawn := []; send := []; sleep := []; reports := false;
          raising := raising_at 1 (OtherError "RuntimeError") |}.

(** The same controller with its socket open. *)
Definition connected_dev1 : world :=
  boot (set_ws (Some 0%nat)
          (set_socket_state SOCK_CONNECTED
             (set_subscriber [0%nat] (new_ctrl "dev1" default_garage_state))))
       quiet.

(** The controller of [dev1] with its socket closed. *)
Definition closed_dev1 (e : environment) : world :=
  boot (set_subscriber [0%nat] (new_ctrl "dev1" default_garage_state)) e.

(** The default state model with [v] as value of the door state. *)
Definition door_state_at (v : pyval) : list (pyval * pyval) :=
  [(PStr "state", PNone); (PStr "lastSet", PNone); (PStr "lastValue", PNone);
   (PStr "value", v);
   (PStr "enum", PList [PStr "Closed"; PStr "Open"; PStr "Closing";
                        PStr "Opening"; PStr "Fault"])].

(** A state model with that door state and [position] as door position. *)
Definition garage_at (v : pyval) (position : pyval) : list (pyval * pyval) :=
  [(PStr "doorState", PDict (door_state_at v));
   (PStr "doorPercentOpen", PNone);
   (PStr "doorPosition",
    dict [("lastSet", PNone); ("lastValue", PNone); ("value", position)])].

(** The controller of [dev1] over that state model. *)
Definition door_at (v : pyval) (position : pyval) : world :=
  boot (new_ctrl "dev1" (PDict (garage_at v position))) quiet.

(** The controller of [dev1] over a state model that has the door state at
    [v] and no door position. *)
Definition door_without_position (v : pyval) : world :=
  boot (new_ctrl "dev1" (PDict [(PStr "doorState", PDict (door_state_at v))]))
       quiet.

(** The scenario of the specification: an update of the door state for the
    watched device. *)
Definition door_update (var_name : string) : wire :=
  Json (dict [("jsonrpc", PStr "2.0");
              ("method", PStr "wskAttributeUpdateNtfy");
              ("params",
               dict [("topic", PStr "dev1.wskAttributeUpdateNtfy");
                     ("varName", PStr var_name);
                     ("id", PStr "dev1");
                     ("garageDoor_7.doorState", dict [("value", PInt 1)])])]).

(** The [params] of an update naming the door state and the light state. *)
Definition door_and_light_params : pyval :=
  dict [("topic", PStr "dev1.wskAttributeUpdateNtfy");
        ("varName", PStr "dev1");
        ("id", PStr "dev1");
        ("garageDoor_7.doorState", dict [("value", PInt 1)]);
        ("garageLight_7.lightState", dict [("value", PBool true)])].

(** A frame with a method the handler does not know. *)
Definition unknown_method_frame : pyval :=
  dict [("jsonrpc", PStr "2.0"); ("method", PStr "somethingElse");
        ("params", dict [])].

(** The frame [open_cover] sends for the device of [c]. *)
Definition open_frame (c : ctrl) : pyval :=
  prepare_command_payload c WS_CMD_COVER_OPEN.

(** A server that rejects the credentials. *)
Definition rejecting_server : environment :=
  {| http := [HttpResponse 401 (NotJson "Unauthorized")];
     spawn := []; send := []; sleep := []; reports := false;
     raising := all_return |}.

(** A server that accepts connections and frames but never answers. *)
Definition silent_server : environment :=
  {| http := [];
     spawn := [Spawned [OnOpen] true];
     send := [SendOk; SendOk; SendOk; SendOk; SendOk; SendOk; SendOk; SendOk];
     sleep := [];
     reports := false; raising := all_return |}.

(** A server that takes five frames and then cannot be reached: no socket
    can be created any more. *)
Definition unreachable_server : environment :=
  {| http := [];
     spawn := repeat SpawnRaises 5;
     send := [SendOk; SendOk; SendOk; SendOk; SendOk];
     sleep := [];
     reports := false; raising := all_return |}.

(** A server that takes five frames and then refuses connections: each
    thread starts, and reports the error and the close while the
    controller waits. *)
Definition refusing_server : environment :=
  {| http := [];
     spawn := repeat (Spawned [] true) 5;
     send := [SendOk; SendOk; SendOk; SendOk; SendOk];
     sleep :=
       List.concat (repeat ([OnError (PStr "Connection refused");
                        OnClose PNone PNone]
                       :: repeat [] 9) 5);
     reports := false; raising := all_return |}.

(** [n] sends of [payload] in a row, each by [publish_wss]. *)
Fixpoint send_times (n : nat) (payload : pyval) (w : world) : world :=
  match n with
  | O => w
  | S n' => send_times n' payload (snd (publish_wss 1 payload w))
  end.

(** The controller of [dev1], connected, after five sends in a row. *)
Definition after_five_sends (e : environment) : world :=
  let w := boot (self connected_dev1) e in
  send_times 5 (open_frame (self w)) w.

(* ===================================================================== *)
(** * Observations and statements *)
(* ===================================================================== *)

(** ** What a record of events shows *)

(** The subscribers called, in order, in a record of events. *)
Definition calls (l : list event) : list nat :=
  flat_map (fun e => match e with Called s => [s] | _ => [] end) l.

(** The subscribers a notification calls, in order: all of them, or those
    up to the first that raises. *)
Fixpoint called (raising : nat -> option exn) (subs : list nat) : list nat :=
  match subs with
  | [] => []
  | s :: rest =>
      match raising s with
      | Some _ => [s]
      | None => s :: called raising rest
      end
  end.

(** How a notification ends: with the exception of the first subscriber
    that raises, if there is one. *)
Fixpoint notification (raising : nat -> option exn) (subs : list nat)
  : res unit :=
  match subs with
  | [] => Ok tt
  | s :: rest =>
      match raising s with
      | Some e => Raise e
      | None => notification raising rest
      end
  end.

(** The requests sent, in a record of events. *)
Definition requests (l : list event) : nat :=
  List.length (filter (fun e => match e with HttpSend _ _ => true | _ => false end) l).

(** The operations on the socket, in a record of events. *)
Definition socket_ops (l : list event) : list event :=
  filter (fun e => match e with
                   | WsNew _ | WsSend _ _ | WsClose _ => true
                   | _ => false
                   end) l.

(** The frames handed to [ws.send], in a record of events. *)
Definition frames (l : list event) : list pyval :=
  flat_map (fun e => match e with WsSend _ m => [m] | _ => [] end) l.

(** The record a round of the send loop writes before it reconnects. *)
Definition reconnecting (state : sock_state) : event :=
  Log DEBUG
    "RyobiApi (WSS) Can't publish message socket_state= %s, reconnecting... "
    [PStr (sock_str state)].

(** The reconnect attempts made by the send loop, in a record of events. *)
Definition reconnects (l : list event) : nat :=
  List.length
    (filter (fun e => match e with
                      | Log DEBUG fmt _ =>
                          String.eqb fmt
                            "RyobiApi (WSS) Can't publish message socket_state= %s, reconnecting... "
                      | _ => false
                      end) l).

(** The events recorded between two worlds. *)
Definition since (w w' : world) : list event :=
  skipn (List.length (out w)) (out w').

(** The record of events has only grown. *)
Definition extends (w w' : world) : Prop :=
  exists l, out w' = out w ++ l.

(** ** Relations between the world before and after *)

(** Every run of [m] relates the world it starts in to the world it leaves,
    whether it returns or raises. *)
Definition keeps (R : world -> world -> Prop) {A} (m : M A) : Prop :=
  forall w, R w (snd (m w)).

(** The watchdog counter is the same after as before. *)
Definition same_counter (w w' : world) : Prop :=
  sent_counter (self w') = sent_counter (self w).

(** Reading the state model along a path of string keys. *)
Fixpoint at_path (g : pyval) (q : list string) : res pyval :=
  match q with
  | [] => Ok g
  | k :: q' =>
      match getitem g k with
      | Ok v => at_path v q'
      | Raise e => Raise e
      | Fuel => Fuel
      end
  end.

(** The read along [q] gives the same after as before. *)
Definition same_at (q : list string) (w w' : world) : Prop :=
  at_path (garage_state (self w')) q = at_path (garage_state (self w)) q.

(** [garage_state["doorPosition"]["value"]]. *)
Definition position_field (g : pyval) : res pyval :=
  match getitem g "doorPosition" with
  | Ok dp => getitem dp "value"
  | Raise e => Raise e
  | Fuel => Fuel
  end.

(** ** The worlds a run leads to *)

(** What [on_message] records for a frame of no recognised shape: the frame
    itself, and a complaint when it has no [method] at all. *)
Definition unrecognized_log (message : pyval) : list event :=
  Log DEBUG "RyobiApi (WSS) Msg received %s" [message]
  :: match str_in "method" message with
     | Ok true => []
     | _ => [Log ERROR
               "RyobiApi (WSS) Received an unknown message from server: %s}"
               [message]]
     end.

(** The state model after [current_state] has stored the state [s] it
    derived, [d] being the entries of the model and [ds] those of its
    [doorState] group. *)
Definition with_door_state (s : pyval) (d ds : list (pyval * pyval)) : pyval :=
  PDict (dict_set (HStr "doorState") "doorState"
           (PDict (dict_set (HStr "state") "state" s ds)) d).

(** The world in which [send_command] calls [publish_wss]. *)
Definition commanded (command : pyval) (w : world) : world :=
  with_out
    [Log DEBUG "RyobiApi (WSS) send_command: %s to garage_door: %s"
         [command; PStr (device_id (self w))]] w.

(** The world in which [send_command] enters the loop of [publish_wss]. *)
Definition entering_loop (command : pyval) (w : world) : world :=
  with_out
    [Log DEBUG "RyobiApi (WSS) send_command: %s to garage_door: %s"
         [command; PStr (device_id (self w))];
     Log DEBUG "RyobiApi (WSS) Publishing message : %s" [command]] w.

(** The world once [publish_wss] has found the counter at the threshold:
    counter reset, socket [h] closed, state [Close]. *)
Definition forced_close (payload : pyval) (h : nat) (w : world) : world :=
  with_self (set_socket_state SOCK_CLOSE)
    (with_out [WsClose h]
       (with_self (set_sent_counter 0)
          (with_out
             [Log DEBUG "RyobiApi (WSS) Publishing message : %s" [payload];
              Log WARNING
                "RyobiApi (WSS) Link is UP, but server has stopped answering request. "
                []] w))).

(** The world once [ws.send] on socket [h] has delivered [payload] in round
    [attempt] of the loop. *)
Definition delivered (payload : pyval) (h : nat) (attempt : Z)
    (rest : list send_reply) (w : world) : world :=
  with_out [Log DEBUG "RyobiApi (WSS) Msg published OK (%s)" [PInt attempt]]
    (with_self (set_sent_counter (sent_counter (self w) + 1))
       (with_env (set_send rest) (with_out [WsSend h payload] w))).

(** What [publish_wss] does with the outcome of its loop. *)
Definition after_loop (r : option bool) : M bool :=
  match r with
  | Some b => ret b
  | None =>
      log ERROR "RyobiApi (WSS) Failed to puslish message after %s retry. "
          [PInt (Z.of_nat N_RETRY)] ;;;
      ret false
  end.

(** The world after [n] rounds of the send loop in a row, each of which
    found the socket not open and made a reconnect attempt that returned;
    [None] when a round finds the socket open or an attempt raises. *)
Fixpoint reconnect_rounds (fuel n : nat) (w : world) : option world :=
  match n with
  | O => Some w
  | S n' =>
      if sock_eqb (socket_state (self w)) SOCK_CONNECTED then None
      else
        match connect_wss fuel
                (with_out [reconnecting (socket_state (self w))] w) with
        | (Ok _, w1) => reconnect_rounds fuel n' w1
        | _ => None
        end
  end.

(** The world after a reconnect attempt of a controller that has its api
    key, when the constructor of the socket raises. *)
Definition failed_connect (w : world) : world :=
  with_out
    [Log DEBUG "RyobiApi (WSS) Error while opening socket: %s"
         [PStr "WebSocketException"]]
    (with_self (set_socket_state SOCK_ERROR)
       (with_env (set_spawn (tl (spawn (env w))))
          (with_out
             [Log DEBUG "RyobiApi (WSS) Not connected, connecting" [];
              Log DEBUG "RyobiApi (WSS) Checking credentials" [];
              Log DEBUG "RyobiApi (WSS) api_key are OK" [];
              Log DEBUG "RyobiApi (WSS) Addr=%s / Api Key=%s"
                  [PStr WS_ENDPOINT; api_key (self w)]] w))).

(** [n] rounds of the send loop against such a server. *)
Fixpoint unreachable_rounds (n : nat) (w : world) : world :=
  match n with
  | O => w
  | S n' =>
      unreachable_rounds n'
        (failed_connect (with_out [reconnecting (socket_state (self w))] w))
  end.

(** ** Stores along paths *)

(** The store [g[k1]...[kn] = v] along a path of keys. *)
Fixpoint store_at (g : pyval) (p : list pyval) (v : pyval) : res pyval :=
  match p with
  | [] => Ok v
  | [k] => setitem g k v
  | k :: p' => update_at g k (fun grp => store_at grp p' v)
  end.

(** The key [k'] of a store is not the string key [k] of a read. *)
Definition other_key (k : string) (k' : pyval) : bool :=
  match hash_key k' with
  | Some h => if hkey_eq_dec (HStr k) h then false else true
  | None => true
  end.

(** The read path [q] and the store path [p] part ways at some key, so that
    neither leads into the other. *)
Fixpoint apart (q : list string) (p : list pyval) : bool :=
  match q, p with
  | k :: q', k' :: p' => other_key k k' || apart q' p'
  | _, _ => false
  end.

(** The keys [parse_device_update] passes over. *)
Definition skipped (key : pyval) : bool :=
  eq_str key "topic" || eq_str key "varName" || eq_str key "id".

(** The attribute group the entry [key] of an update is merged into, as a
    path into the state model: [module] for a door key,
    [garageLight.module] for a light key, where [module] is what follows
    the first dot of the key. *)
Definition group_path (key : pyval) : option (list pyval) :=
  match module_of key with
  | Ok m =>
      if key_mentions "garageDoor" key then Some [PStr m]
      else if key_mentions "garageLight" key then Some [PStr "garageLight"; PStr m]
      else None
  | _ => None
  end.

(** The leaf fields an update mentions: for every entry that names a group,
    the fields of the entry, each under the path of the group. *)
Definition write_paths (update : pyval) : list (list pyval) :=
  match keys update with
  | Ok ks =>
      flat_map (fun key =>
        if skipped key then []
        else
          match group_path key, getitem update key with
          | Some g, Ok u =>
              match iter u with
              | Ok items => map (fun item => g ++ [item]) items
              | _ => []
              end
          | _, _ => []
          end) ks
  | _ => []
  end.

(** ** What the specification asks *)

(** What the specification asks of a frame for another device: the state
    model keeps its value and no subscriber is called. *)
Definition dropped_silently (msg : wire) (w : world) : Prop :=
  let w' := snd (on_message msg w) in
  garage_state (self w') = garage_state (self w) /\
  calls (out w') = calls (out w).

(** A decoded frame that is a JSON object and has none of the three shapes:
    its [method], if any, is neither the update notification nor the
    authorisation acknowledgement, and it has no [result] key. *)
Definition unrecognized (message : pyval) : bool :=
  match message with
  | PDict d =>
      match dict_get (HStr "method") d with
      | Some m => negb (eq_str m GARAGE_UPDATE_MSG) && negb (eq_str m WS_AUTH_OK)
      | None => true
      end
      && match dict_get (HStr "result") d with
         | Some _ => false
         | None => true
         end
  | _ => false
  end.

(** The handler returns normally. *)
Definition handled (msg : wire) (w : world) : Prop :=
  fst (on_message msg w) = Ok tt.

(** What the specification asks when the value is no valid index: some
    result, and no exception. *)
Definition reads_without_crash (w : world) : Prop :=
  exists s, fst (current_state w) = Ok s.

(** What the specification asks of the cover position, in every state of
    the device: the derived door state [s] can be read and a position [p]
    is reported, which is the sentinel [-1] when [s] is [Closed], [100] when
    [s] is [Open] and the door position field otherwise, the sentinel being
    reported for [Closed] only. *)
Definition position_as_specified (w : world) : Prop :=
  exists s p,
    fst (current_state w) = Ok s /\
    fst (current_cover_position w) = Ok p /\
    (s = PStr "Closed" -> p = PInt (-1)) /\
    (s = PStr "Open" -> p = PInt 100) /\
    (s <> PStr "Closed" -> s <> PStr "Open" ->
     position_field (garage_state (self w)) = Ok p) /\
    (p = PInt (-1) -> s = PStr "Closed").

(** What the specification asks of the send that follows five unanswered
    ones: one reconnect attempt, and the payload sent again. *)
Definition one_reconnect_then_resend (fuel : nat) (payload : pyval)
    (w : world) : Prop :=
  let w' := snd (send_command fuel payload w) in
  reconnects (since w w') = 1%nat /\ In payload (frames (since w w')).

(** What the specification asks of [send_command] when every reconnect
    attempt fails: the failure result [publish_wss] produced. *)
Definition reports_failure (fuel : nat) (command : pyval) (w : world) : Prop :=
  fst (send_command fuel command w) = Ok (PBool false).

(** ** The retry loop of [send_http] *)

(** One round of the [for attempt in range(N_RETRY)] loop of [send_http]:
    [Some] is the [return] of the round. *)
Definition http_attempt (url method : string) (attempt : Z)
  : M (option pyval) :=
  resp <- client_send method url ;;
  match resp with
  | HttpRequestError =>
      log DEBUG "Send HTTP exception details=%s retry... (%s/%s)"
          [PStr "RequestError"; PInt attempt; PInt (Z.of_nat N_RETRY)] ;;;
      ret None
  | HttpResponse status_code body =>
      if status_code =? 200 then
        log DEBUG "RyobiApi: Send HTTP OK, return=200" [] ;;;
        j <- lift (json_loads body) ;;
        log DEBUG "RyobiApi: HTTP data received = %s" [j] ;;;
        j' <- lift (json_loads body) ;;
        ret (Some j')
      else if status_code =? 401 then
        log ERROR
          "RyobiApi: Invlaid login credentials. HTTP 401 Unauthorized. Skipping retry"
          [] ;;;
        ret (Some http_401_error)
      else
        log WARNING
          "RyobiApi: Bad server response (status code=%s) retry... (%s/%s)"
          [PInt status_code; PInt attempt; PInt (Z.of_nat N_RETRY)] ;;;
        ret None
  end.

(** An answer after which [send_http] tries again: a transport error, or a
    status that is neither 200 nor 401. *)
Definition transient (r : http_reply) : bool :=
  match r with
  | HttpRequestError => true
  | HttpResponse status_code _ =>
      negb (status_code =? 200) && negb (status_code =? 401)
  end.

(** What a round records after such an answer. *)
Definition transient_log (r : http_reply) (attempt : Z) : event :=
  match r with
  | HttpRequestError =>
      Log DEBUG "Send HTTP exception details=%s retry... (%s/%s)"
          [PStr "RequestError"; PInt attempt; PInt (Z.of_nat N_RETRY)]
  | HttpResponse status_code _ =>
      Log WARNING
        "RyobiApi: Bad server response (status code=%s) retry... (%s/%s)"
        [PInt status_code; PInt attempt; PInt (Z.of_nat N_RETRY)]
  end.

(** The world after the rounds numbered [l] have met the transient answers
    [rs], one each. *)
Fixpoint retried (url method : string) (rs : list http_reply) (l : list Z)
    (w : world) : world :=
  match rs, l with
  | r :: rs', attempt :: l' =>
      retried url method rs' l'
        (with_out [transient_log r attempt]
           (with_env (set_http (tl (http (env w))))
              (with_out [HttpSend method url] w)))
  | _, _ => w
  end.

(** What [send_http] does with the outcome of its loop. *)
Definition after_retries (r : option pyval) : M pyval :=
  match r with
  | Some v => ret v
  | None =>
      log ERROR "RyobiApi: HTTP error after %s retry" [PInt (Z.of_nat N_RETRY)] ;;;
      ret http_retry_error
  end.

(** ** What [login] does with the answer *)

(** The statements of [login] that follow [resp = await self.send_http(...)]. *)
Definition login_answer (resp : pyval) : M bool :=
  result <- lift (getitem resp "result") ;;
  has_id <- lift (str_in "_id" result) ;;
  if has_id then
    result <- lift (getitem resp "result") ;;
    id <- lift (getitem result "_id") ;;
    modify_self (set_user_id id) ;;;
    result <- lift (getitem resp "result") ;;
    auth <- lift (getitem result "auth") ;;
    has_key <- lift (str_in "apiKey" auth) ;;
    if has_key then
      result <- lift (getitem resp "result") ;;
      auth <- lift (getitem result "auth") ;;
      key <- lift (getitem auth "apiKey") ;;
      modify_self (set_api_key key) ;;;
      log DEBUG "RyobiApi: Login successful. Id and Api Key retrieved" [] ;;;
      ret true
    else
      log ERROR "RyobiApi: Could not get Api Key from server response: %s"
          [resp] ;;;
      ret false
  else
    log ERROR
      "RyobiApi: Something went wrong with login, no user id found. See server response: %s"
      [resp] ;;;
    ret false.

(** The world in which [login] calls [send_http], and its parameters. *)
Definition login_params (c : ctrl) : pyval :=
  dict [("username", username c); ("password", password c)].

Definition logging_in (w : world) : world :=
  with_out [Log DEBUG "RyobiApi try login" []] w.

(** ** What callbacks leave alone *)

(** An event that is neither a request, nor an operation on a socket, nor a
    sleep. *)
Definition silent (e : event) : bool :=
  match e with
  | Log _ _ _ | Called _ => true
  | _ => false
  end.

(** The world after differs from the world before in nothing but the socket
    state, the watchdog counter and the state model of the object, and in
    log records and subscriber calls added to the record of events. *)
Definition only_object (w w' : world) : Prop :=
  env w' = env w /\ next_ws w' = next_ws w /\
  username (self w') = username (self w) /\
  password (self w') = password (self w) /\
  api_key (self w') = api_key (self w) /\
  user_id (self w') = user_id (self w) /\
  device_id (self w') = device_id (self w) /\
  port_id (self w') = port_id (self w) /\
  subscriber (self w') = subscriber (self w) /\
  ws (self w') = ws (self w) /\
  exists l, out w' = out w ++ l /\ forallb silent l = true.

(** Between the two worlds no subscriber was called, and the socket state
    and the list of subscribers are the same. *)
Definition without_notice (w w' : world) : Prop :=
  extends w w' /\ calls (since w w') = [] /\
  socket_state (self w') = socket_state (self w) /\
  subscriber (self w') = subscriber (self w).

(** The same, with the state model left alone too. *)
Definition model_untouched (w w' : world) : Prop :=
  without_notice w w' /\ garage_state (self w') = garage_state (self w).

(** A decoded frame that [on_message] hands to [parse_device_update]: its
    [method] is the update notification and it has [params]. *)
Definition carries_update (message : pyval) : bool :=
  match str_in "method" message, getitem message "method",
        str_in "params" message with
  | Ok true, Ok m, Ok true => eq_str m GARAGE_UPDATE_MSG
  | _, _, _ => false
  end.

Definition wire_carries_update (msg : wire) : bool :=
  match msg with
  | Json message => carries_update message
  | _ => false
  end.

Definition is_ok {A} (r : res A) : bool :=
  match r with
  | Ok _ => true
  | _ => false
  end.

(** ** One entry of an update *)

(** The body of the inner loops of [parse_device_update]: the field [item]
    of the entry [key] is stored in the group the path [g] leads to. *)
Definition merge_item (update key : pyval) (g : list pyval) (item : pyval)
  : M unit :=
  u <- lift (getitem update key) ;;
  v <- lift (getitem u item) ;;
  store_garage_state (fun gs => store_at gs (g ++ [item]) v).

(** The body of the outer loop of [parse_device_update]. *)
Definition merge_key (update key : pyval) : M unit :=
  if eq_str key "topic" || eq_str key "varName" || eq_str key "id"
  then ret tt
  else
    u <- lift (getitem update key) ;;
    log DEBUG "RyobiApi (WSS) parse update each item in %s: %s" [key; u] ;;;
    module_name <- lift (module_of key) ;;
    if key_mentions "garageDoor" key then
      u <- lift (getitem update key) ;;
      items <- lift (iter u) ;;
      for_ items (merge_item update key [PStr module_name])
    else if key_mentions "garageLight" key then
      u <- lift (getitem update key) ;;
      items <- lift (iter u) ;;
      for_ items
        (merge_item update key [PStr "garageLight"; PStr module_name])
    else
      log ERROR "RyobiApi (WSS) parse update: Did not recognized module: %s"
          [key].

(** The update names the device of the controller. *)
Definition addressed (update : pyval) (c : ctrl) : bool :=
  match getitem update "varName" with
  | Ok var_name => eq_str var_name (device_id c)
  | _ => false
  end.

(** The leaf fields the entry [key] of an update mentions, each under the
    path of its group. *)
Definition entry_paths (update key : pyval) : list (list pyval) :=
  if skipped key then []
  else
    match group_path key, getitem update key with
    | Some g, Ok u =>
        match iter u with
        | Ok items => map (fun item => g ++ [item]) items
        | _ => []
        end
    | _, _ => []
    end.

(** An entry as [json.loads] builds it from a JSON object: a dict whose
    keys are strings. *)
Definition string_keyed (u : pyval) : bool :=
  match u with
  | PDict d =>
      forallb (fun kv => match fst kv with PStr _ => true | _ => false end) d
  | _ => false
  end.

(** The string keys of a path. *)
Definition strings (g : list pyval) : list string :=
  flat_map (fun k => match k with PStr s => [s] | _ => [] end) g.

(** No two of the keys [ks] name the same group, or a group and something
    inside it. *)
Definition separate_groups (ks : list pyval) : Prop :=
  forall k k' g g',
    In k ks -> In k' ks ->
    group_path k = Some g -> group_path k' = Some g' ->
    k = k' \/ apart (strings g) g' = true.

(** What stands in the way of a store into the group [m] of the state
    model [g]: the exception of the subscript [g[m]], or [TypeError] when
    [g[m]] is a scalar ([None], a bool, a number, a string), which takes no
    item assignment. *)
Definition group_unusable (g : pyval) (m : string) : option exn :=
  match getitem g m with
  | Raise e => Some e
  | Ok (PDict _) | Ok (PList _) => None
  | Ok _ => Some TypeError
  | Fuel => None
  end.

(** The record the merge writes for each entry it looks at. *)
Definition entry_logged (key u : pyval) : event :=
  Log DEBUG "RyobiApi (WSS) parse update each item in %s: %s" [key; u].

(** The record the merge writes for an entry whose key mentions neither
    [garageDoor] nor [garageLight]. *)
Definition module_unknown (key : pyval) : event :=
  Log ERROR "RyobiApi (WSS) parse update: Did not recognized module: %s" [key].

(** The params of an update with a percentage for the door. *)
Definition door_percent_params : pyval :=
  dict [("topic", PStr "dev1.wskAttributeUpdateNtfy");
        ("varName", PStr "dev1");
        ("id", PStr "dev1");
        ("garageDoor_7.doorPercentOpen", dict [("value", PInt 50)])].

(** The params of an update for a module of another kind. *)
Definition battery_params : pyval :=
  dict [("topic", PStr "dev1.wskAttributeUpdateNtfy");
        ("varName", PStr "dev1");
        ("id", PStr "dev1");
        ("backupCharger_8.chargeLevel", dict [("value", PInt 3)])].

(** The params of an update with a key that has no dot. *)
Definition stamped_params : pyval :=
  dict [("topic", PStr "dev1.wskAttributeUpdateNtfy");
        ("varName", PStr "dev1");
        ("id", PStr "dev1");
        ("timestamp", PInt 1700000000);
        ("garageDoor_7.doorState", dict [("value", PInt 1)])].

(** ** The availability flag *)

(** A value that is neither a list nor a dict. *)
Definition scalar (v : pyval) : bool :=
  match v with
  | PList _ | PDict _ => false
  | _ => true
  end.

(** If the state model holds a bool as [is_available] before, it holds the
    same bool after. *)
Definition available_kept (w w' : world) : Prop :=
  forall b,
    getitem (garage_state (self w)) "is_available" = Ok (PBool b) ->
    getitem (garage_state (self w')) "is_available" = Ok (PBool b).

(** The record of the notification [_call_subscriber] writes. *)
Definition notified (subs : list nat) : list event :=
  Log DEBUG "RyobiApi (WSS): Calling subscriber (schedule_update_ha_state)" []
  :: map Called subs.

(** A controller that has been connected once, with its socket closed
    since. *)
Definition once_connected : world :=
  boot (set_garage_state
          (dict [("doorState", PDict (door_state_at (PInt 0)));
                 ("is_available", PBool true)])
          (new_ctrl "dev1" PNone))
       quiet.

(** A server that accepts the connection and the two frames that follow. *)
Definition welcoming_server : environment :=
  {| http := [];
     spawn := [Spawned [OnOpen] true];
     send := [SendOk; SendOk];
     sleep := [];
     reports := false; raising := all_return |}.

(** ** The door state and what is derived from it *)

(** What a flag of [GdoDevice] answers when the stored state is [s]:
    [yes] if it is the state the flag stands for, [None] otherwise. *)
Definition flag (name : string) (yes s : pyval) : pyval :=
  if eq_str s name then yes else PNone.

(** The name Home Assistant has for the door state [s], [None] if it has
    none. *)
Definition ha_state (ha : cover_states) (s : pyval) : pyval :=
  if eq_str s "Closed" then STATE_CLOSED ha
  else if eq_str s "Open" then STATE_OPEN ha
  else if eq_str s "Closing" then STATE_CLOSING ha
  else if eq_str s "Opening" then STATE_OPENING ha
  else PNone.

(** Home Assistant's values of the four names. *)
Definition home_assistant : cover_states :=
  {| STATE_CLOSED := PStr "closed"; STATE_OPEN := PStr "open";
     STATE_CLOSING := PStr "closing"; STATE_OPENING := PStr "opening" |}.

(** The decoded frame of [door_update] for the watched device, and its
    params. *)
Definition door_params : pyval :=
  dict [("topic", PStr "dev1.wskAttributeUpdateNtfy");
        ("varName", PStr "dev1");
        ("id", PStr "dev1");
        ("garageDoor_7.doorState", dict [("value", PInt 1)])].

Definition door_frame : pyval :=
  dict [("jsonrpc", PStr "2.0");
        ("method", PStr "wskAttributeUpdateNtfy");
        ("params", door_params)].

(** The door states Home Assistant has a name for. *)
Definition known_state (s : pyval) : bool :=
  eq_str s "Closed" || eq_str s "Open" || eq_str s "Closing"
  || eq_str s "Opening".

(** The error records in a record of events. *)
Definition errors (l : list event) : list event :=
  filter (fun e => match e with Log ERROR _ _ => true | _ => false end) l.

(** What a round of the send loop records when [ws.send] on socket [h]
    takes [payload]. *)
Definition published (payload : pyval) (h : nat) (attempt : Z) : list event :=
  [WsSend h payload;
   Log DEBUG "RyobiApi (WSS) Msg published OK (%s)" [PInt attempt]].

(** An event that is neither a write to a socket nor the closing of one. *)
Definition off_socket (e : event) : bool :=
  match e with
  | WsSend _ _ | WsClose _ => false
  | _ => true
  end.

(** Between the two worlds nothing was written to a socket and no socket
    was closed. *)
Definition sockets_untouched (w w' : world) : Prop :=
  exists l, out w' = out w ++ l /\ forallb off_socket l = true.

(** A server that lets the thread start and then stays silent. *)
Definition mute_server : environment :=
  {| http := [];
     spawn := [Spawned [] true];
     send := [];
     sleep := [];
     reports := false; raising := all_return |}.

(** ** Devices *)

(** The dict [get_device] returns when the answer is empty. *)
Definition no_device_info : pyval :=
  dict [("garage_state", PNone); ("serial", PNone); ("mac", PNone)].

(** The server has nothing but failures to offer to the next call of
    [send_http]: five transient answers, or fewer than five followed by a
    401. *)
Definition failing (answers : list http_reply) : Prop :=
  exists rs rest,
    forallb transient rs = true /\
    (answers = rs ++ rest /\ List.length rs = 5%nat \/
     exists body,
       answers = rs ++ HttpResponse 401 body :: rest /\
       (List.length rs < 5)%nat).

(** The module [module] of the device map is no port with a garage door:
    its name does not start with [modulePort_], or none of its profiles
    mentions [garageDoor]. *)
Definition no_door_port (deviceMap module : pyval) : Prop :=
  startswith module "modulePort_" = Ok false \/
  startswith module "modulePort_" = Ok true /\
  exists profiles subs,
    subscript deviceMap
      [module; PStr "at"; PStr "moduleProfiles"; PStr "value"] = Ok profiles /\
    iter profiles = Ok subs /\
    any_in "garageDoor" subs = Ok false.

(** An attribute as the server describes it. *)
Definition attribute (value : pyval) (more : list (string * pyval)) : pyval :=
  dict ([("lastSet", PInt 1700000000); ("lastValue", PInt 0);
         ("value", value)] ++ more).

(** The answer of the server for a device with one module port, number 7,
    with a garage door whose door state has the value [v]. *)
Definition device_response (v : pyval) : pyval :=
  dict [("result",
    PList [dict [("varName", PStr "dev1");
      ("deviceTypeMap",
       dict [
         ("masterUnit",
          dict [("at",
            dict [("serialNumber", attribute (PStr "SN1") []);
                  ("macAddress", attribute (PStr "00:11:22:33:44:55") [])])]);
         ("modulePort_7",
          dict [("at",
            dict [("moduleProfiles",
                   attribute (PList [PStr "garageDoor_7"; PStr "garageLight_7"]) []);
                  ("moduleId", attribute (PInt 5) []);
                  ("portId", attribute (PInt 7) [])])]);
         ("garageDoor_7",
          dict [("at",
            dict [("vacationMode",
                   attribute (PInt 0) [("enum", PList [PStr "Off"; PStr "On"])]);
                  ("sensorFlag", attribute (PBool false) []);
                  ("opMode",
                   attribute (PInt 0) [("enum", PList [PStr "Normal"])]);
                  ("doorState",
                   attribute v
                     [("enum", PList [PStr "Closed"; PStr "Open"; PStr "Closing";
                                      PStr "Opening"; PStr "Fault"])]);
                  ("doorPercentOpen", attribute (PInt 0) []);
                  ("doorPosition", attribute (PInt 0) [])])]);
         ("garageLight_7",
          dict [("at",
            dict [("lightState", attribute (PBool false) []);
                  ("lightTimer", attribute (PInt 10) [])])])])]])].

(** The answer for a device whose only module port has no garage door. *)
Definition doorless_response : pyval :=
  dict [("result",
    PList [dict [("varName", PStr "dev1");
      ("deviceTypeMap",
       dict [
         ("masterUnit",
          dict [("at",
            dict [("serialNumber", attribute (PStr "SN1") []);
                  ("macAddress", attribute (PStr "00:11:22:33:44:55") [])])]);
         ("modulePort_7",
          dict [("at",
            dict [("moduleProfiles", attribute (PList [PStr "parkAssist_7"]) []);
                  ("moduleId", attribute (PInt 5) []);
                  ("portId", attribute (PInt 7) [])])])])]])].

(** The text of a string, an int, a bool and [None] inside an f-string.
    The text Python gives to a float, a list or a dict is not modelled:
    this function gives the empty text for them, and is used on the
    strings and ints that serve as port numbers and device names only. *)
Definition text_of (v : pyval) : string :=
  match v with
  | PStr s => s
  | PInt z => NilZero.string_of_int (Z.to_int z)
  | PBool true => "True"
  | PBool false => "False"
  | PNone => "None"
  | _ => ""
  end.

(** One entry of the device list as the server sends it. *)
Definition listed (d_id name : string) : pyval :=
  dict [("varName", PStr d_id);
        ("deviceTypeIds", PList [PStr "gdoMasterUnit"]);
        ("metaData",
         dict [("name", PStr name); ("version", PInt 1);
               ("description", PStr "");
               ("sys", dict [("lastSeen", PInt 1700000000)])])].

(** A server with a single answer. *)
Definition answering (r : http_reply) : environment :=
  {| http := [r]; spawn := []; send := []; sleep := []; reports := false;
     raising := all_return |}.

(** ** The API key *)

(** If the object holds an API key before, it holds the same key after and
    no request was sent in between. *)
Definition key_kept (w w' : world) : Prop :=
  truth (api_key (self w)) = true ->
  api_key (self w') = api_key (self w) /\
  exists l, out w' = out w ++ l /\ requests l = 0%nat.

(* ===================================================================== *)
(** * Properties *)
(* ===================================================================== *)

(** ** The model at work *)

(** The scenario of the specification: an update of the door state of the
    watched device sets the value, makes the derived state [Open], and
    calls the subscriber once (see [update_for_dev1] below). *)
Example split_dot_ex :
  split_dot "garageDoor_7.doorState" = ["garageDoor_7"; "doorState"].
Proof. reflexivity. Qed.

Example str_in_ex :
  str_in "method" (dict [("jsonrpc", PStr "2.0"); ("method", PStr "x")]) = Ok true.
Proof. reflexivity. Qed.

Example update_for_dev1 :
  let w := snd (on_message (door_update "dev1") watching_dev1) in
  at_path (garage_state (self w)) ["doorState"; "value"] = Ok (PInt 1) /\
  fst (current_state w) = Ok (PStr "Open") /\
  calls (out w) = [0%nat].
Proof. vm_compute. repeat split. Qed.

(** Simplification runs the monad's primitives once they meet a world; the
    methods are unfolded by name in the proofs. *)
Arguments bind {A B} m k w /.
Arguments ret {A} a w /.
Arguments lift {A} r w /.
Arguments raise {A} e w /.
Arguments get_self w /.
Arguments modify_self f w /.
Arguments emit e w /.
Arguments log lv fmt args w /.
Arguments getitem : simpl never.
Arguments setitem : simpl never.
Arguments str_in : simpl never.
Arguments iter : simpl never.
Arguments update_at : simpl never.
Arguments send_http : simpl never.
Arguments login : simpl never.
Arguments _call_subscriber : simpl never.
Arguments parse_device_update : simpl never.
Arguments on_message : simpl never.
Arguments dispatch : simpl never.
Arguments asyncio_sleep : simpl never.
Arguments check_credentials : simpl never.
Arguments open_wss_thread : simpl never.
Arguments connect_wss_with : simpl never.
Arguments connect_wss : simpl never.
Arguments publish_attempt : simpl never.
Arguments publish_loop : simpl never.
Arguments ws_send : simpl never.
Arguments send_command : simpl never.
Arguments current_state : simpl never.
Arguments current_cover_position : simpl never.

(** ** Frame reasoning

    A relation between the world before and after that every step of a
    method respects is respected by the method, whether it returns or
    raises. *)
Section Frame.

Variable R : world -> world -> Prop.
Hypothesis R_refl : forall w, R w w.
Hypothesis R_trans : forall a b c, R a b -> R b c -> R a c.

Lemma keeps_ret {A} (a : A) : keeps R (ret a).
Proof using R_refl R_trans. intros w; apply R_refl. Qed.

Lemma keeps_lift {A} (r : res A) : keeps R (lift r).
Proof using R_refl R_trans. intros w; apply R_refl. Qed.

Lemma keeps_get_self : keeps R get_self.
Proof using R_refl R_trans. intros w; apply R_refl. Qed.

Lemma keeps_bind {A B} (m : M A) (k : A -> M B) :
  keeps R m -> (forall a, keeps R (k a)) -> keeps R (bind m k).
Proof using R_refl R_trans.
  intros Hm Hk w. unfold bind.
  specialize (Hm w). destruct (m w) as [[a| e |] w1]; cbn in *; auto.
  eapply R_trans; [exact Hm | apply Hk].
Qed.

Lemma keeps_for_ {I} (l : list I) (body : I -> M unit) :
  (forall i, keeps R (body i)) -> keeps R (for_ l body).
Proof using R_refl R_trans.
  intros Hb. induction l as [| i l IH]; cbn.
  - apply keeps_ret.
  - apply keeps_bind; auto.
Qed.

Lemma keeps_for_each {I A} (l : list I) (body : I -> M (option A)) :
  (forall i, keeps R (body i)) -> keeps R (for_each l body).
Proof using R_refl R_trans.
  intros Hb. induction l as [| i l IH]; cbn.
  - apply keeps_ret.
  - apply keeps_bind; auto.
    intros [a |]; [apply keeps_ret | exact IH].
Qed.

(** The same, when all that is needed of the loop variable is that it comes
    from the list. *)
Lemma keeps_for_In {I} (l : list I) (body : I -> M unit) :
  (forall i, In i l -> keeps R (body i)) -> keeps R (for_ l body).
Proof using R_refl R_trans.
  induction l as [| i l IH]; intros Hb; cbn.
  - apply keeps_ret.
  - apply keeps_bind.
    + apply Hb. now left.
    + intros _. apply IH. intros j Hj. apply Hb. now right.
Qed.

(** The continuation of an expression only runs on its value. *)
Lemma keeps_bind_lift {A B} (r : res A) (k : A -> M B) :
  (forall a, r = Ok a -> keeps R (k a)) -> keeps R (bind (lift r) k).
Proof using R_refl R_trans.
  intros Hk w. cbn. destruct r as [a | e |]; cbn; auto.
  now apply Hk.
Qed.

Lemma keeps_if {A} (b : bool) (m1 m2 : M A) :
  keeps R m1 -> keeps R m2 -> keeps R (if b then m1 else m2).
Proof using R_refl R_trans. destruct b; auto. Qed.

End Frame.

Ltac keeps_step :=
  first
    [ apply keeps_ret; solve [eauto]
    | apply keeps_lift; solve [eauto]
    | apply keeps_get_self; solve [eauto]
    | apply keeps_for_; [solve [eauto] | solve [eauto] | intros ?]
    | apply keeps_for_each; [solve [eauto] | solve [eauto] | intros ?]
    | apply keeps_bind; [solve [eauto] | solve [eauto] | | intros ?]
    | apply keeps_if; [solve [eauto] | solve [eauto] | | ] ].

(** *** The watchdog counter is left alone *)

Lemma same_counter_refl w : same_counter w w.
Proof. reflexivity. Qed.

Lemma same_counter_trans a b c :
  same_counter a b -> same_counter b c -> same_counter a c.
Proof. unfold same_counter; congruence. Qed.

#[local] Hint Resolve same_counter_refl same_counter_trans : core.

Lemma log_same_counter lv fmt args : keeps same_counter (log lv fmt args).
Proof. intros w; reflexivity. Qed.

Lemma emit_same_counter e : keeps same_counter (emit e).
Proof. intros w; reflexivity. Qed.

Lemma store_garage_state_same_counter f :
  keeps same_counter (store_garage_state f).
Proof.
  intros w. unfold store_garage_state, bind, get_self, lift; cbn.
  destruct (f (garage_state (self w))); reflexivity.
Qed.

(** Whether a subscriber returns or raises, calling it leaves the world
    that recording the call leaves. *)
Lemma call_subscriber_world s w :
  snd (call_subscriber s w) = snd (emit (Called s) w).
Proof.
  unfold call_subscriber, bind, emit; cbn.
  destruct (raising (env w) s); reflexivity.
Qed.

Lemma call_subscriber_keeps (R : world -> world -> Prop) s :
  keeps R (emit (Called s)) -> keeps R (call_subscriber s).
Proof. intros H w. rewrite call_subscriber_world. apply H. Qed.

Lemma call_subscriber_same_counter s : keeps same_counter (call_subscriber s).
Proof. apply call_subscriber_keeps. intros w. reflexivity. Qed.

Ltac counter_steps :=
  repeat first
    [ apply call_subscriber_same_counter
    | apply log_same_counter
    | apply emit_same_counter
    | apply store_garage_state_same_counter
    | keeps_step
    | match goal with
      | |- keeps _ (if ?b then _ else _) => destruct b
      | |- keeps _ (match ?x with _ => _ end) => destruct x
      end ].

Lemma _call_subscriber_same_counter : keeps same_counter _call_subscriber.
Proof. unfold _call_subscriber. counter_steps. Qed.

Lemma parse_device_update_same_counter update :
  keeps same_counter (parse_device_update update).
Proof. unfold parse_device_update. counter_steps. Qed.

(** ** The watchdog counter and inbound frames *)

(** C10.  Every inbound frame resets the watchdog counter [sent_counter] to
    zero, whatever its shape and whether handling it returns or raises; the
    reset comes before the frame is decoded, so that a frame [json.loads]
    rejects leaves the counter at zero, the rest of the world untouched,
    and the decoder's exception in the hands of the caller. *)
Theorem on_message_resets_sent_counter :
  (forall msg w, sent_counter (self (snd (on_message msg w))) = 0) /\
  (forall raw w,
      on_message (NotJson raw) w
      = (Raise JSONDecodeError, with_self (set_sent_counter 0) w)).
Proof.
  split.
  - intros msg w. unfold on_message.
    match goal with
    | |- context [bind (modify_self ?f) ?k w] =>
        change (bind (modify_self f) k w) with (k tt (with_self f w));
        cut (keeps same_counter (k tt))
    end.
    + intros H. exact (H (with_self (set_sent_counter 0) w)).
    + repeat first
        [ apply parse_device_update_same_counter
        | apply _call_subscriber_same_counter
        | progress counter_steps ].
  - reflexivity.
Qed.

(** ** Bookkeeping on worlds and traces *)

Lemma with_out_nil w : with_out [] w = w.
Proof. destruct w; unfold with_out; cbn. now rewrite app_nil_r. Qed.

Lemma with_out_app l1 l2 w : with_out l2 (with_out l1 w) = with_out (l1 ++ l2) w.
Proof. unfold with_out; cbn. now rewrite app_assoc. Qed.

Lemma calls_app l1 l2 : calls (l1 ++ l2) = calls l1 ++ calls l2.
Proof. unfold calls. apply flat_map_app. Qed.

Lemma calls_map_Called l : calls (map Called l) = l.
Proof. induction l as [| s l IH]; cbn; [reflexivity | now f_equal]. Qed.

Lemma for_call_subscriber l : forall w,
  for_ l call_subscriber w
  = (notification (raising (env w)) l,
     with_out (map Called (called (raising (env w)) l)) w).
Proof.
  induction l as [| s l IH]; intros w; cbn [for_ called notification map].
  - unfold ret. now rewrite with_out_nil.
  - unfold bind at 1. unfold call_subscriber at 1. unfold bind, emit.
    change (env (with_out [Called s] w)) with (env w).
    destruct (raising (env w) s) as [e |]; [reflexivity |].
    rewrite IH. cbn [env with_out map]. now rewrite with_out_app.
Qed.

(** A notification calls the subscribers in order up to the first that
    raises, and ends as that one does. *)
Lemma _call_subscriber_run w :
  _call_subscriber w
  = (notification (raising (env w)) (subscriber (self w)),
     with_out (notified (called (raising (env w)) (subscriber (self w)))) w).
Proof.
  unfold _call_subscriber, bind, log, emit, get_self; cbn.
  rewrite for_call_subscriber. cbn [env self with_out].
  now rewrite with_out_app.
Qed.

Lemma called_all raising subs :
  (forall s, In s subs -> raising s = None) ->
  called raising subs = subs /\ notification raising subs = Ok tt.
Proof.
  induction subs as [| s subs IH]; intros H; [split; reflexivity |].
  cbn. rewrite (H s (or_introl eq_refl)).
  destruct IH as [A B]; [intros x Hx; apply H; now right |].
  now rewrite A, B.
Qed.

Lemma called_until raising before s e after :
  (forall x, In x before -> raising x = None) ->
  raising s = Some e ->
  called raising (before ++ s :: after) = before ++ [s] /\
  notification raising (before ++ s :: after) = Raise e.
Proof.
  induction before as [| x before IH]; intros H Hs; cbn.
  - now rewrite Hs.
  - rewrite (H x (or_introl eq_refl)).
    destruct IH as [A B]; [intros y Hy; apply H; now right | exact Hs |].
    now rewrite A, B.
Qed.

(** A notification that returns has called every subscriber. *)
Lemma notification_returned raising subs :
  notification raising subs = Ok tt -> called raising subs = subs.
Proof.
  induction subs as [| s subs IH]; cbn; [reflexivity |].
  destruct (raising s); [discriminate |]. intros H. now rewrite IH.
Qed.

Lemma _call_subscriber_returns w w' :
  _call_subscriber w = (Ok tt, w') ->
  w' = with_out (notified (subscriber (self w))) w.
Proof.
  rewrite _call_subscriber_run. intros H. injection H as H <-.
  now rewrite (notification_returned _ _ H).
Qed.

(** A subscript with a string key that succeeds has found the key. *)
Lemma getitem_str_in o (k : string) v :
  getitem o k = Ok v -> str_in k o = Ok true.
Proof.
  unfold getitem, str_in. destruct o; cbn; try discriminate.
  destruct (dict_get (HStr k) d); [reflexivity | discriminate].
Qed.

(** ** Updates for another device *)

(** C1, as amended.  An update-notification frame whose [params] carry a
    [varName] different from the controller's [device_id] leaves the state
    model (and every attribute of the controller but the watchdog counter,
    which is reset) unchanged, but it is not dropped in silence: the handler
    logs the frame and the mismatch and then notifies the subscribers,
    because [on_message] notifies after every update-notification that has
    [params], accepted or not.  The subscribers are called in registration
    order.  When all of them return, each is called once and [on_message]
    returns; when one of them raises, those before it have been called,
    those after it are not, and [on_message] raises its exception.
    [on_message] raises nothing of its own on such a frame. *)
Theorem foreign_update_keeps_state w message m params var_name :
  getitem message "method" = Ok m ->
  eq_str m GARAGE_UPDATE_MSG = true ->
  getitem message "params" = Ok params ->
  getitem params "varName" = Ok var_name ->
  eq_str var_name (device_id (self w)) = false ->
  let subs := called (raising (env w)) (subscriber (self w)) in
  let w' :=
    with_out
      ([Log DEBUG "RyobiApi (WSS) Msg received %s" [message];
        Log DEBUG "RyobiApi (WSS) recieved garage door update message. " [];
        Log DEBUG
          "RyobiApi (WSS): Recieved update for a differnt device! (%s but I am %s)"
          [var_name; PStr (device_id (self w))];
        Log DEBUG "RyobiApi (WSS): Calling subscriber (schedule_update_ha_state)" []]
       ++ map Called subs)
      (with_self (set_sent_counter 0) w) in
  on_message (Json message) w
  = (notification (raising (env w)) (subscriber (self w)), w') /\
  garage_state (self w') = garage_state (self w) /\
  calls (out w') = calls (out w) ++ subs /\
  ((forall s, In s (subscriber (self w)) -> raising (env w) s = None) ->
   fst (on_message (Json message) w) = Ok tt /\
   subs = subscriber (self w)) /\
  (forall before s e after,
      subscriber (self w) = before ++ s :: after ->
      (forall x, In x before -> raising (env w) x = None) ->
      raising (env w) s = Some e ->
      fst (on_message (Json message) w) = Raise e /\
      subs = before ++ [s]).
Proof.
  intros Hm Hupd Hp Hv Hne subs w'.
  assert (R : on_message (Json message) w
              = (notification (raising (env w)) (subscriber (self w)), w')).
  { unfold on_message, bind, lift, log, emit, modify_self; cbn.
    rewrite (getitem_str_in _ _ _ Hm), Hm, Hupd.
    rewrite (getitem_str_in _ _ _ Hp), Hp.
    unfold parse_device_update, bind, lift, log, emit, get_self; cbn.
    rewrite Hv, Hne; cbn.
    rewrite _call_subscriber_run; cbn.
    unfold w', subs, notified, with_out, with_self; cbn.
    now rewrite <- !app_assoc. }
  split; [exact R | split; [reflexivity | split; [| split]]].
  - unfold w'. change (out (with_out ?l ?x)) with (out x ++ l).
    change (out (with_self ?f ?x)) with (out x).
    now rewrite !calls_app, calls_map_Called.
  - intros H. rewrite R. cbn [fst].
    destruct (called_all _ _ H) as [A B]. split; assumption.
  - intros before s e after E H Hs. rewrite R. cbn [fst]. unfold subs.
    rewrite E. destruct (called_until _ before s e after H Hs) as [A B].
    split; assumption.
Qed.

Lemma foreign_update_keeps_state_witness :
  (fst (on_message (door_update "dev2") watching_dev1) = Ok tt /\
   called (raising (env watching_dev1)) (subscriber (self watching_dev1))
   = [0%nat]) /\
  (fst (on_message (door_update "dev2") failing_subscriber)
   = Raise (OtherError "RuntimeError") /\
   called (raising (env failing_subscriber))
          (subscriber (self failing_subscriber))
   = [0%nat] ++ [1%nat]).
Proof.
  split.
  - refine (proj1 (proj2 (proj2 (proj2
              (foreign_update_keeps_state watching_dev1
                 (match door_update "dev2" with Json v => v | _ => PNone end)
                 (PStr "wskAttributeUpdateNtfy") _ (PStr "dev2")
                 eq_refl eq_refl eq_refl eq_refl eq_refl)))) _).
    intros s _. reflexivity.
  - refine (proj2 (proj2 (proj2 (proj2
              (foreign_update_keeps_state failing_subscriber
                 (match door_update "dev2" with Json v => v | _ => PNone end)
                 (PStr "wskAttributeUpdateNtfy") _ (PStr "dev2")
                 eq_refl eq_refl eq_refl eq_refl eq_refl))))
              [0%nat] 1%nat (OtherError "RuntimeError") [2%nat] eq_refl _
              eq_refl).
    intros x [<- | []]. reflexivity.
Defined.

(** C1, as stated, fails: with one subscriber registered, a frame for
    device [dev2] reaching the controller of [dev1] leaves the state model
    alone, but the subscriber is called. *)
Lemma foreign_update_not_silent :
  ~ dropped_silently (door_update "dev2") watching_dev1.
Proof.
  unfold dropped_silently. intros [_ H]. vm_compute in H. discriminate H.
Qed.

(** ** Frames of no recognised shape *)

(** C4, as amended.  A frame that decodes to a JSON object of none of the
    three recognised shapes is logged and dropped: [on_message] returns
    without an exception, records the frame (and an error when the object
    has no [method] key), calls no subscriber and changes nothing in the
    controller but the watchdog counter, which it resets. *)
Theorem unrecognized_object_dropped w message :
  unrecognized message = true ->
  on_message (Json message) w
  = (Ok tt,
     with_out (unrecognized_log message) (with_self (set_sent_counter 0) w)) /\
  calls (unrecognized_log message) = [].
Proof.
  intros H. destruct message as [| | | | | | d]; try discriminate H.
  cbn in H. apply andb_prop in H. destruct H as [Hm Hr].
  unfold unrecognized_log, on_message, bind, lift, log, emit, modify_self,
    str_in, getitem; cbn.
  destruct (dict_get (HStr "method") d) as [m |].
  - apply andb_prop in Hm. destruct Hm as [Hu Ha].
    apply negb_true_iff in Hu, Ha. cbn. rewrite Hu; cbn. rewrite Ha; cbn.
    split; reflexivity.
  - destruct (dict_get (HStr "result") d); [discriminate Hr |]. cbn.
    unfold with_out; cbn. rewrite <- app_assoc. split; reflexivity.
Qed.

Lemma unrecognized_object_dropped_witness :
  on_message (Json unknown_method_frame) watching_dev1
  = (Ok tt,
     with_out [Log DEBUG "RyobiApi (WSS) Msg received %s" [unknown_method_frame]]
              (with_self (set_sent_counter 0) watching_dev1)).
Proof.
  exact (proj1 (unrecognized_object_dropped watching_dev1 unknown_method_frame
                  eq_refl)).
Defined.

(** C4, as stated, fails on frames that are not JSON objects: a text that
    is not well-formed JSON makes [on_message] raise the decoder's
    exception, and a JSON number makes it raise [TypeError] at the first
    shape test. *)
Lemma malformed_frame_raises :
  ~ handled (NotJson "{not json") watching_dev1 /\
  fst (on_message (NotJson "{not json") watching_dev1) = Raise JSONDecodeError /\
  fst (on_message (Json (PInt 42)) watching_dev1) = Raise TypeError.
Proof.
  unfold handled. repeat split; try reflexivity. intros H. discriminate H.
Qed.

(** Dispatched by a socket library that reports callback errors, such a
    frame leaves the controller in the [Error] state. *)
Example malformed_frame_marks_error :
  let e := {| http := []; spawn := []; send := []; sleep := [];
              reports := true; raising := all_return |} in
  let w := boot (self connected_dev1) e in
  fst (dispatch (OnMessage (NotJson "{not json")) w) = Ok tt /\
  socket_state (self (snd (dispatch (OnMessage (NotJson "{not json")) w)))
  = SOCK_ERROR.
Proof. split; reflexivity. Qed.

(** ** Login against a server that answers 401 *)

(** C3, on the code.  When the server answers the login request with status
    401, [send_http] returns its error dict at once, after that single
    request; [login] then subscripts the dict with ["result"], a key the
    error dict does not have, and raises [KeyError] instead of returning
    [False]. *)
Theorem login_401_raises w body rest :
  http (env w) = HttpResponse 401 body :: rest ->
  let trace :=
    [Log DEBUG "RyobiApi try login" [];
     Log DEBUG "Send HTTP request Url=%s Params=%s"
         [PStr login_url;
          dict [("username", username (self w)); ("password", password (self w))]];
     HttpSend "POST" login_url;
     Log ERROR
       "RyobiApi: Invlaid login credentials. HTTP 401 Unauthorized. Skipping retry"
       []] in
  login w = (Raise (KeyError (PStr "result")),
             with_out trace (with_env (set_http rest) w)) /\
  requests trace = 1%nat.
Proof.
  intros H trace. split; [| reflexivity].
  unfold login, send_http, client_send.
  change (range N_RETRY) with [0; 1; 2; 3; 4]. cbn.
  rewrite H; cbn.
  unfold with_out, with_env; cbn. now rewrite <- !app_assoc.
Qed.

Lemma login_401_raises_witness :
  fst (login (boot (new_ctrl "dev1" default_garage_state) rejecting_server))
  = Raise (KeyError (PStr "result")).
Proof.
  exact (f_equal fst
           (proj1 (login_401_raises
                     (boot (new_ctrl "dev1" default_garage_state) rejecting_server)
                     _ _ eq_refl))).
Defined.

(** ** Connecting when already connected *)

Lemma socket_ops_app l1 l2 :
  socket_ops (l1 ++ l2) = socket_ops l1 ++ socket_ops l2.
Proof. apply filter_app. Qed.

(** C7.  Called while the socket state is [Open], [connect_wss] returns
    [True] and does nothing but write a debug record: no socket is created,
    nothing is sent or closed, no request or sleep happens, and the
    controller (connection state, socket object, state model and all) and
    the environment are as before.  Calling it again changes nothing
    either. *)
Theorem connect_wss_when_open fuel w :
  socket_state (self w) = SOCK_CONNECTED ->
  let w' := with_out [Log DEBUG "RyobiApi (WSS) Already connected... " []] w in
  connect_wss fuel w = (Ok true, w') /\
  self w' = self w /\ env w' = env w /\ next_ws w' = next_ws w /\
  socket_ops (out w') = socket_ops (out w) /\
  fst (connect_wss fuel w') = Ok true /\
  self (snd (connect_wss fuel w')) = self w.
Proof.
  intros H w'.
  assert (E : forall x, socket_state (self x) = SOCK_CONNECTED ->
                        connect_wss fuel x
                        = (Ok true,
                           with_out [Log DEBUG "RyobiApi (WSS) Already connected... " []] x)).
  { intros x Hx. unfold connect_wss, connect_wss_with; cbn. now rewrite Hx. }
  repeat split; try reflexivity.
  - now apply E.
  - unfold w'. cbn [out with_out]. rewrite socket_ops_app. cbn. apply app_nil_r.
  - now rewrite E.
  - now rewrite E.
Qed.

Lemma connect_wss_when_open_witness :
  connect_wss 1 connected_dev1
  = (Ok true,
     with_out [Log DEBUG "RyobiApi (WSS) Already connected... " []] connected_dev1).
Proof.
  exact (proj1 (connect_wss_when_open 1 connected_dev1 eq_refl)).
Defined.

(** ** Dicts *)

Lemma entry_has_key h k v :
  hash_key k = Some h -> entry_has h (k, v) = true.
Proof.
  unfold entry_has; cbn. intros ->.
  destruct (hkey_eq_dec h h); [reflexivity | contradiction].
Qed.

Lemma entry_has_other h h' k v :
  hash_key k = Some h' -> h <> h' -> entry_has h (k, v) = false.
Proof.
  unfold entry_has; cbn. intros -> Hne.
  destruct (hkey_eq_dec h h'); [contradiction | reflexivity].
Qed.

Lemma entry_has_eq h h' kv :
  entry_has h kv = true -> entry_has h' kv = true -> h = h'.
Proof.
  unfold entry_has. destruct (hash_key (fst kv)) as [x |]; [| discriminate].
  destruct (hkey_eq_dec h x), (hkey_eq_dec h' x); congruence.
Qed.

Lemma entry_has_value h kv v :
  entry_has h (fst kv, v) = entry_has h kv.
Proof. reflexivity. Qed.

Lemma dict_get_set_same h k v d :
  hash_key k = Some h -> dict_get h (dict_set h k v d) = Some v.
Proof.
  intros Hk. induction d as [| kv d IH]; cbn.
  - now rewrite (entry_has_key _ _ _ Hk).
  - destruct (entry_has h kv) eqn:E; cbn.
    + rewrite entry_has_value, E. reflexivity.
    + now rewrite E.
Qed.

Lemma dict_get_set_other h h' k v d :
  hash_key k = Some h' -> h <> h' ->
  dict_get h (dict_set h' k v d) = dict_get h d.
Proof.
  intros Hk Hne. induction d as [| kv d IH]; cbn.
  - now rewrite (entry_has_other _ _ _ _ Hk Hne).
  - destruct (entry_has h' kv) eqn:E'; cbn.
    + rewrite entry_has_value.
      destruct (entry_has h kv) eqn:E; [| reflexivity].
      elim Hne. eapply entry_has_eq; eassumption.
    + destruct (entry_has h kv); [reflexivity | exact IH].
Qed.

(** Storing the value a key already has changes nothing. *)
Lemma dict_set_same_value h k v d :
  dict_get h d = Some v -> dict_set h k v d = d.
Proof.
  induction d as [| [k0 v0] d IH]; cbn; [discriminate |].
  destruct (entry_has h (k0, v0)); cbn.
  - intros [= ->]. reflexivity.
  - intros H. now rewrite IH.
Qed.

Lemma getitem_dict d (k : string) :
  getitem (PDict d) k
  = match dict_get (HStr k) d with
    | Some v => Ok v
    | None => Raise (KeyError (PStr k))
    end.
Proof. reflexivity. Qed.

Lemma setitem_dict d (k : string) v :
  setitem (PDict d) k v = Ok (PDict (dict_set (HStr k) k v d)).
Proof. reflexivity. Qed.

Lemma str_in_dict d (k : string) :
  str_in k (PDict d)
  = Ok (match dict_get (HStr k) d with Some _ => true | None => false end).
Proof. reflexivity. Qed.

(** A subscript with a string key succeeds on dicts only. *)
Lemma getitem_str_inv o (k : string) v :
  getitem o k = Ok v -> exists d, o = PDict d /\ dict_get (HStr k) d = Some v.
Proof.
  unfold getitem. destruct o; cbn; try discriminate.
  destruct (dict_get (HStr k) d) eqn:E; [| discriminate].
  intros [= ->]. eauto.
Qed.

(** ** Sequence indices *)

Lemma norm_index_inside n z :
  0 <= z < Z.of_nat n -> norm_index n z = Some (Z.to_nat z).
Proof.
  intros H. unfold norm_index.
  destruct (Z.ltb_spec z 0); [lia |].
  destruct (Z.ltb_spec z 0), (Z.leb_spec (Z.of_nat n) z); cbn; try lia.
  reflexivity.
Qed.

Lemma norm_index_from_end n z :
  - Z.of_nat n <= z < 0 -> norm_index n z = Some (Z.to_nat (z + Z.of_nat n)).
Proof.
  intros H. unfold norm_index.
  destruct (Z.ltb_spec z 0); [| lia].
  destruct (Z.ltb_spec (z + Z.of_nat n) 0),
           (Z.leb_spec (Z.of_nat n) (z + Z.of_nat n)); cbn; try lia.
  reflexivity.
Qed.

Lemma norm_index_outside n z :
  z < - Z.of_nat n \/ Z.of_nat n <= z -> norm_index n z = None.
Proof.
  intros H. unfold norm_index.
  destruct (Z.ltb_spec z 0).
  - destruct (Z.ltb_spec (z + Z.of_nat n) 0); [reflexivity | lia].
  - destruct (Z.ltb_spec z 0); [lia |].
    destruct (Z.leb_spec (Z.of_nat n) z); [reflexivity | lia].
Qed.

(** ** The derived door state *)

Lemma current_state_run w d ds enum value s :
  garage_state (self w) = PDict d ->
  dict_get (HStr "doorState") d = Some (PDict ds) ->
  dict_get (HStr "enum") ds = Some enum ->
  dict_get (HStr "value") ds = Some value ->
  getitem enum value = Ok s ->
  current_state w
  = (Ok s, with_self (set_garage_state (with_door_state s d ds)) w).
Proof.
  intros Hg Hds He Hv Hs.
  unfold current_state, store_garage_state, update_at; cbn.
  rewrite Hg, str_in_dict, Hds; cbn.
  rewrite !getitem_dict, Hds; cbn.
  rewrite !getitem_dict, He; cbn. rewrite Hv; cbn. rewrite Hs; cbn.
  rewrite Hg. rewrite !getitem_dict, Hds; cbn. rewrite !setitem_dict; cbn.
  rewrite !getitem_dict.
  rewrite dict_get_set_same by reflexivity; cbn.
  rewrite getitem_dict, dict_get_set_same by reflexivity.
  reflexivity.
Qed.

Lemma current_state_raises w d ds enum value e :
  garage_state (self w) = PDict d ->
  dict_get (HStr "doorState") d = Some (PDict ds) ->
  dict_get (HStr "enum") ds = Some enum ->
  dict_get (HStr "value") ds = Some value ->
  getitem enum value = Raise e ->
  current_state w = (Raise e, w).
Proof.
  intros Hg Hds He Hv Hs.
  unfold current_state, store_garage_state, update_at; cbn.
  rewrite Hg, str_in_dict, Hds; cbn.
  rewrite !getitem_dict, Hds; cbn.
  rewrite !getitem_dict, He; cbn. rewrite Hv; cbn. rewrite Hs; cbn.
  reflexivity.
Qed.

(** C2, as amended.  With the integer [v] as value of the door-state
    attribute and a list as its enum table: if [v] is a valid index
    ([0 <= v < len]) the derived state is [enumTable[v]], and the read
    stores it in the [state] field of the attribute; a negative [v] down to
    [-len] counts from the end of the table, as Python's subscript does;
    for any other [v] the read raises [IndexError] and leaves the model as
    it was. *)
Theorem current_state_by_index w d ds enum v :
  garage_state (self w) = PDict d ->
  dict_get (HStr "doorState") d = Some (PDict ds) ->
  dict_get (HStr "enum") ds = Some (PList enum) ->
  dict_get (HStr "value") ds = Some (PInt v) ->
  let n := Z.of_nat (List.length enum) in
  (0 <= v < n ->
   let s := nth (Z.to_nat v) enum PNone in
   current_state w
   = (Ok s, with_self (set_garage_state (with_door_state s d ds)) w)) /\
  (- n <= v < 0 ->
   let s := nth (Z.to_nat (v + n)) enum PNone in
   current_state w
   = (Ok s, with_self (set_garage_state (with_door_state s d ds)) w)) /\
  (v < - n \/ n <= v -> current_state w = (Raise IndexError, w)).
Proof.
  intros Hg Hds He Hv n. repeat split; intros H.
  - eapply current_state_run; eauto.
    unfold getitem; cbn. now rewrite norm_index_inside.
  - eapply current_state_run; eauto.
    unfold getitem; cbn. now rewrite norm_index_from_end.
  - eapply current_state_raises; eauto.
    unfold getitem; cbn. now rewrite norm_index_outside.
Qed.

Lemma current_state_by_index_witness :
  fst (current_state (door_at (PInt 3) (PInt 90))) = Ok (PStr "Opening") /\
  fst (current_state (door_at (PInt (-1)) (PInt 90))) = Ok (PStr "Fault") /\
  current_state (door_at (PInt 5) (PInt 90))
  = (Raise IndexError, door_at (PInt 5) (PInt 90)).
Proof.
  pose proof (fun v =>
    current_state_by_index (door_at (PInt v) (PInt 90)) _ _ _ v
      eq_refl eq_refl eq_refl eq_refl) as H.
  split; [| split].
  - destruct (H 3) as [H3 _]. rewrite H3; [reflexivity | cbn; lia].
  - destruct (H (-1)) as [_ [H1 _]]. rewrite H1; [reflexivity | cbn; lia].
  - destruct (H 5) as [_ [_ H5]]. apply H5. cbn; lia.
Defined.

(** C2, as stated, fails when the value is past the end of the table: with
    the five-entry table and the value 5, reading the derived state raises
    [IndexError]. *)
Lemma current_state_crashes_out_of_range :
  ~ reads_without_crash (door_at (PInt 5) (PInt 90)).
Proof.
  intros [s H]. vm_compute in H. discriminate H.
Qed.

(** A read of the derived state that returns has either found no
    [doorState] group and changed nothing, or has gone through the enum
    table of a [doorState] dict. *)
Lemma current_state_inv w s w1 :
  current_state w = (Ok s, w1) ->
  w1 = w \/
  exists d ds enum value,
    garage_state (self w) = PDict d /\
    dict_get (HStr "doorState") d = Some (PDict ds) /\
    dict_get (HStr "enum") ds = Some enum /\
    dict_get (HStr "value") ds = Some value /\
    getitem enum value = Ok s /\
    w1 = with_self (set_garage_state (with_door_state s d ds)) w.
Proof.
  intros H. unfold current_state in H; cbn in H.
  destruct (str_in "doorState" (garage_state (self w))) as [[|] | |] eqn:Hin;
    cbn in H; try discriminate H.
  2: { left. now inversion H. }
  destruct (getitem (garage_state (self w)) "doorState") as [dsv | |] eqn:Hds;
    cbn in H; try discriminate H.
  destruct (getitem dsv "enum") as [enum | |] eqn:He; cbn in H;
    try discriminate H.
  destruct (getitem dsv "value") as [value | |] eqn:Hv; cbn in H;
    try discriminate H.
  destruct (getitem enum value) as [s0 | |] eqn:Hs; cbn in H;
    try discriminate H.
  apply getitem_str_inv in Hds. destruct Hds as [d [Hg Hds]].
  apply getitem_str_inv in He. destruct He as [ds [-> He]].
  apply getitem_str_inv in Hv. destruct Hv as [ds' [[= <-] Hv]].
  right. exists d, ds, enum, value.
  unfold update_at in H. rewrite Hg, getitem_dict, Hds in H.
  rewrite !setitem_dict in H. cbn in H.
  rewrite getitem_dict, dict_get_set_same in H by reflexivity.
  rewrite getitem_dict, dict_get_set_same in H by reflexivity.
  inversion H; subst. auto 10.
Qed.

Lemma with_self_same w g :
  garage_state (self w) = g -> with_self (set_garage_state g) w = w.
Proof. intros <-. destruct w as [[] ? ? ?]; reflexivity. Qed.

(** Reading the derived state a second time gives the same state and
    changes nothing more. *)
Lemma current_state_again w s w1 :
  current_state w = (Ok s, w1) -> current_state w1 = (Ok s, w1).
Proof.
  intros H. destruct (current_state_inv _ _ _ H) as
      [-> | (d & ds & enum & value & Hg & Hds & He & Hv & Hs & ->)];
    [exact H |].
  set (ds' := dict_set (HStr "state") "state" s ds).
  set (d' := dict_set (HStr "doorState") "doorState" (PDict ds') d).
  assert (Hds' : dict_get (HStr "doorState") d' = Some (PDict ds'))
    by (apply dict_get_set_same; reflexivity).
  erewrite (current_state_run _ d' ds' enum value s); eauto.
  - f_equal. apply with_self_same. cbn. unfold with_door_state. fold ds' d'.
    f_equal. symmetry. rewrite (dict_set_same_value _ _ _ ds').
    + now apply dict_set_same_value.
    + apply dict_get_set_same; reflexivity.
  - unfold ds'. rewrite dict_get_set_other; [exact He | reflexivity | discriminate].
  - unfold ds'. rewrite dict_get_set_other; [exact Hv | reflexivity | discriminate].
Qed.

(** ** The cover position *)

(** Reading the derived state leaves the door position alone. *)
Lemma current_state_keeps_position w s w1 :
  current_state w = (Ok s, w1) ->
  position_field (garage_state (self w1)) = position_field (garage_state (self w)).
Proof.
  intros H. destruct (current_state_inv _ _ _ H) as
      [-> | (d & ds & enum & value & Hg & Hds & He & Hv & Hs & ->)];
    [reflexivity |].
  cbn. rewrite Hg. unfold position_field, with_door_state.
  rewrite !getitem_dict.
  rewrite dict_get_set_other; [reflexivity | reflexivity | discriminate].
Qed.

(** A read of the derived state that raises has changed nothing. *)
Lemma current_state_raise_same w e w' :
  current_state w = (Raise e, w') -> w' = w.
Proof.
  intros H. unfold current_state in H; cbn in H.
  destruct (str_in "doorState" (garage_state (self w))) as [[|] | |] eqn:Hin;
    cbn in H; try (now inversion H).
  destruct (getitem (garage_state (self w)) "doorState") as [dsv | |] eqn:Hds;
    cbn in H; try (now inversion H).
  destruct (getitem dsv "enum") as [enum | |] eqn:He; cbn in H;
    try (now inversion H).
  destruct (getitem dsv "value") as [value | |] eqn:Hv; cbn in H;
    try (now inversion H).
  destruct (getitem enum value) as [s0 | |] eqn:Hs; cbn in H;
    try (now inversion H).
  apply getitem_str_inv in Hds. destruct Hds as [d [Hg Hds]].
  apply getitem_str_inv in He. destruct He as [ds [-> He]].
  unfold update_at in H. rewrite Hg, getitem_dict, Hds in H.
  rewrite !setitem_dict in H. cbn in H.
  rewrite getitem_dict, dict_get_set_same in H by reflexivity.
  rewrite getitem_dict, dict_get_set_same in H by reflexivity.
  discriminate H.
Qed.

Lemma getitem_not_Fuel o k : getitem o k <> Fuel.
Proof.
  unfold getitem. destruct o; try discriminate.
  - destruct (as_index k); [| discriminate].
    destruct (norm_index _ _); discriminate.
  - destruct (as_index k); [| discriminate].
    destruct (norm_index _ _); discriminate.
  - destruct (hash_key k); [| discriminate].
    destruct (dict_get _ _); discriminate.
Qed.

(** Reading the derived state returns or raises, and leaves the world as
    it was when it raises. *)
Lemma current_state_outcome w :
  (exists s w1, current_state w = (Ok s, w1)) \/
  (exists e, current_state w = (Raise e, w)).
Proof.
  destruct (current_state w) as [[s | e |] w1] eqn:E.
  - left. eauto.
  - right. exists e. now rewrite (current_state_raise_same _ _ _ E).
  - exfalso. unfold current_state in E; cbn in E.
    destruct (str_in "doorState" (garage_state (self w))) as [[|] | |] eqn:Hin;
      cbn in E; try discriminate E.
    + destruct (getitem (garage_state (self w)) "doorState") as [dsv | |] eqn:Hds;
        cbn in E; try discriminate E; [| now apply getitem_not_Fuel in Hds].
      destruct (getitem dsv "enum") as [enum | |] eqn:He; cbn in E;
        try discriminate E; [| now apply getitem_not_Fuel in He].
      destruct (getitem dsv "value") as [value | |] eqn:Hv; cbn in E;
        try discriminate E; [| now apply getitem_not_Fuel in Hv].
      destruct (getitem enum value) as [s0 | |] eqn:Hs; cbn in E;
        try discriminate E; [| now apply getitem_not_Fuel in Hs].
      apply getitem_str_inv in Hds. destruct Hds as [d [Hg Hds]].
      apply getitem_str_inv in He. destruct He as [ds [-> He]].
      unfold update_at in E. rewrite Hg, getitem_dict, Hds in E.
      rewrite !setitem_dict in E. cbn in E.
      rewrite getitem_dict, dict_get_set_same in E by reflexivity.
      rewrite getitem_dict, dict_get_set_same in E by reflexivity.
      discriminate E.
    + destruct (garage_state (self w)); cbn in Hin; discriminate Hin.
Qed.

(** C9, as amended.  The cover position follows the derived door state
    where that state can be read, and only there.  When [current_state]
    returns [s]: the position is the sentinel [-1] if [s] is [Closed] and
    [100] if [s] is [Open]; for any other [s] it is whatever the field
    [garage_state["doorPosition"]["value"]] holds, or the exception the two
    subscripts raise when the field is absent; so the sentinel is reported
    for [Closed], and also for a state other than [Closed] and [Open] in
    which the field itself holds [-1].  When reading the derived state
    raises (the value of the door state is no index of its table, as the
    [None] of the default state model, or the group lacks a key), the
    accessor raises the same exception, reports no position and changes
    nothing.  Reading the derived state does one or the other. *)
Theorem cover_position_by_state w :
  (forall s w1,
      current_state w = (Ok s, w1) ->
      (s = PStr "Closed" -> current_cover_position w = (Ok (PInt (-1)), w1)) /\
      (s = PStr "Open" -> current_cover_position w = (Ok (PInt 100), w1)) /\
      (s <> PStr "Closed" -> s <> PStr "Open" ->
       current_cover_position w
       = (position_field (garage_state (self w)), w1)) /\
      (fst (current_cover_position w) = Ok (PInt (-1)) <->
       s = PStr "Closed" \/
       (s <> PStr "Open" /\
        position_field (garage_state (self w)) = Ok (PInt (-1))))) /\
  (forall e,
      fst (current_state w) = Raise e ->
      current_cover_position w = (Raise e, w)) /\
  ((exists s w1, current_state w = (Ok s, w1)) \/
   (exists e, current_state w = (Raise e, w))).
Proof.
  split; [| split; [| apply current_state_outcome]].
  - intros s w1 H. pose proof (current_state_again _ _ _ H) as H2.
    pose proof (current_state_keeps_position _ _ _ H) as Hp.
    assert (Hc : s = PStr "Closed" ->
                 current_cover_position w = (Ok (PInt (-1)), w1)).
    { intros ->. unfold current_cover_position; cbn. rewrite H; cbn.
      reflexivity. }
    assert (Ho : s = PStr "Open" ->
                 current_cover_position w = (Ok (PInt 100), w1)).
    { intros ->. unfold current_cover_position; cbn. rewrite H; cbn.
      rewrite H2. reflexivity. }
    assert (Hn : s <> PStr "Closed" -> s <> PStr "Open" ->
                 current_cover_position w
                 = (position_field (garage_state (self w)), w1)).
    { intros Nc No. unfold current_cover_position; cbn. rewrite H; cbn.
      assert (Ec : eq_str s "Closed" = false).
      { destruct s; try reflexivity. cbn. apply String.eqb_neq. congruence. }
      assert (Eo : eq_str s "Open" = false).
      { destruct s; try reflexivity. cbn. apply String.eqb_neq. congruence. }
      rewrite Ec; cbn. rewrite H2; cbn. rewrite Eo; cbn. rewrite <- Hp.
      unfold position_field.
      destruct (getitem (garage_state (self w1)) "doorPosition"); reflexivity. }
    split; [exact Hc |]. split; [exact Ho |]. split; [exact Hn |].
    assert (Dc : {s = PStr "Closed"} + {s <> PStr "Closed"}).
    { destruct s; try (right; discriminate).
      destruct (string_dec s "Closed") as [-> | N];
        [left; reflexivity | right; congruence]. }
    assert (Do : {s = PStr "Open"} + {s <> PStr "Open"}).
    { destruct s; try (right; discriminate).
      destruct (string_dec s "Open") as [-> | N];
        [left; reflexivity | right; congruence]. }
    destruct Dc as [Ec | Nc].
    + rewrite (Hc Ec). cbn [fst]. split; [intros _; now left | reflexivity].
    + destruct Do as [Eo | No].
      * rewrite (Ho Eo). cbn [fst]. split; [discriminate |].
        intros [E | [N _]]; [now elim Nc | now elim N].
      * rewrite (Hn Nc No). cbn [fst]. split.
        -- intros E. right. split; assumption.
        -- intros [E | [_ E]]; [now elim Nc | exact E].
  - intros e H. destruct (current_state_outcome w) as [(s & w1 & E) | (e' & E)].
    + rewrite E in H. discriminate H.
    + rewrite E in H. injection H as ->.
      unfold current_cover_position; cbn. rewrite E. reflexivity.
Qed.

Lemma cover_position_by_state_witness :
  fst (current_cover_position (door_at (PInt 0) (PInt 90))) = Ok (PInt (-1)) /\
  fst (current_cover_position (door_at (PInt 1) (PInt 90))) = Ok (PInt 100) /\
  fst (current_cover_position (door_at (PInt 3) (PInt 90))) = Ok (PInt 90) /\
  fst (current_cover_position (door_at (PInt 5) (PInt 90))) = Raise IndexError.
Proof.
  split; [| split; [| split]].
  - destruct (proj1 (cover_position_by_state (door_at (PInt 0) (PInt 90)))
                _ _ eq_refl) as (E & _).
    rewrite E; reflexivity.
  - destruct (proj1 (cover_position_by_state (door_at (PInt 1) (PInt 90)))
                _ _ eq_refl) as (_ & E & _).
    rewrite E; reflexivity.
  - destruct (proj1 (cover_position_by_state (door_at (PInt 3) (PInt 90)))
                _ _ eq_refl) as (_ & _ & E & _).
    rewrite E; [reflexivity | discriminate | discriminate].
  - exact (f_equal fst
             (proj1 (proj2 (cover_position_by_state (door_at (PInt 5) (PInt 90))))
                IndexError eq_refl)).
Defined.

(** C9, as stated, fails in two ways.  It does not hold for every state of
    the device: with the value 5 in the door state, which is no index of
    the table of five states, reading the derived state raises [IndexError]
    and so does the accessor; in the default state model, where the value
    is [None], it is [TypeError]; and in a state [Opening] without the door
    position group it is [KeyError].  And the sentinel does not tell
    [Closed] from a position: in state [Closing] with a door position of
    [-1] the accessor reports [-1] too. *)
Lemma cover_position_not_as_specified :
  (~ position_as_specified (door_at (PInt 5) (PInt 90)) /\
   fst (current_cover_position (door_at (PInt 5) (PInt 90)))
   = Raise IndexError) /\
  (~ position_as_specified (boot (new_ctrl "dev1" default_garage_state) quiet) /\
   fst (current_cover_position
          (boot (new_ctrl "dev1" default_garage_state) quiet))
   = Raise TypeError) /\
  (~ position_as_specified (door_without_position (PInt 3)) /\
   fst (current_state (door_without_position (PInt 3))) = Ok (PStr "Opening") /\
   fst (current_cover_position (door_without_position (PInt 3)))
   = Raise (KeyError (PStr "doorPosition"))) /\
  (~ position_as_specified (door_at (PInt 2) (PInt (-1))) /\
   fst (current_state (door_at (PInt 2) (PInt (-1)))) = Ok (PStr "Closing") /\
   fst (current_cover_position (door_at (PInt 2) (PInt (-1)))) = Ok (PInt (-1))).
Proof.
  split; [| split; [| split]].
  - split; [| reflexivity].
    intros (s & p & Hs & _). vm_compute in Hs. discriminate Hs.
  - split; [| reflexivity].
    intros (s & p & Hs & _). vm_compute in Hs. discriminate Hs.
  - split; [| split; reflexivity].
    intros (s & p & _ & Hp & _). vm_compute in Hp. discriminate Hp.
  - split; [| split; reflexivity].
    intros (s & p & Hs & Hp & _ & _ & _ & Hc).
    vm_compute in Hs, Hp. injection Hs as <-. injection Hp as <-.
    discriminate (Hc eq_refl).
Qed.

(** ** The merge engine writes only where the update points *)

(** Only the string [s] hashes as the string [s]. *)
Lemma hash_key_str k (s : string) : hash_key k = Some (HStr s) -> k = PStr s.
Proof.
  destruct k; cbn; try discriminate.
  - destruct f; cbn; try discriminate.
    destruct (odd_part m e) as [m' e']. destruct (0 <=? e'); discriminate.
  - now intros [= ->].
Qed.

Lemma setitem_other g k' v g' (k : string) :
  setitem g k' v = Ok g' -> other_key k k' = true ->
  getitem g' k = getitem g k.
Proof.
  unfold setitem, other_key. intros H Hk. destruct g; try discriminate H.
  - destruct (as_index k'); [| discriminate H].
    destruct (norm_index _ _); [| discriminate H].
    injection H as <-. reflexivity.
  - destruct (hash_key k') as [h |] eqn:E; [| discriminate H].
    injection H as <-. rewrite !getitem_dict.
    destruct (hkey_eq_dec (HStr k) h) as [| Hne]; [discriminate Hk |].
    now rewrite (dict_get_set_other _ _ _ _ _ E Hne).
Qed.

Lemma list_set_nth (l : list pyval) i v :
  (i < List.length l)%nat -> nth i (list_set l i v) PNone = v.
Proof.
  revert i. induction l as [| x l IH]; intros [| i] H; cbn in *;
    try lia; [reflexivity | apply IH; lia].
Qed.

Lemma list_set_length (l : list pyval) i v :
  List.length (list_set l i v) = List.length l.
Proof.
  revert i. induction l as [| x l IH]; intros [| i]; cbn; auto.
Qed.

Lemma norm_index_lt n z i : norm_index n z = Some i -> (i < n)%nat.
Proof.
  unfold norm_index.
  destruct (((if z <? 0 then z + Z.of_nat n else z) <? 0)
            || (Z.of_nat n <=? (if z <? 0 then z + Z.of_nat n else z))) eqn:E;
    [discriminate |].
  intros [= <-]. apply orb_false_elim in E. destruct E as [E1 E2].
  apply Z.ltb_ge in E1. apply Z.leb_gt in E2. lia.
Qed.

(** After [g[k] = v], [g[k]] is [v]. *)
Lemma getitem_setitem g k v g' :
  setitem g k v = Ok g' -> getitem g' k = Ok v.
Proof.
  unfold setitem, getitem. intros H. destruct g; try discriminate H.
  - destruct (as_index k); [| discriminate H].
    destruct (norm_index _ _) as [i |] eqn:E; [| discriminate H].
    injection H as <-. rewrite list_set_length, E.
    now rewrite list_set_nth by (eapply norm_index_lt; eassumption).
  - destruct (hash_key k) as [h |] eqn:E; [| discriminate H].
    injection H as <-. now rewrite (dict_get_set_same _ _ _ _ E).
Qed.

Lemma update_at_inv g k f g' :
  update_at g k f = Ok g' ->
  exists grp grp',
    getitem g k = Ok grp /\ f grp = Ok grp' /\ setitem g k grp' = Ok g'.
Proof.
  unfold update_at. intros H.
  destruct (getitem g k) as [grp | |]; try discriminate H.
  destruct (f grp) as [grp' | |] eqn:E; try discriminate H.
  eauto.
Qed.

(** A store leaves every read that parts ways with it as it was. *)
Lemma store_at_apart p : forall g v g' q,
  store_at g p v = Ok g' -> apart q p = true ->
  at_path g' q = at_path g q.
Proof.
  induction p as [| k' p IH]; intros g v g' q H Hq.
  - destruct q; discriminate Hq.
  - destruct q as [| k q]; [discriminate Hq |].
    cbn in Hq. destruct p as [| k2 p].
    + cbn in H. destruct q; cbn in Hq; rewrite orb_false_r in Hq;
        cbn; now rewrite (setitem_other _ _ _ _ _ H Hq).
    + change (update_at g k' (fun grp => store_at grp (k2 :: p) v) = Ok g') in H.
      apply update_at_inv in H. destruct H as (grp & grp' & Hg & Hs & Hset).
      destruct (other_key k k') eqn:Hk.
      * cbn. now rewrite (setitem_other _ _ _ _ _ Hset Hk).
      * cbn in Hq.
        assert (Ek : k' = PStr k).
        { unfold other_key in Hk.
          destruct (hash_key k') as [h |] eqn:E; [| discriminate Hk].
          destruct (hkey_eq_dec (HStr k) h) as [<- |]; [| discriminate Hk].
          now apply hash_key_str. }
        subst k'.
        cbn. rewrite Hg, (getitem_setitem _ _ _ _ Hset).
        eapply IH; eassumption.
Qed.

Lemma same_at_refl q w : same_at q w w.
Proof. reflexivity. Qed.

Lemma same_at_trans q a b c : same_at q a b -> same_at q b c -> same_at q a c.
Proof. unfold same_at; congruence. Qed.

#[local] Hint Resolve same_at_refl same_at_trans : core.

Lemma log_same_at q lv fmt args : keeps (same_at q) (log lv fmt args).
Proof. intros w; reflexivity. Qed.

Lemma store_same_at q p v :
  apart q p = true ->
  keeps (same_at q) (store_garage_state (fun g => store_at g p v)).
Proof.
  intros Hq w. unfold store_garage_state, same_at; cbn.
  destruct (store_at (garage_state (self w)) p v) as [g' | |] eqn:E; cbn;
    try reflexivity.
  eapply store_at_apart; eassumption.
Qed.

Lemma write_paths_In update ks key g u items item :
  keys update = Ok ks -> In key ks -> skipped key = false ->
  group_path key = Some g -> getitem update key = Ok u ->
  iter u = Ok items -> In item items ->
  In (g ++ [item]) (write_paths update).
Proof.
  intros Hks Hkey Hskip Hg Hu Hit Hitem. unfold write_paths. rewrite Hks.
  apply in_flat_map. exists key. split; [exact Hkey |].
  rewrite Hskip, Hg, Hu, Hit.
  now apply (in_map (fun i => g ++ [i])).
Qed.

(** C8.  Whatever the update and whether the merge completes or raises on
    the way, the state model reads the same afterwards along every path
    of keys that parts ways with all the leaf fields the update mentions:
    a group no entry of the update names ([doorPosition] when the update
    names [doorState], [garageLight.lightTimer] when it names
    [garageLight.lightState]) keeps its value, and inside a named group so
    does every field the entry does not mention. *)
Theorem parse_device_update_isolated w update q :
  forallb (apart q) (write_paths update) = true ->
  at_path (garage_state (self (snd (parse_device_update update w)))) q
  = at_path (garage_state (self w)) q.
Proof.
  intros Hall. rewrite forallb_forall in Hall.
  change (same_at q w (snd (parse_device_update update w))).
  revert w. change (keeps (same_at q) (parse_device_update update)).
  unfold parse_device_update.
  apply keeps_bind; eauto; [apply keeps_get_self; eauto | intros c].
  apply keeps_bind_lift; eauto. intros var_name _.
  destruct (negb (eq_str var_name (device_id c))).
  { apply keeps_bind_lift; eauto. intros ? _.
    apply keeps_bind; eauto; [apply log_same_at | intros _].
    apply keeps_ret; eauto. }
  apply keeps_bind_lift; eauto. intros ks Hks.
  apply keeps_for_In; eauto. intros key Hkey.
  fold (skipped key). destruct (skipped key) eqn:Hskip;
    [apply keeps_ret; eauto |].
  apply keeps_bind_lift; eauto. intros u Hu.
  apply keeps_bind; eauto; [apply log_same_at | intros _].
  apply keeps_bind_lift; eauto. intros m Hm.
  destruct (key_mentions "garageDoor" key) eqn:Hdoor.
  - apply keeps_bind_lift; eauto. intros u' Hu'.
    apply keeps_bind_lift; eauto. intros items Hitems.
    apply keeps_for_In; eauto. intros item Hitem.
    apply keeps_bind_lift; eauto. intros u2 _.
    apply keeps_bind_lift; eauto. intros v _.
    apply (store_same_at q [PStr m; item] v).
    apply Hall.
    apply (write_paths_In update ks key [PStr m] u' items item); auto.
    unfold group_path. now rewrite Hm, Hdoor.
  - destruct (key_mentions "garageLight" key) eqn:Hlight.
    + apply keeps_bind_lift; eauto. intros u' Hu'.
      apply keeps_bind_lift; eauto. intros items Hitems.
      apply keeps_for_In; eauto. intros item Hitem.
      apply keeps_bind_lift; eauto. intros u2 _.
      apply keeps_bind_lift; eauto. intros v _.
      apply (store_same_at q [PStr "garageLight"; PStr m; item] v).
      apply Hall.
      apply (write_paths_In update ks key [PStr "garageLight"; PStr m]
               u' items item); auto.
      unfold group_path. now rewrite Hm, Hdoor, Hlight.
    + apply log_same_at.
Qed.

Example door_and_light_merged :
  let g := garage_state (self (snd (parse_device_update door_and_light_params
                                      watching_dev1))) in
  at_path g ["doorState"; "value"] = Ok (PInt 1) /\
  at_path g ["garageLight"; "lightState"; "value"] = Ok (PBool true).
Proof. split; reflexivity. Qed.

Lemma parse_device_update_isolated_witness :
  let g := garage_state (self watching_dev1) in
  let g' := garage_state (self (snd (parse_device_update door_and_light_params
                                       watching_dev1))) in
  at_path g' ["doorPosition"] = at_path g ["doorPosition"] /\
  at_path g' ["doorState"; "enum"] = at_path g ["doorState"; "enum"] /\
  at_path g' ["garageLight"; "lightTimer"] = at_path g ["garageLight"; "lightTimer"].
Proof.
  split; [| split].
  - exact (parse_device_update_isolated watching_dev1 door_and_light_params
             ["doorPosition"] eq_refl).
  - exact (parse_device_update_isolated watching_dev1 door_and_light_params
             ["doorState"; "enum"] eq_refl).
  - exact (parse_device_update_isolated watching_dev1 door_and_light_params
             ["garageLight"; "lightTimer"] eq_refl).
Defined.

(** ** Sending over a stalled or closed link *)

Lemma reconnects_app l1 l2 :
  reconnects (l1 ++ l2) = (reconnects l1 + reconnects l2)%nat.
Proof. unfold reconnects. now rewrite filter_app, length_app. Qed.

Lemma since_with_out l w : since w (with_out l w) = l.
Proof.
  unfold since; cbn. rewrite skipn_app, skipn_all, Nat.sub_diag. reflexivity.
Qed.

Lemma for_each_cons {I A} (i : I) l (body : I -> M (option A)) w :
  for_each (i :: l) body w
  = match body i w with
    | (Ok (Some a), w') => (Ok (Some a), w')
    | (Ok None, w') => for_each l body w'
    | (Raise e, w') => (Raise e, w')
    | (Fuel, w') => (Fuel, w')
    end.
Proof. cbn. destruct (body i w) as [[[a |] | e |] w']; reflexivity. Qed.

(** A round of the send loop on an open socket whose send goes through. *)
Lemma publish_attempt_delivers connect payload attempt w h rest :
  socket_state (self w) = SOCK_CONNECTED ->
  ws (self w) = Some h ->
  send (env w) = SendOk :: rest ->
  publish_attempt connect payload attempt w
  = (Ok (Some true), delivered payload h attempt rest w).
Proof.
  intros Hs Hw He. unfold publish_attempt; cbn. rewrite Hs; cbn.
  unfold ws_send; cbn. rewrite Hw; cbn. rewrite He; cbn. reflexivity.
Qed.

(** A round of the send loop on a socket that is not open: a reconnect
    attempt, whose result is not looked at. *)
Lemma publish_attempt_reconnects connect payload attempt w :
  socket_state (self w) <> SOCK_CONNECTED ->
  publish_attempt connect payload attempt w
  = (_ <- connect ;; ret None)
      (with_out [reconnecting (socket_state (self w))] w).
Proof.
  intros Hs. unfold publish_attempt; cbn.
  destruct (socket_state (self w)); [contradiction | reflexivity | reflexivity].
Qed.

(** *** The record of events only grows *)

Lemma extends_refl w : extends w w.
Proof. exists []. now rewrite app_nil_r. Qed.

Lemma extends_trans a b c : extends a b -> extends b c -> extends a c.
Proof.
  intros [l1 H1] [l2 H2]. exists (l1 ++ l2). now rewrite H2, H1, app_assoc.
Qed.

#[local] Hint Resolve extends_refl extends_trans : core.

Lemma extends_since w w' : extends w w' -> out w' = out w ++ since w w'.
Proof.
  intros [l H]. unfold since. rewrite H at 2.
  now rewrite skipn_app, skipn_all, Nat.sub_diag.
Qed.

Lemma emit_extends e : keeps extends (emit e).
Proof. intros w. now exists [e]. Qed.

Lemma log_extends lv fmt args : keeps extends (log lv fmt args).
Proof. apply emit_extends. Qed.

Lemma modify_self_extends f : keeps extends (modify_self f).
Proof. intros w. exists []. cbn. now rewrite app_nil_r. Qed.

Lemma store_garage_state_extends f : keeps extends (store_garage_state f).
Proof.
  intros w. unfold store_garage_state; cbn.
  destruct (f (garage_state (self w))); exists []; cbn; now rewrite app_nil_r.
Qed.

Ltac extends_steps_with tac :=
  repeat first
    [ apply call_subscriber_keeps
    | tac
    | apply log_extends
    | apply emit_extends
    | apply modify_self_extends
    | apply store_garage_state_extends
    | keeps_step
    | match goal with
      | |- keeps _ (if ?b then _ else _) => destruct b
      | |- keeps _ (match ?x with _ => _ end) => destruct x
      | |- keeps extends (fun w => match ?f (env w) with _ => _ end) =>
          let w := fresh in
          intros w; destruct (f (env w)); exists []; cbn; now rewrite app_nil_r
      end ].

Ltac extends_steps := extends_steps_with fail.

Lemma _call_subscriber_extends : keeps extends _call_subscriber.
Proof. unfold _call_subscriber. extends_steps. Qed.

Lemma parse_device_update_extends update :
  keeps extends (parse_device_update update).
Proof. unfold parse_device_update. extends_steps. Qed.

Lemma on_message_extends msg : keeps extends (on_message msg).
Proof.
  unfold on_message.
  extends_steps_with
    ltac:(first [ apply parse_device_update_extends
                | apply _call_subscriber_extends ]).
Qed.

Lemma handler_extends cb : keeps extends (handler cb).
Proof.
  destruct cb; cbn [handler];
    [ unfold on_open | unfold on_close | unfold on_error
    | apply on_message_extends | unfold on_pong, raise ];
    extends_steps.
Qed.

Lemma dispatch_extends cb : keeps extends (dispatch cb).
Proof.
  intros w. unfold dispatch.
  pose proof (handler_extends cb w) as H.
  destruct (handler cb w) as [[[] | e |] w1]; cbn in *; auto.
  destruct (reports (env w1)); auto.
  eapply extends_trans; [exact H |].
  assert (K : keeps extends (on_error (PStr (exn_name e))))
    by (unfold on_error; extends_steps).
  apply K.
Qed.

Lemma asyncio_sleep_extends : keeps extends asyncio_sleep.
Proof.
  unfold asyncio_sleep. extends_steps_with ltac:(apply dispatch_extends).
Qed.

Lemma send_http_extends url params method :
  keeps extends (send_http url params method).
Proof. unfold send_http, client_send. extends_steps. Qed.

Lemma login_extends : keeps extends login.
Proof. unfold login. extends_steps_with ltac:(apply send_http_extends). Qed.

Lemma open_wss_thread_extends : keeps extends open_wss_thread.
Proof.
  unfold open_wss_thread, check_credentials, next_spawn, new_ws.
  extends_steps_with
    ltac:(first
            [ apply login_extends
            | apply dispatch_extends
            | match goal with
              | |- keeps extends (fun w => (Ok (next_ws w), _)) =>
                  let w := fresh in intros w; now exists [WsNew (next_ws w)]
              end ]).
Qed.

Lemma ws_send_extends m : keeps extends (ws_send m).
Proof. unfold ws_send, raise. extends_steps. Qed.

Lemma connect_wss_with_extends publish :
  (forall m, keeps extends (publish m)) ->
  keeps extends (connect_wss_with publish).
Proof.
  intros Hp.
  unfold connect_wss_with, authenticate_with_server, subscribe_to_notifications.
  extends_steps_with
    ltac:(first
            [ apply Hp
            | apply open_wss_thread_extends
            | apply asyncio_sleep_extends
            | apply _call_subscriber_extends ]).
Qed.

Lemma publish_wss_extends fuel : forall m, keeps extends (publish_wss fuel m).
Proof.
  induction fuel as [| fuel IH]; intros m.
  - intros w. apply extends_refl.
  - cbn [publish_wss]. unfold publish_loop, publish_attempt, ws_close, raise.
    extends_steps_with
      ltac:(first
              [ apply ws_send_extends
              | apply connect_wss_with_extends; exact IH ]).
Qed.

Lemma connect_wss_extends fuel : keeps extends (connect_wss fuel).
Proof. apply connect_wss_with_extends, publish_wss_extends. Qed.

(** *** The watchdog and the send loop *)

(** With the counter at the threshold, [publish_wss] closes the socket
    before it enters its loop. *)
Lemma publish_wss_stalled fuel payload w h :
  5 <= sent_counter (self w) ->
  ws (self w) = Some h ->
  publish_wss (S fuel) payload w
  = bind (publish_loop (connect_wss fuel) payload) after_loop
         (forced_close payload h w).
Proof.
  intros Hc Hw. cbn [publish_wss]. unfold ws_close; cbn.
  apply Z.leb_le in Hc. rewrite Hc; cbn. rewrite Hw; cbn.
  unfold forced_close, with_out, with_self; cbn. rewrite <- !app_assoc; cbn.
  fold (connect_wss fuel).
  destruct (publish_loop (connect_wss fuel) payload _) as [[[b |] | e |] w'];
    reflexivity.
Qed.

(** Below the threshold it enters the loop at once. *)
Lemma publish_wss_fresh fuel payload w :
  sent_counter (self w) < 5 ->
  publish_wss (S fuel) payload w
  = bind (publish_loop (connect_wss fuel) payload) after_loop
         (with_out [Log DEBUG "RyobiApi (WSS) Publishing message : %s" [payload]]
                   w).
Proof.
  intros Hc. cbn [publish_wss]; cbn.
  apply Z.leb_gt in Hc. rewrite Hc; cbn.
  fold (connect_wss fuel).
  destruct (publish_loop (connect_wss fuel) payload _) as [[[b |] | e |] w'];
    reflexivity.
Qed.

(** The send of [publish_wss] with the counter at the threshold, when the
    first reconnect attempt succeeds. *)
Lemma publish_wss_reconnects_once fuel payload w h b w1 h1 rest :
  5 <= sent_counter (self w) ->
  ws (self w) = Some h ->
  let w0 := forced_close payload h w in
  let w0' := with_out [reconnecting SOCK_CLOSE] w0 in
  connect_wss fuel w0' = (Ok b, w1) ->
  socket_state (self w1) = SOCK_CONNECTED ->
  ws (self w1) = Some h1 ->
  send (env w1) = SendOk :: rest ->
  let w' := delivered payload h1 1 rest w1 in
  socket_state (self w0) = SOCK_CLOSE /\ sent_counter (self w0) = 0 /\
  since w w0 = [Log DEBUG "RyobiApi (WSS) Publishing message : %s" [payload];
                Log WARNING
                  "RyobiApi (WSS) Link is UP, but server has stopped answering request. "
                  [];
                WsClose h] /\
  publish_wss (S fuel) payload w = (Ok true, w') /\
  since w w'
  = since w w0 ++ [reconnecting SOCK_CLOSE] ++ since w0' w1
    ++ [WsSend h1 payload;
        Log DEBUG "RyobiApi (WSS) Msg published OK (%s)" [PInt 1]] /\
  reconnects (since w w') = S (reconnects (since w0' w1)).
Proof.
  intros Hc Hw w0 w0' Hconn Hopen Hws Hsend w'.
  assert (E0 : out w0 = out w ++
                 [Log DEBUG "RyobiApi (WSS) Publishing message : %s" [payload];
                  Log WARNING
                    "RyobiApi (WSS) Link is UP, but server has stopped answering request. "
                    [];
                  WsClose h]).
  { unfold w0, forced_close; cbn. now rewrite <- app_assoc. }
  assert (S0 : since w w0 =
                 [Log DEBUG "RyobiApi (WSS) Publishing message : %s" [payload];
                  Log WARNING
                    "RyobiApi (WSS) Link is UP, but server has stopped answering request. "
                    [];
                  WsClose h]).
  { unfold since. rewrite E0. now rewrite skipn_app, skipn_all, Nat.sub_diag. }
  assert (E1 : out w1 = out w0' ++ since w0' w1).
  { apply extends_since.
    pose proof (connect_wss_extends fuel w0') as X. now rewrite Hconn in X. }
  assert (S' : since w w'
               = since w w0 ++ [reconnecting SOCK_CLOSE] ++ since w0' w1
                 ++ [WsSend h1 payload;
                     Log DEBUG "RyobiApi (WSS) Msg published OK (%s)" [PInt 1]]).
  { rewrite S0. remember (since w0' w1) as during eqn:D. clear D.
    unfold since, w', delivered. cbn [out with_out with_self with_env].
    rewrite E1. unfold w0'. cbn [out with_out]. rewrite E0.
    rewrite <- !app_assoc.
    now rewrite skipn_app, skipn_all, Nat.sub_diag. }
  repeat split; try assumption.
  - rewrite (publish_wss_stalled _ _ _ _ Hc Hw). fold w0.
    unfold bind at 1, publish_loop. change (range N_RETRY) with [0; 1; 2; 3; 4].
    rewrite for_each_cons.
    rewrite publish_attempt_reconnects by (unfold w0, forced_close; cbn; discriminate).
    change (socket_state (self w0)) with SOCK_CLOSE. fold w0'.
    cbn [bind]. rewrite Hconn. cbn [ret].
    rewrite for_each_cons.
    rewrite (publish_attempt_delivers _ _ _ _ _ _ Hopen Hws Hsend).
    reflexivity.
  - rewrite S', S0. rewrite !reconnects_app. cbn. lia.
Qed.

(** A successful send raises the counter by one. *)
Lemma publish_wss_connected fuel payload w h rest :
  sent_counter (self w) < 5 ->
  socket_state (self w) = SOCK_CONNECTED ->
  ws (self w) = Some h ->
  send (env w) = SendOk :: rest ->
  let w' :=
    delivered payload h 0 rest
      (with_out [Log DEBUG "RyobiApi (WSS) Publishing message : %s" [payload]] w) in
  publish_wss (S fuel) payload w = (Ok true, w') /\
  sent_counter (self w') = sent_counter (self w) + 1.
Proof.
  intros Hc Hs Hw He w'. split; [| reflexivity].
  rewrite publish_wss_fresh by exact Hc.
  unfold bind at 1, publish_loop. change (range N_RETRY) with [0; 1; 2; 3; 4].
  rewrite for_each_cons.
  now rewrite (publish_attempt_delivers _ _ _ _ h rest).
Qed.


Example five_sends_reach_threshold :
  sent_counter (self (after_five_sends silent_server)) = 5 /\
  socket_state (self (after_five_sends silent_server)) = SOCK_CONNECTED /\
  socket_ops (out (after_five_sends silent_server))
  = repeat (WsSend 0 (open_frame (self connected_dev1))) 5.
Proof. vm_compute. repeat split. Qed.



(** *** Rounds of the send loop *)

Lemma publish_attempt_extends connect payload attempt :
  keeps extends connect ->
  keeps extends (publish_attempt connect payload attempt).
Proof.
  intros Hc. unfold publish_attempt, raise.
  extends_steps_with ltac:(first [ apply ws_send_extends | apply Hc ]).
Qed.

Lemma after_loop_extends r : keeps extends (after_loop r).
Proof. unfold after_loop. extends_steps. Qed.

Lemma sock_eqb_connected s :
  sock_eqb s SOCK_CONNECTED = true <-> s = SOCK_CONNECTED.
Proof. destruct s; cbn; split; congruence. Qed.

(** Rounds that all reconnect end the loop without a [return]. *)
Lemma loop_of_reconnect_rounds fuel payload l : forall w w5,
  reconnect_rounds fuel (List.length l) w = Some w5 ->
  for_each l (publish_attempt (connect_wss fuel) payload) w = (Ok None, w5).
Proof.
  induction l as [| i l IH]; intros w w5 H; cbn in H.
  - now injection H as <-.
  - destruct (sock_eqb (socket_state (self w)) SOCK_CONNECTED) eqn:E;
      [discriminate H |].
    rewrite for_each_cons, publish_attempt_reconnects
      by (intros C; apply sock_eqb_connected in C; congruence).
    cbn [bind].
    destruct (connect_wss fuel _) as [[b | e |] w1]; try discriminate H.
    cbn [ret]. now apply IH.
Qed.

(** A frame the loop delivers is delivered on a socket found open: either
    the loop started on one, or the round before was a reconnect attempt
    that left it open. *)
Lemma loop_delivery fuel payload l : forall w w',
  for_each l (publish_attempt (connect_wss fuel) payload) w
  = (Ok (Some true), w') ->
  (socket_state (self w) = SOCK_CONNECTED /\
   exists h attempt rest,
     ws (self w) = Some h /\ send (env w) = SendOk :: rest /\
     w' = delivered payload h attempt rest w) \/
  (exists wr b w1 h attempt rest,
     socket_state (self wr) <> SOCK_CONNECTED /\
     connect_wss fuel (with_out [reconnecting (socket_state (self wr))] wr)
     = (Ok b, w1) /\
     socket_state (self w1) = SOCK_CONNECTED /\
     ws (self w1) = Some h /\ send (env w1) = SendOk :: rest /\
     w' = delivered payload h attempt rest w1).
Proof.
  induction l as [| i l IH]; intros w w' H; [discriminate H |].
  rewrite for_each_cons in H.
  destruct (sock_eqb (socket_state (self w)) SOCK_CONNECTED) eqn:E.
  - apply sock_eqb_connected in E.
    unfold publish_attempt in H; cbn in H. rewrite E in H; cbn in H.
    unfold ws_send in H; cbn in H.
    destruct (ws (self w)) as [h |] eqn:Hw; cbn in H; [| discriminate H].
    destruct (send (env w)) as [| [| | e] rest] eqn:Hs; cbn in H;
      try discriminate H.
    + apply IH in H. destruct H as [[C _] | H]; [discriminate C | now right].
    + injection H as <-. left. split; [exact E |].
      exists h, i, rest. auto.
    + apply IH in H. destruct H as [[C _] | H]; [discriminate C | now right].
  - assert (Hn : socket_state (self w) <> SOCK_CONNECTED)
      by (intros C; apply sock_eqb_connected in C; congruence).
    rewrite publish_attempt_reconnects in H by exact Hn. cbn [bind] in H.
    destruct (connect_wss fuel _) as [[b | e |] w1] eqn:Hc; try discriminate H.
    cbn [ret] in H. apply IH in H.
    destruct H as [[C (h & attempt & rest & Hw & Hs & ->)] | H]; [| now right].
    right. exists w, b, w1, h, attempt, rest. auto 10.
Qed.

(** *** A server out of reach *)

Lemma connect_wss_unreachable fuel w rest :
  socket_state (self w) <> SOCK_CONNECTED ->
  truth (api_key (self w)) = true ->
  spawn (env w) = SpawnRaises :: rest ->
  connect_wss fuel w = (Ok false, failed_connect w).
Proof.
  intros Hs Hk He.
  unfold connect_wss, connect_wss_with; cbn.
  destruct (sock_eqb (socket_state (self w)) SOCK_CONNECTED) eqn:E;
    [apply sock_eqb_connected in E; contradiction |].
  cbn. unfold open_wss_thread, check_credentials, next_spawn; cbn.
  rewrite Hk; cbn. rewrite He; cbn.
  unfold failed_connect, with_out, with_self, with_env; cbn.
  rewrite He; cbn. now rewrite <- !app_assoc.
Qed.

Lemma reconnect_rounds_unreachable fuel n : forall w rest,
  socket_state (self w) <> SOCK_CONNECTED ->
  truth (api_key (self w)) = true ->
  spawn (env w) = repeat SpawnRaises n ++ rest ->
  reconnect_rounds fuel n w = Some (unreachable_rounds n w).
Proof.
  induction n as [| n IH]; intros w rest Hs Hk He; [reflexivity |].
  cbn [reconnect_rounds unreachable_rounds].
  destruct (sock_eqb (socket_state (self w)) SOCK_CONNECTED) eqn:E;
    [apply sock_eqb_connected in E; contradiction |].
  rewrite (connect_wss_unreachable _ _ (repeat SpawnRaises n ++ rest))
    by assumption.
  apply (IH _ rest); [discriminate | exact Hk |].
  cbn. now rewrite He.
Qed.

(** *** The command sent while the socket is closed *)

Lemma send_command_fresh fuel command w :
  sent_counter (self w) < 5 ->
  send_command (S fuel) command w
  = bind (bind (publish_loop (connect_wss fuel) command) after_loop)
         (fun _ => ret PNone) (entering_loop command w).
Proof.
  intros Hc. unfold send_command. cbn [bind get_self log emit].
  rewrite publish_wss_fresh by exact Hc.
  unfold entering_loop. now rewrite with_out_app.
Qed.




(* ===================================================================== *)
(** * Further properties of the code *)
(* ===================================================================== *)

Arguments requests : simpl never.
Arguments calls : simpl never.
Arguments socket_ops : simpl never.
Arguments frames : simpl never.
Arguments reconnects : simpl never.
Arguments since : simpl never.
Arguments login_url : simpl never.

Lemma requests_app l1 l2 : requests (l1 ++ l2) = (requests l1 + requests l2)%nat.
Proof. unfold requests. now rewrite filter_app, length_app. Qed.

Ltac count_requests :=
  rewrite ?requests_app; unfold requests; cbn; lia.

(** ** The retry loop of [send_http] *)

Lemma send_http_loop url params method w :
  send_http url params method w
  = bind (for_each (range N_RETRY) (http_attempt url method)) after_retries
      (with_out [Log DEBUG "Send HTTP request Url=%s Params=%s" [PStr url; params]]
                w).
Proof.
  reflexivity.
Qed.

(** A round sends one request, whatever the answer. *)
Lemma http_attempt_requests url method attempt w :
  requests (out (snd (http_attempt url method attempt w)))
  = S (requests (out w)).
Proof.
  unfold http_attempt, client_send; cbn.
  destruct (http (env w)) as [| [code body |] rest]; cbn.
  - count_requests.
  - destruct (code =? 200); cbn.
    + destruct body; cbn; count_requests.
    + destruct (code =? 401); cbn; count_requests.
  - count_requests.
Qed.

(** A round raises nothing of its own: what it raises is what decoding the
    body of a 200 raises. *)
Lemma http_attempt_outcome url method attempt w :
  match fst (http_attempt url method attempt w) with
  | Ok _ => True
  | Raise e =>
      exists body rest,
        http (env w) = HttpResponse 200 body :: rest /\
        json_loads body = Raise e
  | Fuel => False
  end.
Proof.
  unfold http_attempt, client_send; cbn.
  destruct (http (env w)) as [| [code body |] rest]; cbn; auto.
  destruct (code =? 200) eqn:E; cbn.
  - apply Z.eqb_eq in E. subst code.
    destruct body; cbn; auto; eexists _, rest; split; reflexivity.
  - destruct (code =? 401); cbn; auto.
Qed.

(** A round that goes on to the next has met a transient answer, or a
    script that has run dry. *)
Lemma http_attempt_goes_on url method attempt w w1 :
  http_attempt url method attempt w = (Ok None, w1) ->
  (http (env w) = [] /\ http (env w1) = []) \/
  (exists r, transient r = true /\ http (env w) = r :: http (env w1)).
Proof.
  unfold http_attempt, client_send; cbn.
  destruct (http (env w)) as [| [code body |] rest] eqn:Eh; cbn.
  - intros H. injection H as <-. left. cbn. now rewrite Eh.
  - destruct (code =? 200) eqn:E2; cbn.
    + destruct body; cbn; discriminate.
    + destruct (code =? 401) eqn:E4; cbn; [discriminate |].
      intros H. injection H as <-. right.
      exists (HttpResponse code body). cbn. rewrite E2, E4. now split.
  - intros H. injection H as <-. right. exists HttpRequestError. now split.
Qed.

Lemma http_loop_bounded url method l : forall w,
  let r := for_each l (http_attempt url method) w in
  (requests (out w) + Nat.min 1 (List.length l) <= requests (out (snd r))
   <= requests (out w) + List.length l)%nat /\
  match fst r with
  | Ok _ => True
  | Raise e =>
      exists rs body rest,
        http (env w) = rs ++ HttpResponse 200 body :: rest /\
        forallb transient rs = true /\
        (List.length rs < List.length l)%nat /\
        json_loads body = Raise e
  | Fuel => False
  end.
Proof.
  induction l as [| a l IH]; intros w; cbn zeta.
  - cbn. split; [lia | exact I].
  - rewrite for_each_cons.
    pose proof (http_attempt_requests url method a w) as Hr.
    pose proof (http_attempt_outcome url method a w) as Ho.
    pose proof (http_attempt_goes_on url method a w) as Hg.
    destruct (http_attempt url method a w) as [[[v |] | e |] w1];
      cbn [fst snd List.length] in *.
    + split; [lia | exact I].
    + destruct (IH w1) as (B & O). cbn zeta in B, O.
      split; [lia |].
      destruct (fst (for_each l (http_attempt url method) w1)) as [x | e |];
        [exact I | | exact O].
      destruct O as (rs & body & rest & E & T & L & J).
      destruct (Hg w1 eq_refl) as [[_ H1] | (r & Tr & H1)].
      * rewrite H1 in E. now destruct rs.
      * exists (r :: rs), body, rest. rewrite H1, E. cbn. rewrite Tr, T.
        repeat split; [lia | exact J].
    + split; [lia |]. destruct Ho as (body & rest & E & J).
      exists [], body, rest. cbn. repeat split; [exact E | lia | exact J].
    + split; [lia | exact Ho].
Qed.

(** X1.  [send_http] sends at least one request and never more than five,
    whatever the server does, and it raises nothing of its own: when an
    exception leaves it, fewer than five transient answers have been
    followed by a 200, and the exception is the one the decoder raises on
    the body of that answer (for a text that is not JSON, or for bytes that
    are not text). *)
Theorem send_http_bounded url params method w :
  let r := send_http url params method w in
  (requests (out w) < requests (out (snd r)) <= requests (out w) + 5)%nat /\
  fst r <> Fuel /\
  (forall e,
      fst r = Raise e ->
      exists rs body rest,
        http (env w) = rs ++ HttpResponse 200 body :: rest /\
        forallb transient rs = true /\
        (List.length rs < 5)%nat /\
        json_loads body = Raise e).
Proof.
  cbn zeta. rewrite send_http_loop.
  set (w0 := with_out _ w).
  assert (E0 : requests (out w0) = requests (out w)).
  { unfold w0; cbn. count_requests. }
  destruct (http_loop_bounded url method (range N_RETRY) w0) as (B & O).
  cbn zeta in B, O. change (List.length (range N_RETRY)) with 5%nat in B, O.
  change (http (env w0)) with (http (env w)) in O.
  cbn [Nat.min] in B. cbn [bind].
  destruct (for_each (range N_RETRY) (http_attempt url method) w0)
    as [[[v |] | e |] w1]; cbn [fst snd] in *.
  - cbn. split; [lia | split; discriminate].
  - cbn. split; [| split; discriminate]. rewrite requests_app.
    change (requests [_]) with 0%nat. lia.
  - split; [lia | split; [discriminate |]].
    intros e' H. injection H as <-. exact O.
  - destruct O.
Qed.

Lemma send_http_bounded_witness :
  let w := boot (new_ctrl "dev1" default_garage_state)
             {| http := [HttpResponse 503 (NotJson "busy");
                         HttpResponse 200 (NotUtf8 "80")];
                spawn := []; send := []; sleep := []; reports := false;
                raising := all_return |} in
  fst (send_http "https://tti.tiwiconnect.com/api/login" PNone "POST" w)
  = Raise (OtherError "UnicodeDecodeError") /\
  exists rs body rest,
    http (env w) = rs ++ HttpResponse 200 body :: rest /\
    forallb transient rs = true /\
    (List.length rs < 5)%nat /\
    json_loads body = Raise (OtherError "UnicodeDecodeError").
Proof.
  intros w. split; [reflexivity |].
  exact (proj2 (proj2 (send_http_bounded
                         "https://tti.tiwiconnect.com/api/login" PNone "POST" w))
           (OtherError "UnicodeDecodeError") eq_refl).
Defined.

(** Rounds that meet transient answers go on to the next round. *)
Lemma http_loop_retried url method rs : forall l w rest,
  http (env w) = rs ++ rest ->
  forallb transient rs = true ->
  (List.length rs <= List.length l)%nat ->
  for_each l (http_attempt url method) w
  = for_each (skipn (List.length rs) l) (http_attempt url method)
      (retried url method rs l w) /\
  http (env (retried url method rs l w)) = rest /\
  self (retried url method rs l w) = self w /\
  requests (out (retried url method rs l w))
  = (requests (out w) + List.length rs)%nat.
Proof.
  induction rs as [| r rs IH]; intros l w rest He Ht Hl.
  - cbn. repeat split; auto.
  - destruct l as [| a l]; [cbn in Hl; lia |].
    cbn in Ht. apply andb_prop in Ht. destruct Ht as [Hr Ht].
    cbn [retried skipn List.length].
    set (w1 := with_out [transient_log r a]
                 (with_env (set_http (tl (http (env w))))
                    (with_out [HttpSend method url] w))).
    assert (E1 : http_attempt url method a w = (Ok None, w1)).
    { unfold http_attempt, client_send, w1; cbn. rewrite He; cbn.
      destruct r as [code body |]; cbn; [| reflexivity].
      cbn in Hr. apply andb_prop in Hr. destruct Hr as [H2 H4].
      apply negb_true_iff in H2, H4. rewrite H2, H4. reflexivity. }
    rewrite for_each_cons, E1.
    destruct (IH l w1 rest) as (A & B & C & D);
      [unfold w1; cbn; now rewrite He | exact Ht | cbn in Hl; lia |].
    repeat split; auto.
    rewrite D. unfold w1; cbn. destruct r; count_requests.
Qed.

(** X2.  When the first five answers are all transient (transport errors,
    or statuses other than 200 and 401), [send_http] sends exactly five
    requests, consumes exactly those five answers, leaves the object alone
    and returns its "Failed after 5 retry" dict. *)
Theorem send_http_gives_up url params method w rs rest :
  http (env w) = rs ++ rest ->
  List.length rs = 5%nat ->
  forallb transient rs = true ->
  let r := send_http url params method w in
  fst r = Ok http_retry_error /\
  http (env (snd r)) = rest /\
  self (snd r) = self w /\
  requests (out (snd r)) = (requests (out w) + 5)%nat.
Proof.
  intros He Hl Ht. cbn zeta. rewrite send_http_loop.
  set (w0 := with_out _ w).
  destruct (http_loop_retried url method rs (range N_RETRY) w0 rest)
    as (A & B & C & D); auto.
  { rewrite Hl. cbn. lia. }
  cbn [bind]. rewrite A, Hl. cbn [skipn range]. cbn.
  repeat split; auto.
  change [0; 1; 2; 3; 4] with (range N_RETRY).
  rewrite requests_app, D, Hl. unfold w0; cbn. count_requests.
Qed.

Lemma send_http_gives_up_witness :
  let e := {| http := [HttpRequestError; HttpResponse 500 (NotJson "oops");
                        HttpResponse 503 (Json PNone); HttpRequestError;
                        HttpResponse 404 (NotJson ""); HttpResponse 200 (Json PNone)];
              spawn := []; send := []; sleep := []; reports := false;
              raising := all_return |} in
  let r := send_http login_url (dict []) "POST"
             (boot (new_ctrl "dev1" default_garage_state) e) in
  fst r = Ok http_retry_error /\
  http (env (snd r)) = [HttpResponse 200 (Json PNone)].
Proof.
  intros e r.
  destruct (send_http_gives_up login_url (dict []) "POST"
              (boot (new_ctrl "dev1" default_garage_state) e)
              [HttpRequestError; HttpResponse 500 (NotJson "oops");
               HttpResponse 503 (Json PNone); HttpRequestError;
               HttpResponse 404 (NotJson "")]
              [HttpResponse 200 (Json PNone)] eq_refl eq_refl eq_refl)
    as (A & B & _).
  split; assumption.
Defined.

(** X3.  After fewer than five transient answers, the first answer with
    status 200 or 401 ends the loop: a 200 gives the decoded body back (or
    the decoder's exception), a 401 gives the "Invalid login credentials"
    dict, and in each case one request was sent per answer consumed and no
    other. *)
Theorem send_http_first_answer url params method w rs code body rest :
  http (env w) = rs ++ HttpResponse code body :: rest ->
  (List.length rs < 5)%nat ->
  forallb transient rs = true ->
  code = 200 \/ code = 401 ->
  let r := send_http url params method w in
  fst r = (if code =? 200 then json_loads body else Ok http_401_error) /\
  http (env (snd r)) = rest /\
  self (snd r) = self w /\
  requests (out (snd r)) = (requests (out w) + List.length rs + 1)%nat.
Proof.
  intros He Hl Ht Hc. cbn zeta. rewrite send_http_loop.
  set (w0 := with_out _ w).
  destruct (http_loop_retried url method rs (range N_RETRY) w0
              (HttpResponse code body :: rest))
    as (A & B & C & D); auto.
  { change (List.length (range N_RETRY)) with 5%nat. lia. }
  cbn [bind]. rewrite A.
  set (w1 := retried url method rs (range N_RETRY) w0) in *.
  assert (E0 : requests (out w0) = requests (out w))
    by (unfold w0; cbn; count_requests).
  destruct (skipn (List.length rs) (range N_RETRY)) as [| a l] eqn:Es.
  { apply (f_equal (@List.length Z)) in Es. rewrite length_skipn in Es.
    change (List.length (range N_RETRY)) with 5%nat in Es. cbn [List.length] in Es. lia. }
  rewrite for_each_cons. unfold http_attempt, client_send; cbn.
  rewrite B; cbn.
  destruct Hc as [-> | ->]; cbn.
  - destruct body as [raw | j | raw]; cbn; repeat split; auto;
      rewrite !requests_app, D, E0; unfold requests; cbn; lia.
  - repeat split; auto. rewrite !requests_app, D, E0. unfold requests; cbn. lia.
Qed.

Lemma send_http_first_answer_witness :
  let e := {| http := [HttpRequestError; HttpResponse 500 (NotJson "oops");
                        HttpResponse 200 (Json (dict [("result", PList [])]));
                        HttpResponse 401 (NotJson "")];
              spawn := []; send := []; sleep := []; reports := false;
              raising := all_return |} in
  let r := send_http login_url (dict []) "GET"
             (boot (new_ctrl "dev1" default_garage_state) e) in
  fst r = Ok (dict [("result", PList [])]) /\
  http (env (snd r)) = [HttpResponse 401 (NotJson "")] /\
  requests (out (snd r)) = 3%nat.
Proof.
  intros e r.
  destruct (send_http_first_answer login_url (dict []) "GET"
              (boot (new_ctrl "dev1" default_garage_state) e)
              [HttpRequestError; HttpResponse 500 (NotJson "oops")]
              200 (Json (dict [("result", PList [])]))
              [HttpResponse 401 (NotJson "")]
              eq_refl ltac:(cbn; lia) eq_refl (or_introl eq_refl))
    as (A & B & _ & D).
  repeat split; assumption.
Defined.

(** ** The outcomes of [login] *)

Lemma login_steps w :
  login w
  = bind (send_http login_url (login_params (self w)) "POST") login_answer
         (logging_in w).
Proof. reflexivity. Qed.

Lemma send_http_answer_200 url params method w resp rest :
  http (env w) = HttpResponse 200 (Json resp) :: rest ->
  send_http url params method w
  = (Ok resp,
     with_out [Log DEBUG "RyobiApi: HTTP data received = %s" [resp]]
       (with_out [Log DEBUG "RyobiApi: Send HTTP OK, return=200" []]
          (with_env (set_http rest)
             (with_out [HttpSend method url]
                (with_out
                   [Log DEBUG "Send HTTP request Url=%s Params=%s"
                        [PStr url; params]] w))))).
Proof.
  intros He. rewrite send_http_loop. change (range N_RETRY) with [0; 1; 2; 3; 4].
  cbn [bind]. rewrite for_each_cons. unfold http_attempt, client_send; cbn.
  rewrite He; cbn. reflexivity.
Qed.

(** X4.  When the server answers the login request with a 200 whose body
    holds [result._id] and [result.auth.apiKey], [login] returns [True]
    after that one request, with [user_id] and [api_key] set to the two
    values and nothing else changed in the object. *)
Theorem login_success w resp result id auth key rest :
  http (env w) = HttpResponse 200 (Json resp) :: rest ->
  getitem resp "result" = Ok result ->
  getitem result "_id" = Ok id ->
  getitem result "auth" = Ok auth ->
  getitem auth "apiKey" = Ok key ->
  let r := login w in
  fst r = Ok true /\
  self (snd r) = set_api_key key (set_user_id id (self w)) /\
  http (env (snd r)) = rest /\
  requests (since w (snd r)) = 1%nat.
Proof.
  intros He Hr Hi Ha Hk. cbn zeta.
  rewrite login_steps. cbn [bind].
  rewrite (send_http_answer_200 _ _ _ _ resp rest) by exact He.
  unfold login_answer; cbn.
  repeat (first [ rewrite Hr | rewrite Hi | rewrite Ha | rewrite Hk
                | rewrite (getitem_str_in _ _ _ Hi)
                | rewrite (getitem_str_in _ _ _ Hk) ]; cbn).
  repeat split; auto.
  unfold since; cbn. rewrite <- !app_assoc.
  rewrite skipn_app, skipn_all, Nat.sub_diag. reflexivity.
Qed.

Lemma login_success_witness :
  let e := {| http := [HttpResponse 200
                         (Json (dict [("result",
                                       dict [("_id", PStr "u1");
                                             ("auth", dict [("apiKey", PStr "k1")])])]))];
              spawn := []; send := []; sleep := []; reports := false;
              raising := all_return |} in
  let w := boot (set_api_key PNone (set_user_id PNone
                   (new_ctrl "dev1" default_garage_state))) e in
  fst (login w) = Ok true /\
  user_id (self (snd (login w))) = PStr "u1" /\
  api_key (self (snd (login w))) = PStr "k1".
Proof.
  intros e w.
  destruct (login_success w _ _ (PStr "u1") _ (PStr "k1") []
              eq_refl eq_refl eq_refl eq_refl eq_refl) as (A & B & _).
  rewrite A, B. repeat split.
Defined.

(** X5.  A 200 whose [result] has no [_id] makes [login] return [False] and
    leave the object as it was; one whose [result] has an [_id] but whose
    [auth] has no [apiKey] makes it return [False] too, but only after
    [user_id] has been overwritten with that [_id]: the api key is kept and
    the user id is not. *)
Theorem login_refused w resp result rest :
  http (env w) = HttpResponse 200 (Json resp) :: rest ->
  getitem resp "result" = Ok result ->
  let r := login w in
  (str_in "_id" result = Ok false ->
   fst r = Ok false /\ self (snd r) = self w) /\
  (forall id auth,
      getitem result "_id" = Ok id ->
      getitem result "auth" = Ok auth ->
      str_in "apiKey" auth = Ok false ->
      fst r = Ok false /\ self (snd r) = set_user_id id (self w)).
Proof.
  intros He Hr. cbn zeta.
  rewrite login_steps. cbn [bind].
  rewrite (send_http_answer_200 _ _ _ _ resp rest) by exact He.
  unfold login_answer; cbn. rewrite Hr; cbn. split.
  - intros Hn. rewrite Hn; cbn. split; reflexivity.
  - intros id auth Hi Ha Hk.
    repeat (first [ rewrite Hr | rewrite Hi | rewrite Ha | rewrite Hk
                  | rewrite (getitem_str_in _ _ _ Hi) ]; cbn).
    split; reflexivity.
Qed.

Lemma login_refused_witness :
  let answer body :=
    {| http := [HttpResponse 200 (Json body)];
       spawn := []; send := []; sleep := []; reports := false;
       raising := all_return |} in
  let c := new_ctrl "dev1" default_garage_state in
  let no_id := dict [("result", dict [("error", PStr "no such user")])] in
  let no_key := dict [("result", dict [("_id", PStr "u2"); ("auth", dict [])])] in
  (fst (login (boot c (answer no_id))) = Ok false /\
   user_id (self (snd (login (boot c (answer no_id))))) = PStr "u1") /\
  (fst (login (boot c (answer no_key))) = Ok false /\
   user_id (self (snd (login (boot c (answer no_key))))) = PStr "u2" /\
   api_key (self (snd (login (boot c (answer no_key))))) = PStr "k1").
Proof.
  intros answer c no_id no_key. split.
  - destruct (login_refused (boot c (answer no_id)) no_id _ [] eq_refl eq_refl)
      as (A & _).
    destruct (A eq_refl) as (A1 & A2). rewrite A1, A2. split; reflexivity.
  - destruct (login_refused (boot c (answer no_key)) no_key _ [] eq_refl eq_refl)
      as (_ & B).
    destruct (B (PStr "u2") (dict []) eq_refl eq_refl eq_refl) as (B1 & B2).
    rewrite B1, B2. repeat split.
Defined.

(** X6.  When the server answers the login request five times with
    transient failures, [login] does not return [False] either: [send_http]
    gives its "Failed after 5 retry" dict back after the fifth request, and
    [login] raises [KeyError] on the ["result"] key that dict lacks, with
    the object unchanged. *)
Theorem login_after_retries_raises w rs rest :
  http (env w) = rs ++ rest ->
  List.length rs = 5%nat ->
  forallb transient rs = true ->
  let r := login w in
  fst r = Raise (KeyError (PStr "result")) /\
  self (snd r) = self w /\
  http (env (snd r)) = rest /\
  requests (out (snd r)) = (requests (out w) + 5)%nat.
Proof.
  intros He Hl Ht. cbn zeta. rewrite login_steps. cbn [bind].
  rewrite send_http_loop.
  set (w0 := with_out _ (logging_in w)).
  destruct (http_loop_retried login_url "POST" rs (range N_RETRY) w0 rest)
    as (A & B & C & D); auto.
  { rewrite Hl. cbn. lia. }
  cbn [bind]. rewrite A, Hl. cbn [skipn]. cbn. unfold login_answer.
  change (getitem http_retry_error (PStr "result"))
    with (@Raise pyval (KeyError (PStr "result"))).
  cbn. change [0; 1; 2; 3; 4] with (range N_RETRY).
  repeat split; auto.
  rewrite requests_app, D, Hl. unfold w0, logging_in; cbn. count_requests.
Qed.

Lemma login_after_retries_raises_witness :
  let e := {| http := repeat HttpRequestError 5;
              spawn := []; send := []; sleep := []; reports := false;
              raising := all_return |} in
  fst (login (boot (new_ctrl "dev1" default_garage_state) e))
  = Raise (KeyError (PStr "result")).
Proof.
  intros e.
  exact (proj1 (login_after_retries_raises
                  (boot (new_ctrl "dev1" default_garage_state) e)
                  (repeat HttpRequestError 5) [] eq_refl eq_refl eq_refl)).
Defined.

(** ** Subscribers *)

Lemma subscribe_run s w :
  subscribe s w
  = (Ok tt,
     with_self (set_subscriber (subscriber (self w) ++ [s]))
       (with_out [Log DEBUG "RyobiApi (WSS): adding a new subscriber" []] w)).
Proof. reflexivity. Qed.

Lemma subscribe_all l : forall w,
  fst (for_ l subscribe w) = Ok tt /\
  subscriber (self (snd (for_ l subscribe w))) = subscriber (self w) ++ l /\
  env (snd (for_ l subscribe w)) = env w.
Proof.
  induction l as [| s l IH]; intros w; cbn [for_].
  - cbn. now rewrite app_nil_r.
  - cbn [bind]. rewrite subscribe_run.
    destruct (IH (with_self (set_subscriber (subscriber (self w) ++ [s]))
                    (with_out
                       [Log DEBUG "RyobiApi (WSS): adding a new subscriber" []]
                       w))) as (A & B & C).
    split; [exact A |]. rewrite B, C. cbn. now rewrite <- app_assoc.
Qed.

Lemma calls_notified subs : calls (notified subs) = subs.
Proof.
  unfold notified.
  change (Log DEBUG
            "RyobiApi (WSS): Calling subscriber (schedule_update_ha_state)" []
          :: map Called subs)
    with ([Log DEBUG
             "RyobiApi (WSS): Calling subscriber (schedule_update_ha_state)" []]
          ++ map Called subs).
  rewrite calls_app, calls_map_Called. reflexivity.
Qed.

(** X7.  Subscribers are kept in the order they register, repeats included:
    after the handles [l] have been registered one by one, the list is the
    old one followed by [l], and a notification calls that list in that
    order, a handle registered twice being called twice.  When every
    subscriber returns, the notification calls the whole list and returns;
    when one raises, the notification has called those before it and that
    one, calls none of those after it, and raises its exception. *)
Theorem subscribers_called_in_order l w :
  let w1 := snd (for_ l subscribe w) in
  let all := subscriber (self w) ++ l in
  fst (for_ l subscribe w) = Ok tt /\
  subscriber (self w1) = all /\
  ((forall s, In s all -> raising (env w) s = None) ->
   fst (_call_subscriber w1) = Ok tt /\
   calls (since w1 (snd (_call_subscriber w1))) = all) /\
  (forall before s e after,
      all = before ++ s :: after ->
      (forall x, In x before -> raising (env w) x = None) ->
      raising (env w) s = Some e ->
      fst (_call_subscriber w1) = Raise e /\
      calls (since w1 (snd (_call_subscriber w1))) = before ++ [s]).
Proof.
  cbn zeta. destruct (subscribe_all l w) as (A & B & C).
  split; [exact A |]. split; [exact B |].
  rewrite _call_subscriber_run. cbn [fst snd].
  rewrite since_with_out, calls_notified, B, C. split.
  - intros H. destruct (called_all _ _ H) as [E1 E2]. now rewrite E1, E2.
  - intros before s e after E H Hs. rewrite E.
    destruct (called_until _ before s e after H Hs) as [E1 E2].
    now rewrite E1, E2.
Qed.

Lemma subscribers_called_in_order_witness :
  (fst (_call_subscriber (snd (for_ [1%nat; 0%nat] subscribe watching_dev1)))
   = Ok tt /\
   calls (since (snd (for_ [1%nat; 0%nat] subscribe watching_dev1))
            (snd (_call_subscriber
                    (snd (for_ [1%nat; 0%nat] subscribe watching_dev1)))))
   = [0%nat] ++ [1%nat; 0%nat]) /\
  (fst (_call_subscriber (snd (for_ [3%nat; 1%nat] subscribe failing_subscriber)))
   = Raise (OtherError "RuntimeError") /\
   calls (since (snd (for_ [3%nat; 1%nat] subscribe failing_subscriber))
            (snd (_call_subscriber
                    (snd (for_ [3%nat; 1%nat] subscribe failing_subscriber)))))
   = [0%nat] ++ [1%nat]).
Proof.
  split.
  - refine (proj1 (proj2 (proj2
              (subscribers_called_in_order [1%nat; 0%nat] watching_dev1))) _).
    intros s _. reflexivity.
  - refine (proj2 (proj2 (proj2
              (subscribers_called_in_order [3%nat; 1%nat] failing_subscriber)))
              [0%nat] 1%nat (OtherError "RuntimeError")
              [2%nat; 3%nat; 1%nat] eq_refl _ eq_refl).
    intros x [<- | []]. reflexivity.
Defined.

(** ** What callbacks leave alone *)

Lemma only_object_refl w : only_object w w.
Proof.
  unfold only_object. repeat (split; [reflexivity |]).
  exists []. now rewrite app_nil_r.
Qed.

Lemma only_object_trans a b c :
  only_object a b -> only_object b c -> only_object a c.
Proof.
  unfold only_object.
  intros (A1 & A2 & A3 & A4 & A5 & A6 & A7 & A8 & A9 & A10 & l1 & A11 & A12)
         (B1 & B2 & B3 & B4 & B5 & B6 & B7 & B8 & B9 & B10 & l2 & B11 & B12).
  repeat (split; [congruence |]).
  exists (l1 ++ l2). split.
  - now rewrite B11, A11, app_assoc.
  - now rewrite forallb_app, A12, B12.
Qed.

Lemma emit_only_object e : silent e = true -> keeps only_object (emit e).
Proof.
  intros H w. unfold only_object; cbn. repeat (split; [reflexivity |]).
  exists [e]. split; [reflexivity |]. cbn. now rewrite H.
Qed.

Lemma log_only_object lv fmt args : keeps only_object (log lv fmt args).
Proof. now apply emit_only_object. Qed.

Lemma set_socket_state_only_object s :
  keeps only_object (modify_self (set_socket_state s)).
Proof.
  intros w. unfold only_object; cbn. repeat (split; [reflexivity |]).
  exists []. now rewrite app_nil_r.
Qed.

Lemma set_sent_counter_only_object n :
  keeps only_object (modify_self (set_sent_counter n)).
Proof.
  intros w. unfold only_object; cbn. repeat (split; [reflexivity |]).
  exists []. now rewrite app_nil_r.
Qed.

Lemma store_garage_state_only_object f :
  keeps only_object (store_garage_state f).
Proof.
  intros w. unfold store_garage_state; cbn.
  destruct (f (garage_state (self w))); cbn; try apply only_object_refl.
  unfold only_object; cbn. repeat (split; [reflexivity |]).
  exists []. now rewrite app_nil_r.
Qed.

Ltac frame_steps_with tac :=
  repeat first
    [ apply call_subscriber_keeps
    | tac
    | keeps_step
    | match goal with
      | |- keeps _ (if ?b then _ else _) => destruct b
      | |- keeps _ (match ?x with _ => _ end) => destruct x
      end ].

Ltac only_object_step :=
  first
    [ apply log_only_object
    | apply emit_only_object; reflexivity
    | apply set_socket_state_only_object
    | apply set_sent_counter_only_object
    | apply store_garage_state_only_object ].

Lemma handler_only_object cb : keeps only_object (handler cb).
Proof.
  pose proof only_object_refl. pose proof only_object_trans.
  destruct cb; cbn [handler];
    unfold on_open, on_close, on_error, on_message, on_pong, raise,
      parse_device_update, _call_subscriber;
    frame_steps_with only_object_step.
Qed.

(** X8.  A callback of the socket, whatever it is and whether it returns or
    raises, changes nothing in the world but the socket state, the watchdog
    counter and the state model of the object: credentials, identifiers,
    the socket handle, the subscribers, the socket counter and the answers
    the environment still holds are the same after the dispatcher returns,
    and what the record of events gains holds log records and subscriber
    calls only (no request, no socket created, written to or closed, no
    sleep). *)
Theorem callbacks_touch_only_object cb w :
  only_object w (snd (dispatch cb w)).
Proof.
  unfold dispatch. pose proof (handler_only_object cb w) as H.
  destruct (handler cb w) as [[[] | e |] w1]; cbn [snd] in *; try exact H.
  destruct (reports (env w1)); cbn [snd]; [| exact H].
  eapply only_object_trans; [exact H |].
  pose proof only_object_refl. pose proof only_object_trans.
  assert (K : keeps only_object (on_error (PStr (exn_name e)))).
  { unfold on_error. frame_steps_with only_object_step. }
  apply K.
Qed.

(** ** Who is notified of a frame *)

Lemma since_trans a b c :
  extends a b -> extends b c -> since a c = since a b ++ since b c.
Proof.
  intros Hab Hbc.
  pose proof (extends_since _ _ Hab) as E1.
  pose proof (extends_since _ _ Hbc) as E2.
  unfold since at 1. rewrite E2, E1, <- app_assoc.
  now rewrite skipn_app, skipn_all, Nat.sub_diag.
Qed.

Lemma since_refl w : since w w = [].
Proof. unfold since. apply skipn_all. Qed.

Lemma without_notice_refl w : without_notice w w.
Proof.
  unfold without_notice. rewrite since_refl. repeat split. apply extends_refl.
Qed.

Lemma without_notice_trans a b c :
  without_notice a b -> without_notice b c -> without_notice a c.
Proof.
  intros (A1 & A2 & A3 & A4) (B1 & B2 & B3 & B4). unfold without_notice.
  split; [eapply extends_trans; eauto |].
  rewrite (since_trans a b c A1 B1), calls_app, A2, B2.
  repeat split; congruence.
Qed.

Lemma model_untouched_refl w : model_untouched w w.
Proof. split; [apply without_notice_refl | reflexivity]. Qed.

Lemma model_untouched_trans a b c :
  model_untouched a b -> model_untouched b c -> model_untouched a c.
Proof.
  intros [A1 A2] [B1 B2]. split; [| congruence].
  eapply without_notice_trans; eauto.
Qed.

Lemma log_model_untouched lv fmt args :
  keeps model_untouched (log lv fmt args).
Proof.
  intros w. unfold log, emit; cbn [snd].
  unfold model_untouched, without_notice. rewrite since_with_out.
  repeat split. now exists [Log lv fmt args].
Qed.

Lemma log_without_notice lv fmt args : keeps without_notice (log lv fmt args).
Proof. intros w. apply log_model_untouched. Qed.

Lemma with_self_since f w : since w (with_self f w) = [].
Proof. unfold since; cbn. apply skipn_all. Qed.

Lemma set_sent_counter_model_untouched n :
  keeps model_untouched (modify_self (set_sent_counter n)).
Proof.
  intros w. unfold modify_self; cbn [snd].
  unfold model_untouched, without_notice. rewrite with_self_since.
  repeat split. exists []. cbn. now rewrite app_nil_r.
Qed.

Lemma store_garage_state_without_notice f :
  keeps without_notice (store_garage_state f).
Proof.
  intros w. unfold store_garage_state; cbn.
  destruct (f (garage_state (self w))); cbn; try apply without_notice_refl.
  unfold without_notice. rewrite with_self_since.
  repeat split. exists []. cbn. now rewrite app_nil_r.
Qed.

Lemma parse_device_update_without_notice update :
  keeps without_notice (parse_device_update update).
Proof.
  pose proof without_notice_refl. pose proof without_notice_trans.
  unfold parse_device_update.
  frame_steps_with
    ltac:(first [ apply log_without_notice
                | apply store_garage_state_without_notice ]).
Qed.

Lemma since_with_outs l1 l2 f w :
  since w (with_out l2 (with_out l1 (with_self f w))) = l1 ++ l2.
Proof.
  unfold since; cbn.
  now rewrite <- app_assoc, skipn_app, skipn_all, Nat.sub_diag.
Qed.

(** A frame that is not an update with [params] never reaches
    [parse_device_update] nor [_call_subscriber]. *)
Lemma on_message_other message :
  carries_update message = false ->
  keeps model_untouched (on_message (Json message)).
Proof.
  intros H.
  pose proof model_untouched_refl as RR.
  pose proof model_untouched_trans as RT.
  unfold on_message, json_loads.
  apply (keeps_bind _ RR RT);
    [apply set_sent_counter_model_untouched | intros _].
  apply (keeps_bind_lift _ RR RT). intros a Ea. injection Ea as <-.
  apply (keeps_bind _ RR RT); [apply log_model_untouched | intros _].
  apply (keeps_bind_lift _ RR RT). intros has_method E1.
  destruct has_method.
  - apply (keeps_bind_lift _ RR RT). intros m E2.
    destruct (eq_str m GARAGE_UPDATE_MSG) eqn:E3.
    + apply (keeps_bind _ RR RT); [apply log_model_untouched | intros _].
      apply (keeps_bind_lift _ RR RT). intros has_params E4.
      destruct has_params; [| apply (keeps_ret _ RR RT)].
      exfalso. unfold carries_update in H. rewrite E1, E2, E4 in H.
      congruence.
    + frame_steps_with ltac:(apply log_model_untouched).
  - frame_steps_with ltac:(apply log_model_untouched).
Qed.

Lemma parse_device_update_env update w :
  env (snd (parse_device_update update w)) = env w.
Proof.
  pose proof only_object_refl. pose proof only_object_trans.
  assert (K : keeps only_object (parse_device_update update)).
  { unfold parse_device_update. frame_steps_with only_object_step. }
  exact (proj1 (K w)).
Qed.

(** A notification that raises has called the subscribers up to the one
    whose exception it raises. *)
Lemma notification_raised raising subs e :
  notification raising subs = Raise e ->
  exists before s after,
    subs = before ++ s :: after /\
    (forall x, In x before -> raising x = None) /\
    raising s = Some e /\
    called raising subs = before ++ [s].
Proof.
  induction subs as [| s subs IH]; cbn; [discriminate |].
  destruct (raising s) as [e' |] eqn:E.
  - intros H. injection H as ->. exists [], s, subs.
    repeat split; [intros x [] | exact E].
  - intros H. destruct (IH H) as (before & s' & after & E1 & E2 & E3 & E4).
    exists (s :: before), s', after. rewrite E4, E1.
    repeat split; [| exact E3].
    intros x [<- | Hx]; [exact E | now apply E2].
Qed.

(** The two ways a frame is handled: nobody is called (the frame is not an
    update with [params], or [on_message] stops before the notification),
    or the merge of an update has returned and the notification decides. *)
Lemma on_message_calls msg w :
  let r := on_message msg w in
  socket_state (self (snd r)) = socket_state (self w) /\
  (wire_carries_update msg = false ->
   garage_state (self (snd r)) = garage_state (self w)) /\
  ((calls (since w (snd r)) = [] /\
    (wire_carries_update msg = true -> is_ok (fst r) = false)) \/
   (wire_carries_update msg = true /\
    fst r = notification (raising (env w)) (subscriber (self w)) /\
    calls (since w (snd r))
    = called (raising (env w)) (subscriber (self w)))).
Proof.
  cbn zeta.
  assert (U : forall e,
             wire_carries_update msg = false ->
             on_message msg w = (Raise e, with_self (set_sent_counter 0) w) ->
             socket_state (self (snd (on_message msg w)))
             = socket_state (self w) /\
             (wire_carries_update msg = false ->
              garage_state (self (snd (on_message msg w)))
              = garage_state (self w)) /\
             ((calls (since w (snd (on_message msg w))) = [] /\
               (wire_carries_update msg = true ->
                is_ok (fst (on_message msg w)) = false)) \/
              (wire_carries_update msg = true /\
               fst (on_message msg w)
               = notification (raising (env w)) (subscriber (self w)) /\
               calls (since w (snd (on_message msg w)))
               = called (raising (env w)) (subscriber (self w))))).
  { intros e C E. rewrite E, C. cbn [fst snd]. rewrite with_self_since.
    split; [reflexivity |]. split; [reflexivity |].
    left. split; [reflexivity | discriminate]. }
  destruct msg as [raw | message | raw];
    [exact (U _ eq_refl eq_refl) | | exact (U _ eq_refl eq_refl)].
  clear U. cbn [wire_carries_update].
  destruct (carries_update message) eqn:C.
  - (* an update with params *)
    unfold carries_update in C.
    destruct (str_in "method" message) as [[|] | |] eqn:E1; try discriminate.
    destruct (getitem message "method") as [m | |] eqn:E2; try discriminate.
    destruct (str_in "params" message) as [[|] | |] eqn:E4; try discriminate.
    unfold on_message, json_loads. cbn. rewrite E1. cbn. rewrite E2. cbn.
    rewrite C. cbn. rewrite E4. cbn.
    destruct (getitem message "params") as [params | e |]; cbn.
    2, 3: rewrite since_with_outs;
      (split; [reflexivity |]); (split; [discriminate |]);
      left; split; [reflexivity | intros _; reflexivity].
    match goal with
    | |- context [parse_device_update params ?w0] =>
        pose proof (parse_device_update_without_notice params w0)
          as (X1 & X2 & X3 & X4);
        pose proof (parse_device_update_env params w0) as X7;
        change (env w0) with (env w) in X7;
        assert (X0 : extends w w0)
          by (exists [Log DEBUG "RyobiApi (WSS) Msg received %s" [message];
                      Log DEBUG
                        "RyobiApi (WSS) recieved garage door update message. "
                        []]; cbn; now rewrite <- app_assoc);
        assert (X5 : calls (since w w0) = [])
          by (now rewrite since_with_outs);
        destruct (parse_device_update params w0) as [[[] | e |] w1]
    end; cbn [fst snd] in *.
    + rewrite _call_subscriber_run. cbn [fst snd].
      split; [exact X3 |]. split; [discriminate |]. right.
      split; [reflexivity |]. rewrite X7.
      change (subscriber (self w1)) with (subscriber (self w1)).
      replace (subscriber (self w1)) with (subscriber (self w)) by (symmetry; exact X4).
      split; [reflexivity |].
      set (subs := called (raising (env w)) (subscriber (self w))).
      assert (X6 : extends w1 (with_out (notified subs) w1))
        by (eexists; reflexivity).
      rewrite (since_trans _ _ _ (extends_trans _ _ _ X0 X1) X6).
      rewrite (since_trans _ _ _ X0 X1), since_with_out.
      rewrite !calls_app, X5, X2, calls_notified. reflexivity.
    + split; [exact X3 |]. split; [discriminate |]. left.
      split; [| intros _; reflexivity].
      now rewrite (since_trans _ _ _ X0 X1), calls_app, X5, X2.
    + split; [exact X3 |]. split; [discriminate |]. left.
      split; [| intros _; reflexivity].
      now rewrite (since_trans _ _ _ X0 X1), calls_app, X5, X2.
  - pose proof (on_message_other message C w) as ((X1 & X2 & X3 & X4) & X5).
    split; [exact X3 |]. split; [intros _; exact X5 |].
    left. split; [exact X2 | discriminate].
Qed.

(** X9.  What a frame does to the subscribers and to the socket state.
    [on_message] never changes the socket state.  A frame that is not an
    update notification with [params] (an undecodable frame included) calls
    nobody and leaves the state model as it was.  When [on_message]
    returns, it has called every subscriber once, in order, if the frame is
    an update notification with [params], and nobody otherwise.  When
    [on_message] raises, either it has called nobody (the frame could not
    be decoded or merged), or it has called the subscribers in order up to
    one that raised, and raises the exception of that one, the subscribers
    after it not being called.  So with subscribers that all return, the
    subscribers are called exactly when the frame is an update with
    [params] and handling it returns. *)
Theorem on_message_notifies msg w :
  let r := on_message msg w in
  let subs := subscriber (self w) in
  socket_state (self (snd r)) = socket_state (self w) /\
  (wire_carries_update msg = false ->
   calls (since w (snd r)) = [] /\
   garage_state (self (snd r)) = garage_state (self w)) /\
  (fst r = Ok tt ->
   calls (since w (snd r)) = (if wire_carries_update msg then subs else [])) /\
  (forall e,
      fst r = Raise e ->
      calls (since w (snd r)) = [] \/
      exists before s after,
        subs = before ++ s :: after /\
        (forall x, In x before -> raising (env w) x = None) /\
        raising (env w) s = Some e /\
        calls (since w (snd r)) = before ++ [s]) /\
  ((forall s, In s subs -> raising (env w) s = None) ->
   calls (since w (snd r))
   = (if wire_carries_update msg && is_ok (fst r) then subs else [])).
Proof.
  cbn zeta. destruct (on_message_calls msg w) as (S & G & D). cbn zeta in *.
  split; [exact S |].
  destruct D as [[N F] | (U & R & K)].
  - split; [intros C; split; [exact N | exact (G C)] |].
    split; [| split].
    + intros E. rewrite N. destruct (wire_carries_update msg); [| reflexivity].
      rewrite E in F. discriminate (F eq_refl).
    + intros e _. left. exact N.
    + intros _. rewrite N. destruct (wire_carries_update msg); [| reflexivity].
      now rewrite (F eq_refl).
  - split; [intros C; rewrite C in U; discriminate U |].
    rewrite U. split; [| split].
    + intros E. rewrite K. apply notification_returned. now rewrite <- R.
    + intros e E. right. rewrite K. apply notification_raised.
      now rewrite <- R.
    + intros H. destruct (called_all _ _ H) as [A B].
      rewrite K, A, R, B. reflexivity.
Qed.

Lemma on_message_notifies_witness :
  (calls (since watching_dev1
            (snd (on_message (door_update "dev1") watching_dev1)))
   = [0%nat]) /\
  (calls (since failing_subscriber
            (snd (on_message (NotUtf8 "80") failing_subscriber)))
   = [] /\
   garage_state (self (snd (on_message (NotUtf8 "80") failing_subscriber)))
   = garage_state (self failing_subscriber)) /\
  (calls (since failing_subscriber
            (snd (on_message (door_update "dev1") failing_subscriber)))
   = [] \/
   exists before s after,
     subscriber (self failing_subscriber) = before ++ s :: after /\
     (forall x, In x before -> raising (env failing_subscriber) x = None) /\
     raising (env failing_subscriber) s = Some (OtherError "RuntimeError") /\
     calls (since failing_subscriber
              (snd (on_message (door_update "dev1") failing_subscriber)))
     = before ++ [s]).
Proof.
  split; [| split].
  - exact (proj1 (proj2 (proj2
             (on_message_notifies (door_update "dev1") watching_dev1)))
             eq_refl).
  - exact (proj1 (proj2
             (on_message_notifies (NotUtf8 "80") failing_subscriber))
             eq_refl).
  - exact (proj1 (proj2 (proj2 (proj2
             (on_message_notifies (door_update "dev1") failing_subscriber))))
             (OtherError "RuntimeError") eq_refl).
Defined.

(** ** The merge, entry by entry *)

(** For an update that names the device, [parse_device_update] runs the
    body of its loop on each key in turn. *)
Lemma parse_device_update_accepted update ks w :
  addressed update (self w) = true -> keys update = Ok ks ->
  parse_device_update update w = for_ ks (merge_key update) w.
Proof.
  unfold addressed, parse_device_update. intros Ha Hks.
  destruct (getitem update "varName") as [n | |] eqn:E; try discriminate.
  cbn. rewrite Ha. cbn. rewrite Hks. reflexivity.
Qed.

Lemma write_paths_entries update ks :
  keys update = Ok ks ->
  write_paths update = flat_map (entry_paths update) ks.
Proof. intros H. unfold write_paths. now rewrite H. Qed.

Lemma setitem_same g (k : string) v :
  getitem g k = Ok v -> setitem g k v = Ok g.
Proof.
  intros H. apply getitem_str_inv in H. destruct H as (d & -> & Hd).
  rewrite setitem_dict. now rewrite (dict_set_same_value _ _ _ _ Hd).
Qed.

(** After a store along a path of string keys the read along the path gives
    what was stored. *)
Lemma store_at_read q : forall g v g',
  q <> [] -> store_at g (map PStr q) v = Ok g' -> at_path g' q = Ok v.
Proof.
  induction q as [| k q IH]; intros g v g' Hq H; [congruence |].
  destruct q as [| k2 q].
  - cbn in H. cbn. now rewrite (getitem_setitem _ _ _ _ H).
  - change (update_at g (PStr k)
              (fun grp => store_at grp (map PStr (k2 :: q)) v) = Ok g') in H.
    apply update_at_inv in H. destruct H as (grp & grp' & Hg & Hs & Hset).
    cbn [at_path]. rewrite (getitem_setitem _ _ _ _ Hset).
    apply (IH grp v grp'); [discriminate | exact Hs].
Qed.

(** Storing what the read along the path gives changes nothing. *)
Lemma store_at_same q : forall g v,
  q <> [] -> at_path g q = Ok v -> store_at g (map PStr q) v = Ok g.
Proof.
  induction q as [| k q IH]; intros g v Hq H; [congruence |].
  cbn [at_path] in H.
  destruct (getitem g k) as [grp | |] eqn:Hg; try discriminate.
  destruct q as [| k2 q].
  - cbn in H. injection H as ->. cbn. now apply setitem_same.
  - change (store_at g (map PStr (k :: k2 :: q)) v)
      with (update_at g (PStr k)
              (fun grp => store_at grp (map PStr (k2 :: q)) v)).
    unfold update_at. rewrite Hg.
    rewrite (IH grp v); [| discriminate | exact H].
    now apply setitem_same.
Qed.

Lemma other_key_same (k : string) : other_key k (PStr k) = false.
Proof.
  unfold other_key, hash_key.
  destruct (hkey_eq_dec (HStr k) (HStr k)); [reflexivity | contradiction].
Qed.

Lemma other_key_hash (k : string) k' h :
  hash_key k' = Some h -> HStr k <> h -> other_key k k' = true.
Proof.
  unfold other_key. intros -> Hne.
  destruct (hkey_eq_dec (HStr k) h); [contradiction | reflexivity].
Qed.

Lemma apart_fields gq f item :
  apart (gq ++ [f]) (map PStr gq ++ [item]) = other_key f item.
Proof.
  induction gq as [| k gq IH]; cbn [app map apart].
  - destruct (other_key f item); reflexivity.
  - rewrite other_key_same. exact IH.
Qed.

Lemma apart_app q : forall p q2 p2,
  apart q p = true -> apart (q ++ q2) (p ++ p2) = true.
Proof.
  induction q as [| k q IH]; intros [| k' p] q2 p2 H; cbn in *;
    try discriminate.
  destruct (other_key k k'); cbn in *; auto.
Qed.

Lemma dict_get_In h d v :
  dict_get h d = Some v ->
  exists k, In k (map fst d) /\ hash_key k = Some h.
Proof.
  induction d as [| [k0 v0] d IH]; cbn; [discriminate |].
  destruct (entry_has h (k0, v0)) eqn:E.
  - intros _. exists k0. split; [now left |].
    unfold entry_has in E; cbn in E.
    destruct (hash_key k0) as [h' |]; [| discriminate].
    destruct (hkey_eq_dec h h'); [congruence | discriminate].
  - intros H. destruct (IH H) as (k & Hk & Hh). exists k. auto.
Qed.

Lemma getitem_dict_hash d k v :
  getitem (PDict d) k = Ok v ->
  exists h, hash_key k = Some h /\ dict_get h d = Some v.
Proof.
  unfold getitem. destruct (hash_key k) as [h |]; [| discriminate].
  destruct (dict_get h d) eqn:E; [| discriminate].
  intros [= ->]. eauto.
Qed.

Lemma store_garage_state_run f w :
  store_garage_state f w
  = match f (garage_state (self w)) with
    | Ok g => (Ok tt, with_self (set_garage_state g) w)
    | Raise e => (Raise e, w)
    | Fuel => (Fuel, w)
    end.
Proof.
  unfold store_garage_state; cbn.
  destruct (f (garage_state (self w))); reflexivity.
Qed.

Lemma merge_item_run update key g item u v w :
  getitem update key = Ok u -> getitem u item = Ok v ->
  merge_item update key g item w
  = store_garage_state (fun gs => store_at gs (g ++ [item]) v) w.
Proof. intros Hu Hv. unfold merge_item; cbn. now rewrite Hu; cbn; rewrite Hv. Qed.

Lemma merge_item_inv update key g item ud w w' :
  getitem update key = Ok (PDict ud) ->
  merge_item update key g item w = (Ok tt, w') ->
  exists h v g',
    hash_key item = Some h /\ dict_get h ud = Some v /\
    store_at (garage_state (self w)) (g ++ [item]) v = Ok g' /\
    w' = with_self (set_garage_state g') w.
Proof.
  intros Hu H. unfold merge_item in H; cbn in H. rewrite Hu in H; cbn in H.
  destruct (getitem (PDict ud) item) as [v | |] eqn:Ev; try discriminate H.
  apply getitem_dict_hash in Ev. destruct Ev as (h & Hh & Hv).
  change (store_garage_state (fun gs => store_at gs (g ++ [item]) v) w
          = (Ok tt, w')) in H.
  rewrite store_garage_state_run in H.
  destruct (store_at (garage_state (self w)) (g ++ [item]) v) as [g' | |] eqn:Es;
    try discriminate H.
  injection H as <-. exists h, v, g'. auto.
Qed.

Lemma merge_items_read_back update key gq ud f v items : forall w w',
  getitem update key = Ok (PDict ud) -> dict_get (HStr f) ud = Some v ->
  for_ items (merge_item update key (map PStr gq)) w = (Ok tt, w') ->
  (exists i, In i items /\ hash_key i = Some (HStr f)) \/
  at_path (garage_state (self w)) (gq ++ [f]) = Ok v ->
  at_path (garage_state (self w')) (gq ++ [f]) = Ok v.
Proof.
  induction items as [| item items IH]; intros w w' Hu Hf H D.
  - injection H as <-. destruct D as [(i & [] & _) | D]. exact D.
  - cbn [for_ bind] in H.
    destruct (merge_item update key (map PStr gq) item w) as [[[] | e |] w1] eqn:E1;
      try discriminate H.
    apply (merge_item_inv _ _ _ _ _ _ _ Hu) in E1.
    destruct E1 as (h & v' & g' & Hh & Hv' & Hs & ->).
    apply (IH _ _ Hu Hf H).
    destruct (hkey_eq_dec (HStr f) h) as [<- | Hne].
    + right. apply hash_key_str in Hh. subst item.
      assert (v' = v) by congruence. subst v'.
      change (map PStr gq ++ [PStr f]) with (map PStr gq ++ map PStr [f]) in Hs.
      rewrite <- map_app in Hs. cbn.
      assert (N : gq ++ [f] <> []) by (destruct gq; discriminate).
      apply (store_at_read _ _ _ _ N Hs).
    + assert (A : apart (gq ++ [f]) (map PStr gq ++ [item]) = true)
        by (rewrite apart_fields; eapply other_key_hash; eassumption).
      destruct D as [(i & [<- | Hi] & Hhi) | D].
      * congruence.
      * left. eauto.
      * right. cbn. rewrite (store_at_apart _ _ _ _ _ Hs A). exact D.
Qed.

Lemma group_path_inv key g :
  group_path key = Some g ->
  exists m,
    module_of key = Ok m /\
    (key_mentions "garageDoor" key = true /\ g = [PStr m] \/
     key_mentions "garageDoor" key = false /\
     key_mentions "garageLight" key = true /\
     g = [PStr "garageLight"; PStr m]).
Proof.
  unfold group_path. destruct (module_of key) as [m | |]; try discriminate.
  destruct (key_mentions "garageDoor" key).
  - intros [= <-]. eauto.
  - destruct (key_mentions "garageLight" key); [| discriminate].
    intros [= <-]. exists m. split; [reflexivity |]. right. auto.
Qed.

(** What an entry that names a group does: it logs the entry and stores its
    fields one by one. *)
Lemma merge_key_group update key g u w :
  skipped key = false -> group_path key = Some g ->
  getitem update key = Ok u ->
  merge_key update key w
  = bind (lift (iter u))
      (fun items => for_ items (merge_item update key g))
      (with_out
         [Log DEBUG "RyobiApi (WSS) parse update each item in %s: %s" [key; u]]
         w).
Proof.
  intros Hs Hg Hu. unfold skipped in Hs. unfold merge_key. rewrite Hs.
  apply group_path_inv in Hg.
  destruct Hg as (m & Hm & [(Hd & ->) | (Hd & Hl & ->)]);
    cbn; rewrite Hu; cbn; rewrite Hm; cbn; rewrite Hd; try rewrite Hl;
    reflexivity.
Qed.

Lemma merge_key_read_back update key gq ud f v w w' :
  skipped key = false -> group_path key = Some (map PStr gq) ->
  getitem update key = Ok (PDict ud) -> dict_get (HStr f) ud = Some v ->
  merge_key update key w = (Ok tt, w') ->
  at_path (garage_state (self w')) (gq ++ [f]) = Ok v.
Proof.
  intros Hs Hg Hu Hf H.
  rewrite (merge_key_group _ _ _ _ _ Hs Hg Hu) in H. cbn in H.
  apply (merge_items_read_back _ _ _ _ _ _ _ _ _ Hu Hf H).
  left. now apply dict_get_In with (v := v).
Qed.

Lemma merge_item_same_at q update key g item :
  apart q (g ++ [item]) = true ->
  keeps (same_at q) (merge_item update key g item).
Proof.
  intros A. unfold merge_item.
  apply keeps_bind_lift; eauto using same_at_refl, same_at_trans. intros u _.
  apply keeps_bind_lift; eauto using same_at_refl, same_at_trans. intros v _.
  now apply store_same_at.
Qed.

Lemma merge_key_same_at q update key :
  forallb (apart q) (entry_paths update key) = true ->
  keeps (same_at q) (merge_key update key).
Proof.
  intros A. rewrite forallb_forall in A.
  pose proof (same_at_refl q) as RR. pose proof (same_at_trans q) as RT.
  destruct (skipped key) eqn:Hs.
  { unfold merge_key. unfold skipped in Hs. rewrite Hs.
    apply (keeps_ret _ RR RT). }
  destruct (getitem update key) as [u | e |] eqn:Hu.
  2, 3: unfold merge_key; unfold skipped in Hs; rewrite Hs, Hu;
        intros w; reflexivity.
  destruct (group_path key) as [g |] eqn:Hg.
  - intros w. rewrite (merge_key_group _ _ _ _ _ Hs Hg Hu).
    match goal with
    | |- same_at q w (snd (?m ?w0)) =>
        apply (RT w w0); [reflexivity |];
        cut (keeps (same_at q) m); [intros K; apply K |]
    end.
    apply (keeps_bind_lift _ RR RT). intros items Hi.
    apply (keeps_for_In _ RR RT). intros item Hitem.
    apply merge_item_same_at. apply A.
    unfold entry_paths. rewrite Hs, Hg, Hu, Hi.
    now apply (in_map (fun i => g ++ [i])).
  - unfold merge_key. unfold skipped in Hs. rewrite Hs, Hu.
    unfold group_path in Hg.
    apply (keeps_bind_lift _ RR RT). intros u' _.
    apply (keeps_bind _ RR RT); [apply log_same_at | intros _].
    apply (keeps_bind_lift _ RR RT). intros m Hm. rewrite Hm in Hg.
    destruct (key_mentions "garageDoor" key); [discriminate |].
    destruct (key_mentions "garageLight" key); [discriminate |].
    apply log_same_at.
Qed.

Lemma merge_keys_read_back update key gq ud f v ks : forall w w',
  skipped key = false -> group_path key = Some (map PStr gq) ->
  getitem update key = Ok (PDict ud) -> dict_get (HStr f) ud = Some v ->
  (forall k', In k' ks ->
     k' = key \/
     forallb (apart (gq ++ [f])) (entry_paths update k') = true) ->
  for_ ks (merge_key update) w = (Ok tt, w') ->
  In key ks \/ at_path (garage_state (self w)) (gq ++ [f]) = Ok v ->
  at_path (garage_state (self w')) (gq ++ [f]) = Ok v.
Proof.
  induction ks as [| k ks IH]; intros w w' Hs Hg Hu Hf Hother H D.
  - injection H as <-. destruct D as [[] | D]. exact D.
  - cbn [for_ bind] in H.
    destruct (merge_key update k w) as [[[] | e |] w1] eqn:E1;
      try discriminate H.
    apply (IH w1 w' Hs Hg Hu Hf); [intros; apply Hother; now right | exact H |].
    assert (K : k = key ->
                at_path (garage_state (self w1)) (gq ++ [f]) = Ok v).
    { intros ->. eapply merge_key_read_back; eassumption. }
    destruct (Hother k (or_introl eq_refl)) as [-> | A]; [right; auto |].
    pose proof (merge_key_same_at _ _ _ A w) as S. rewrite E1 in S.
    unfold same_at in S; cbn [snd] in S.
    destruct D as [[-> | Hin] | D]; [right; auto | left; exact Hin |].
    right. now rewrite S.
Qed.

Lemma keys_In_entry update key u (k : string) :
  key = PStr k -> getitem update key = Ok u ->
  exists ks, keys update = Ok ks /\ In key ks.
Proof.
  intros -> H. apply getitem_str_inv in H. destruct H as (d & -> & Hd).
  exists (map fst d). split; [reflexivity |].
  destruct (dict_get_In _ _ _ Hd) as (k' & Hin & Hh).
  apply hash_key_str in Hh. now subst k'.
Qed.

Lemma group_path_str key g : group_path key = Some g -> exists k, key = PStr k.
Proof.
  intros H. apply group_path_inv in H. destruct H as (m & Hm & _).
  destruct key; try discriminate Hm. eauto.
Qed.

(** X10.  A field the update carries reads back from the state model.  For
    an update that names the device and whose merge returns: if the entry
    [key] names the group at [gq] (a door key names [module], a light key
    [garageLight.module]) and carries the value [v] for the field [f], and
    no other entry of the update writes to that field, or to something it
    lies in, then the state model reads [v] along [gq.f] afterwards. *)
Theorem merged_field_reads_back update w ks key gq ud f v :
  addressed update (self w) = true ->
  keys update = Ok ks ->
  skipped key = false ->
  group_path key = Some (map PStr gq) ->
  getitem update key = Ok (PDict ud) ->
  dict_get (HStr f) ud = Some v ->
  (forall k', In k' ks ->
     k' = key \/
     forallb (apart (gq ++ [f])) (entry_paths update k') = true) ->
  fst (parse_device_update update w) = Ok tt ->
  at_path (garage_state (self (snd (parse_device_update update w))))
    (gq ++ [f])
  = Ok v.
Proof.
  intros Ha Hks Hs Hg Hu Hf Hother Hok.
  rewrite (parse_device_update_accepted _ _ _ Ha Hks) in *.
  destruct (for_ ks (merge_key update) w) as [r w'] eqn:E.
  cbn [fst snd] in *. subst r.
  apply (merge_keys_read_back _ _ _ _ _ _ _ _ _ Hs Hg Hu Hf Hother E).
  left. destruct (group_path_str _ _ Hg) as (k & Hk).
  destruct (keys_In_entry _ _ _ _ Hk Hu) as (ks' & Hks' & Hin).
  congruence.
Qed.

Lemma merged_field_reads_back_witness :
  at_path
    (garage_state
       (self (snd (parse_device_update door_and_light_params watching_dev1))))
    (["doorState"] ++ ["value"])
  = Ok (PInt 1).
Proof.
  apply (merged_field_reads_back door_and_light_params watching_dev1
           [PStr "topic"; PStr "varName"; PStr "id";
            PStr "garageDoor_7.doorState"; PStr "garageLight_7.lightState"]
           (PStr "garageDoor_7.doorState") ["doorState"]
           [(PStr "value", PInt 1)] "value" (PInt 1));
    try reflexivity.
  intros k' [<- | [<- | [<- | [<- | [<- | []]]]]];
    first [left; reflexivity | right; reflexivity].
Defined.

(** ** Merging the same update again *)

Lemma strings_map gq : strings (map PStr gq) = gq.
Proof.
  induction gq as [| k gq IH]; [reflexivity |].
  unfold strings in *. cbn [map flat_map app]. now rewrite IH.
Qed.

Lemma group_path_strings key g :
  group_path key = Some g -> g = map PStr (strings g).
Proof.
  intros H. apply group_path_inv in H.
  destruct H as (m & _ & [(_ & ->) | (_ & _ & ->)]); reflexivity.
Qed.

(** The three keys the merge passes over name no group: they have no dot. *)
Lemma skipped_no_group key : skipped key = true -> group_path key = None.
Proof.
  unfold skipped, eq_str. destruct key; try discriminate.
  intros H. apply orb_prop in H. destruct H as [H | H];
    [apply orb_prop in H; destruct H as [H | H] |];
    apply String.eqb_eq in H; subst s; reflexivity.
Qed.

Lemma merge_key_ok update key w w' :
  merge_key update key w = (Ok tt, w') ->
  skipped key = true \/
  exists u m, getitem update key = Ok u /\ module_of key = Ok m.
Proof.
  destruct (skipped key) eqn:Hs; [now left |]. right.
  unfold merge_key in H. unfold skipped in Hs. rewrite Hs in H. cbn in H.
  destruct (getitem update key) as [u | |]; try discriminate H. cbn in H.
  destruct (module_of key) as [m | |]; try discriminate H.
  eauto.
Qed.

Lemma merge_keys_ok update ks : forall w w',
  for_ ks (merge_key update) w = (Ok tt, w') ->
  forall key, In key ks ->
    skipped key = true \/
    exists u m, getitem update key = Ok u /\ module_of key = Ok m.
Proof.
  induction ks as [| k ks IH]; intros w w' H key Hin; [destruct Hin |].
  cbn [for_ bind] in H.
  destruct (merge_key update k w) as [[[] | e |] w1] eqn:E1;
    try discriminate H.
  destruct Hin as [<- | Hin].
  - eapply merge_key_ok; eassumption.
  - eapply IH; eassumption.
Qed.

Lemma dict_get_key d (f : string) :
  In (PStr f) (map fst d) -> exists v, dict_get (HStr f) d = Some v.
Proof.
  induction d as [| [k0 v0] d IH]; cbn; [intros [] |].
  destruct (entry_has (HStr f) (k0, v0)) eqn:E; [eauto |].
  intros [-> | Hin]; [| auto].
  rewrite (entry_has_key (HStr f) (PStr f) v0 eq_refl) in E. discriminate.
Qed.

Section Again.

Variable update : pyval.
Variable gs1 : pyval.

(** Every field of every entry that names a group reads from [gs1] as the
    entry has it. *)
Hypothesis fields_read : forall key gq ud f v,
  group_path key = Some (map PStr gq) ->
  getitem update key = Ok (PDict ud) ->
  dict_get (HStr f) ud = Some v ->
  at_path gs1 (gq ++ [f]) = Ok v.

Lemma merge_items_again key gq ud items :
  group_path key = Some (map PStr gq) ->
  getitem update key = Ok (PDict ud) ->
  incl items (map fst ud) ->
  string_keyed (PDict ud) = true ->
  forall w, garage_state (self w) = gs1 ->
  exists w',
    for_ items (merge_item update key (map PStr gq)) w = (Ok tt, w') /\
    garage_state (self w') = gs1.
Proof using fields_read.
  intros Hg Hu Hincl Hsk.
  induction items as [| item items IH]; intros w Hw.
  - exists w. split; [reflexivity | exact Hw].
  - assert (Hin : In item (map fst ud)) by (apply Hincl; now left).
    assert (Hstr : exists f, item = PStr f).
    { cbn in Hsk. rewrite forallb_forall in Hsk.
      apply in_map_iff in Hin. destruct Hin as (kv & <- & Hkv).
      specialize (Hsk kv Hkv). destruct (fst kv); try discriminate. eauto. }
    destruct Hstr as (f & ->).
    destruct (dict_get_key _ _ Hin) as (v & Hv).
    pose proof (fields_read _ _ _ _ _ Hg Hu Hv) as Hread.
    assert (N : gq ++ [f] <> []) by (destruct gq; discriminate).
    pose proof (store_at_same _ _ _ N Hread) as Hstore.
    rewrite map_app in Hstore.
    cbn [for_ bind].
    rewrite (merge_item_run update key (map PStr gq) (PStr f) (PDict ud) v w Hu)
      by (rewrite getitem_dict, Hv; reflexivity).
    rewrite store_garage_state_run, Hw.
    change (map PStr gq ++ [PStr f]) with (map PStr gq ++ map PStr [f]).
    rewrite Hstore.
    apply IH; [intros i Hi; apply Hincl; now right | reflexivity].
Qed.

Lemma merge_key_again key :
  (skipped key = true \/
   exists u m, getitem update key = Ok u /\ module_of key = Ok m) ->
  (forall g, group_path key = Some g ->
     exists u, getitem update key = Ok u /\ string_keyed u = true) ->
  forall w, garage_state (self w) = gs1 ->
  exists w',
    merge_key update key w = (Ok tt, w') /\ garage_state (self w') = gs1.
Proof using fields_read.
  intros Hok Hobj w Hw.
  destruct (skipped key) eqn:Hs.
  { exists w. unfold merge_key. unfold skipped in Hs. rewrite Hs. auto. }
  destruct Hok as [Hok | (u & m & Hu & Hm)]; [discriminate |].
  destruct (group_path key) as [g |] eqn:Hg.
  - destruct (Hobj g eq_refl) as (u' & Hu' & Hsk).
    assert (u' = u) by congruence. subst u'.
    destruct u as [| | | | | | ud]; try discriminate Hsk.
    rewrite (merge_key_group _ _ _ _ _ Hs Hg Hu). cbn [bind lift iter].
    pose proof (group_path_strings _ _ Hg) as Eg.
    set (gq := strings g) in Eg. clearbody gq. subst g.
    apply (merge_items_again key gq ud (map fst ud) Hg Hu);
      [intros i Hi; exact Hi | exact Hsk | exact Hw].
  - unfold group_path in Hg. rewrite Hm in Hg.
    destruct (key_mentions "garageDoor" key) eqn:Hd; [discriminate |].
    destruct (key_mentions "garageLight" key) eqn:Hl; [discriminate |].
    unfold merge_key. unfold skipped in Hs. rewrite Hs. cbn.
    rewrite Hu. cbn. rewrite Hm. cbn. rewrite Hd, Hl.
    eexists. split; [reflexivity | exact Hw].
Qed.

Lemma merge_keys_again ks :
  (forall key, In key ks ->
     skipped key = true \/
     exists u m, getitem update key = Ok u /\ module_of key = Ok m) ->
  (forall key g, In key ks -> group_path key = Some g ->
     exists u, getitem update key = Ok u /\ string_keyed u = true) ->
  forall w, garage_state (self w) = gs1 ->
  exists w',
    for_ ks (merge_key update) w = (Ok tt, w') /\
    garage_state (self w') = gs1.
Proof using fields_read.
  induction ks as [| k ks IH]; intros Hok Hobj w Hw.
  - exists w. split; [reflexivity | exact Hw].
  - destruct (merge_key_again k (Hok k (or_introl eq_refl))
                (fun g => Hobj k g (or_introl eq_refl)) w Hw)
      as (w1 & E1 & Hw1).
    cbn [for_ bind]. rewrite E1.
    apply IH; [intros; apply Hok; now right
              | intros key g Hin; apply Hobj; now right | exact Hw1].
Qed.

End Again.

Lemma separate_other ks key gq f update :
  separate_groups ks -> In key ks ->
  group_path key = Some (map PStr gq) ->
  forall k', In k' ks ->
    k' = key \/
    forallb (apart (gq ++ [f])) (entry_paths update k') = true.
Proof.
  intros Hsep Hin Hg k' Hin'.
  unfold entry_paths.
  destruct (skipped k'); [now right |].
  destruct (group_path k') as [g' |] eqn:Hg'; [| now right].
  destruct (Hsep key k' _ g' Hin Hin' Hg Hg') as [-> | A]; [now left |].
  right. rewrite strings_map in A.
  destruct (getitem update k') as [u | |]; try reflexivity.
  destruct (iter u) as [items | |]; try reflexivity.
  apply forallb_forall. intros p Hp.
  apply in_map_iff in Hp. destruct Hp as (item & <- & _).
  now apply apart_app.
Qed.

Lemma parse_device_update_only_object update :
  keeps only_object (parse_device_update update).
Proof.
  pose proof only_object_refl. pose proof only_object_trans.
  unfold parse_device_update. frame_steps_with only_object_step.
Qed.

(** X11.  Merging an update a second time changes nothing.  For an update
    that names the device, whose entries naming a group are JSON objects
    (dicts with string keys) and name groups that do not overlap: if the
    merge returns, then merging the same update into the resulting state
    returns too and leaves the state model exactly as it was. *)
Theorem parse_device_update_idempotent update w ks :
  addressed update (self w) = true ->
  keys update = Ok ks ->
  (forall key g, In key ks -> group_path key = Some g ->
     exists u, getitem update key = Ok u /\ string_keyed u = true) ->
  separate_groups ks ->
  fst (parse_device_update update w) = Ok tt ->
  let w1 := snd (parse_device_update update w) in
  fst (parse_device_update update w1) = Ok tt /\
  garage_state (self (snd (parse_device_update update w1)))
  = garage_state (self w1).
Proof.
  intros Ha Hks Hobj Hsep Hok. cbn zeta.
  assert (Ha1 : addressed update
                  (self (snd (parse_device_update update w))) = true).
  { destruct (parse_device_update_only_object update w)
      as (_ & _ & _ & _ & _ & _ & Hd & _).
    unfold addressed in *. now rewrite Hd. }
  rewrite (parse_device_update_accepted _ _ _ Ha1 Hks).
  rewrite (parse_device_update_accepted _ _ _ Ha Hks) in *.
  destruct (for_ ks (merge_key update) w) as [r w1] eqn:E.
  cbn [fst snd] in *. subst r.
  destruct (merge_keys_again update (garage_state (self w1))) with (ks := ks) (w := w1)
    as (w2 & E2 & Hw2).
  - intros key gq ud f v Hg Hu Hf.
    destruct (group_path_str _ _ Hg) as (k & Hk).
    destruct (keys_In_entry _ _ _ _ Hk Hu) as (ks' & Hks' & Hin).
    assert (ks' = ks) by congruence. subst ks'.
    assert (Hs : skipped key = false).
    { destruct (skipped key) eqn:Hs; [| reflexivity].
      rewrite (skipped_no_group _ Hs) in Hg. discriminate. }
    apply (merge_keys_read_back update key gq ud f v ks w w1 Hs Hg Hu Hf);
      [| exact E | now left].
    now apply separate_other.
  - eapply merge_keys_ok; eassumption.
  - exact Hobj.
  - reflexivity.
  - rewrite E2. auto.
Qed.

Lemma parse_device_update_idempotent_witness :
  let w1 := snd (parse_device_update door_and_light_params watching_dev1) in
  fst (parse_device_update door_and_light_params w1) = Ok tt /\
  garage_state (self (snd (parse_device_update door_and_light_params w1)))
  = garage_state (self w1).
Proof.
  apply (parse_device_update_idempotent door_and_light_params watching_dev1
           [PStr "topic"; PStr "varName"; PStr "id";
            PStr "garageDoor_7.doorState"; PStr "garageLight_7.lightState"]);
    try reflexivity.
  - intros key g [<- | [<- | [<- | [<- | [<- | []]]]]] Hg;
      try discriminate Hg; eexists; split; reflexivity.
  - intros k k' g g' [<- | [<- | [<- | [<- | [<- | []]]]]] Hin' Hg;
      try discriminate Hg;
      destruct Hin' as [<- | [<- | [<- | [<- | [<- | []]]]]]; intros Hg';
      try discriminate Hg';
      injection Hg as <-; injection Hg' as <-;
      first [left; reflexivity | right; reflexivity].
Defined.

(** ** Entries the merge cannot place *)

Lemma merge_key_skipped update key w :
  skipped key = true -> merge_key update key w = (Ok tt, w).
Proof. intros H. unfold merge_key. unfold skipped in H. now rewrite H. Qed.

Lemma for_skipped update pre : forall l w,
  forallb skipped pre = true ->
  for_ (pre ++ l) (merge_key update) w = for_ l (merge_key update) w.
Proof.
  induction pre as [| k pre IH]; intros l w H; [reflexivity |].
  cbn in H. apply andb_prop in H. destruct H as [Hk Hpre].
  cbn [app for_ bind]. rewrite (merge_key_skipped _ _ _ Hk). now apply IH.
Qed.

Lemma for_skipped_all update ks w :
  forallb skipped ks = true -> for_ ks (merge_key update) w = (Ok tt, w).
Proof.
  intros H. rewrite <- (app_nil_r ks). now rewrite for_skipped.
Qed.

Lemma group_unusable_store g m item v e :
  group_unusable g m = Some e ->
  store_at g ([PStr m] ++ [item]) v = Raise e.
Proof.
  unfold group_unusable. cbn [app store_at]. unfold update_at.
  destruct (getitem g m) as [grp | e' |]; [| now intros [= ->] | discriminate].
  destruct grp; try discriminate; intros [= <-]; reflexivity.
Qed.

(** X12.  A door entry needs its group in the state model.  For an update
    that names the device, whose first key that is not passed over
    mentions [garageDoor] and carries at least one field: when the group
    the key names is missing from the state model, or is there as a scalar
    ([None], a bool, a number, a string, as [doorPercentOpen] is), the
    merge raises (the [KeyError] of the missing group, [TypeError] for a
    scalar) after logging the entry, the object unchanged and the entries
    after it not looked at. *)
Theorem door_entry_needs_group update w pre key post m u item items v e :
  addressed update (self w) = true ->
  keys update = Ok (pre ++ key :: post) ->
  forallb skipped pre = true ->
  skipped key = false ->
  key_mentions "garageDoor" key = true ->
  module_of key = Ok m ->
  getitem update key = Ok u ->
  iter u = Ok (item :: items) ->
  getitem u item = Ok v ->
  group_unusable (garage_state (self w)) m = Some e ->
  parse_device_update update w = (Raise e, with_out [entry_logged key u] w).
Proof.
  intros Ha Hks Hpre Hs Hd Hm Hu Hi Hv Hg.
  rewrite (parse_device_update_accepted _ _ _ Ha Hks).
  rewrite (for_skipped _ _ _ _ Hpre). cbn [for_ bind].
  assert (Hgp : group_path key = Some [PStr m])
    by (unfold group_path; now rewrite Hm, Hd).
  rewrite (merge_key_group _ _ _ _ _ Hs Hgp Hu), Hi. cbn [bind lift for_].
  rewrite (merge_item_run _ _ _ _ _ _ _ Hu Hv), store_garage_state_run.
  cbn [self with_out].
  now rewrite (group_unusable_store _ _ item v _ Hg).
Qed.

Lemma door_entry_needs_group_witness :
  parse_device_update door_percent_params watching_dev1
  = (Raise TypeError,
     with_out
       [entry_logged (PStr "garageDoor_7.doorPercentOpen")
          (dict [("value", PInt 50)])]
       watching_dev1).
Proof.
  apply (door_entry_needs_group door_percent_params watching_dev1
           [PStr "topic"; PStr "varName"; PStr "id"]
           (PStr "garageDoor_7.doorPercentOpen") []
           "doorPercentOpen" (dict [("value", PInt 50)])
           (PStr "value") [] (PInt 50) TypeError);
    reflexivity.
Defined.

Lemma merge_key_unknown update key u m w :
  skipped key = false -> getitem update key = Ok u -> module_of key = Ok m ->
  key_mentions "garageDoor" key = false ->
  key_mentions "garageLight" key = false ->
  merge_key update key w
  = (Ok tt, with_out [entry_logged key u; module_unknown key] w).
Proof.
  intros Hs Hu Hm Hd Hl. unfold merge_key. unfold skipped in Hs.
  rewrite Hs. cbn. rewrite Hu. cbn. rewrite Hm. cbn. rewrite Hd, Hl.
  cbn. unfold with_out; cbn. now rewrite <- app_assoc.
Qed.

(** X13.  An entry for a module of another kind is logged and dropped.  For
    an update that names the device and in which every key is either passed
    over or has a dot and mentions neither [garageDoor] nor [garageLight]:
    the merge returns, the object is unchanged, and the record of events
    gains, for each such key in order, the record of the entry and an
    error record naming the key. *)
Theorem unknown_modules_dropped update w ks :
  addressed update (self w) = true ->
  keys update = Ok ks ->
  (forall key, In key ks ->
     skipped key = true \/
     (exists u m, getitem update key = Ok u /\ module_of key = Ok m) /\
     key_mentions "garageDoor" key = false /\
     key_mentions "garageLight" key = false) ->
  exists us,
    parse_device_update update w
    = (Ok tt,
       with_out
         (flat_map (fun ku => [entry_logged (fst ku) (snd ku);
                               module_unknown (fst ku)]) us)
         w) /\
    map fst us = filter (fun key => negb (skipped key)) ks /\
    forall ku, In ku us -> getitem update (fst ku) = Ok (snd ku).
Proof.
  intros Ha Hks Hall.
  rewrite (parse_device_update_accepted _ _ _ Ha Hks).
  clear Ha Hks. revert w.
  induction ks as [| k ks IH]; intros w.
  - exists []. cbn. rewrite with_out_nil.
    split; [reflexivity |]. split; [reflexivity |]. intros ku [].
  - destruct (Hall k (or_introl eq_refl))
      as [Hk | ((u & m & Hu & Hm) & Hd & Hl)].
    + destruct (IH (fun key Hin => Hall key (or_intror Hin)) w)
        as (us & E & Hus & Hget).
      exists us. cbn [for_ bind filter]. rewrite (merge_key_skipped _ _ _ Hk).
      rewrite Hk. cbn [negb]. auto.
    + assert (Hs : skipped k = false).
      { destruct (skipped k) eqn:Hs; [| reflexivity].
        pose proof (skipped_no_group _ Hs) as Hg. unfold group_path in Hg.
        unfold skipped, eq_str in Hs. destruct k; try discriminate Hs.
        apply orb_prop in Hs. destruct Hs as [Hs | Hs];
          [apply orb_prop in Hs; destruct Hs as [Hs | Hs] |];
          apply String.eqb_eq in Hs; subst s; discriminate Hm. }
      destruct (IH (fun key Hin => Hall key (or_intror Hin))
                  (with_out [entry_logged k u; module_unknown k] w))
        as (us & E & Hus & Hget).
      exists ((k, u) :: us). cbn [for_ bind filter].
      rewrite (merge_key_unknown _ _ _ _ _ Hs Hu Hm Hd Hl), E, Hs.
      cbn [negb map fst flat_map snd]. rewrite with_out_app.
      split; [reflexivity |]. split; [now rewrite Hus |].
      intros ku [<- | Hin]; [exact Hu | now apply Hget].
Qed.

Lemma unknown_modules_dropped_witness :
  exists us,
    parse_device_update battery_params watching_dev1
    = (Ok tt,
       with_out
         (flat_map (fun ku => [entry_logged (fst ku) (snd ku);
                               module_unknown (fst ku)]) us)
         watching_dev1) /\
    map fst us
    = filter (fun key => negb (skipped key))
        [PStr "topic"; PStr "varName"; PStr "id";
         PStr "backupCharger_8.chargeLevel"] /\
    forall ku, In ku us -> getitem battery_params (fst ku) = Ok (snd ku).
Proof.
  apply (unknown_modules_dropped battery_params watching_dev1
           [PStr "topic"; PStr "varName"; PStr "id";
            PStr "backupCharger_8.chargeLevel"]);
    try reflexivity.
  intros key [<- | [<- | [<- | [<- | []]]]];
    first [left; reflexivity
          | right; split; [do 2 eexists; split; reflexivity
                          | split; reflexivity]].
Defined.

(** A string without a dot is one piece. *)
Lemma split_dot_no_dot k : contains "." k = false -> split_dot k = [k].
Proof.
  induction k as [| c k IH]; [reflexivity |].
  cbn [contains split_dot]. intros H. apply orb_false_elim in H.
  destruct H as [Hp Hc]. rewrite (IH Hc).
  cbn [String.prefix] in Hp.
  destruct (Ascii.eqb c ".") eqn:E; [| reflexivity].
  apply Ascii.eqb_eq in E. subst c.
  destruct (ascii_dec "." "."); [| contradiction].
  destruct k; discriminate Hp.
Qed.

(** X14.  A key without a dot stops the merge.  For an update that names
    the device: when the first key that is not [topic], [varName] or [id]
    is a string without a dot, whatever it mentions, the merge raises
    [IndexError] after logging the entry; the object is unchanged and the
    entries after it are not merged. *)
Theorem key_without_dot_raises update w pre (k : string) post u :
  addressed update (self w) = true ->
  keys update = Ok (pre ++ PStr k :: post) ->
  forallb skipped pre = true ->
  skipped (PStr k) = false ->
  contains "." k = false ->
  getitem update (PStr k) = Ok u ->
  parse_device_update update w
  = (Raise IndexError, with_out [entry_logged (PStr k) u] w).
Proof.
  intros Ha Hks Hpre Hs Hdot Hu.
  rewrite (parse_device_update_accepted _ _ _ Ha Hks).
  rewrite (for_skipped _ _ _ _ Hpre). cbn [for_ bind].
  unfold merge_key. unfold skipped in Hs. rewrite Hs. cbn. rewrite Hu. cbn.
  now rewrite (split_dot_no_dot _ Hdot).
Qed.

Lemma key_without_dot_raises_witness :
  parse_device_update stamped_params watching_dev1
  = (Raise IndexError,
     with_out [entry_logged (PStr "timestamp") (PInt 1700000000)]
       watching_dev1).
Proof.
  apply (key_without_dot_raises stamped_params watching_dev1
           [PStr "topic"; PStr "varName"; PStr "id"] "timestamp"
           [PStr "garageDoor_7.doorState"]);
    reflexivity.
Defined.

(** ** The availability flag *)

Lemma scalar_no_store s p v g' :
  scalar s = true -> p <> [] -> store_at s p v <> Ok g'.
Proof.
  intros Hs Hp H. destruct p as [| item rest]; [congruence |].
  destruct rest as [| r rest].
  - cbn in H. destruct s; discriminate.
  - change (update_at s item (fun grp => store_at grp (r :: rest) v) = Ok g')
      in H.
    apply update_at_inv in H. destruct H as (grp & grp' & _ & _ & Hset).
    destruct s; discriminate.
Qed.

(** A store two or more keys deep leaves a scalar held at the top where it
    is. *)
Lemma store_deep_keeps_scalar g k' item rest v g' (k : string) s :
  getitem g k = Ok s -> scalar s = true ->
  store_at g (k' :: item :: rest) v = Ok g' ->
  getitem g' k = Ok s.
Proof.
  intros Hg Hs H.
  change (update_at g k' (fun grp => store_at grp (item :: rest) v) = Ok g')
    in H.
  apply update_at_inv in H. destruct H as (grp & grp' & Hk' & Hst & Hset).
  destruct (other_key k k') eqn:Hk.
  - now rewrite (setitem_other _ _ _ _ _ Hset Hk).
  - assert (Ek : k' = PStr k).
    { unfold other_key in Hk.
      destruct (hash_key k') as [h |] eqn:E; [| discriminate Hk].
      destruct (hkey_eq_dec (HStr k) h) as [<- |]; [| discriminate Hk].
      now apply hash_key_str. }
    subst k'. assert (grp = s) by congruence. subst grp.
    exfalso. eapply scalar_no_store; [exact Hs | | exact Hst]. discriminate.
Qed.

Lemma available_kept_refl w : available_kept w w.
Proof. intros b H. exact H. Qed.

Lemma available_kept_trans a b c :
  available_kept a b -> available_kept b c -> available_kept a c.
Proof. intros H1 H2 x H. apply H2, H1, H. Qed.

Lemma log_available_kept lv fmt args : keeps available_kept (log lv fmt args).
Proof. intros w b H. exact H. Qed.

Lemma emit_available_kept e : keeps available_kept (emit e).
Proof. intros w b H. exact H. Qed.

Lemma set_socket_state_available_kept s :
  keeps available_kept (modify_self (set_socket_state s)).
Proof. intros w b H. exact H. Qed.

Lemma set_sent_counter_available_kept n :
  keeps available_kept (modify_self (set_sent_counter n)).
Proof. intros w b H. exact H. Qed.

Lemma store_deep_available_kept k' item rest v :
  keeps available_kept
    (store_garage_state (fun g => store_at g (k' :: item :: rest) v)).
Proof.
  intros w b H. rewrite store_garage_state_run.
  destruct (store_at (garage_state (self w)) (k' :: item :: rest) v)
    as [g' | |] eqn:E; cbn; try exact H.
  eapply store_deep_keeps_scalar; [exact H | reflexivity | exact E].
Qed.

Ltac available_step :=
  first
    [ apply log_available_kept
    | apply emit_available_kept
    | apply set_socket_state_available_kept
    | apply set_sent_counter_available_kept
    | apply (store_deep_available_kept (PStr _) _ [])
    | apply (store_deep_available_kept (PStr "garageLight") (PStr _) [_]) ].

Lemma dispatch_available_kept cb : keeps available_kept (dispatch cb).
Proof.
  pose proof available_kept_refl. pose proof available_kept_trans.
  assert (K : keeps available_kept (handler cb)).
  { destruct cb; cbn [handler];
      unfold on_open, on_close, on_error, on_message, on_pong, raise,
        parse_device_update, _call_subscriber;
      frame_steps_with available_step. }
  intros w. unfold dispatch. specialize (K w).
  destruct (handler cb w) as [[[] | e |] w1]; cbn [snd] in *; try exact K.
  destruct (reports (env w1)); cbn [snd]; [| exact K].
  eapply available_kept_trans; [exact K |].
  assert (K' : keeps available_kept (on_error (PStr (exn_name e)))).
  { unfold on_error. frame_steps_with available_step. }
  apply K'.
Qed.

Lemma is_available_run w v :
  getitem (garage_state (self w)) "is_available" = Ok v ->
  is_available w = (Ok v, w).
Proof.
  intros H. unfold is_available; cbn.
  rewrite (getitem_str_in _ _ _ H); cbn. now rewrite H.
Qed.

Lemma is_available_inv w (b : bool) :
  fst (is_available w) = Ok (PBool b) ->
  getitem (garage_state (self w)) "is_available" = Ok (PBool b).
Proof.
  unfold is_available; cbn.
  destruct (str_in "is_available" (garage_state (self w))) as [[|] | |];
    cbn; try discriminate.
  destruct (getitem (garage_state (self w)) "is_available"); cbn; congruence.
Qed.

(** X15.  Nothing the socket reports takes the availability flag back.
    Once [is_available] answers a bool (it answers [True] from the first
    successful connection on), it answers the same bool after any sequence
    of socket callbacks: a close, an error, a frame of any content, updates
    included, leave it as it is. *)
Theorem is_available_sticks cbs w (b : bool) :
  fst (is_available w) = Ok (PBool b) ->
  fst (is_available (snd (for_ cbs dispatch w))) = Ok (PBool b).
Proof.
  intros H. apply is_available_inv in H.
  assert (K : keeps available_kept (for_ cbs dispatch)).
  { apply keeps_for_;
      [apply available_kept_refl | apply available_kept_trans
      | apply dispatch_available_kept]. }
  now rewrite (is_available_run _ _ (K w b H)).
Qed.

Lemma is_available_sticks_witness :
  fst (is_available
         (snd (for_ [OnMessage (door_update "dev1");
                     OnError (PStr "Connection reset");
                     OnClose PNone PNone] dispatch once_connected)))
  = Ok (PBool true).
Proof.
  apply (is_available_sticks
           [OnMessage (door_update "dev1"); OnError (PStr "Connection reset");
            OnClose PNone PNone] once_connected true).
  reflexivity.
Defined.

(** ** What a successful connection leaves behind *)

(** A sequence that returns has gone through a first step that returned. *)
Lemma bind_Ok_inv {A B} (m : M A) (k : A -> M B) w (b : B) w' :
  bind m k w = (Ok b, w') ->
  exists a w1, m w = (Ok a, w1) /\ k a w1 = (Ok b, w').
Proof.
  unfold bind. destruct (m w) as [[a | e |] w1]; try discriminate. eauto.
Qed.

Lemma keeps_run {A} (R : world -> world -> Prop) (m : M A) w r w' :
  keeps R m -> m w = (r, w') -> R w w'.
Proof. intros K E. specialize (K w). now rewrite E in K. Qed.

(** A loop that returns a value has returned it from one of its rounds. *)
Lemma for_each_Some_inv {I A} (body : I -> M (option A)) l : forall w a w',
  (forall i, keeps extends (body i)) ->
  for_each l body w = (Ok (Some a), w') ->
  exists i w0, extends w w0 /\ body i w0 = (Ok (Some a), w').
Proof.
  induction l as [| i l IH]; intros w a w' K H; [discriminate H |].
  rewrite for_each_cons in H.
  destruct (body i w) as [[[a0 |] | e |] w1] eqn:E; try discriminate H.
  - exists i, w. split; [apply extends_refl | congruence].
  - destruct (IH w1 a w' K H) as (j & w0 & X & Y).
    exists j, w0. split; [| exact Y].
    eapply extends_trans; [| exact X]. eapply keeps_run; [apply K | exact E].
Qed.

Lemma subscribe_to_notifications_returns publish d_id w b w' :
  (forall m, keeps extends (publish m)) ->
  subscribe_to_notifications publish d_id w = (Ok b, w') ->
  exists w1 g',
    extends w w1 /\
    setitem (garage_state (self w1)) "is_available" (PBool true) = Ok g' /\
    w' = with_out (notified (subscriber (self w1)))
           (with_self (set_garage_state g') w1).
Proof.
  intros Kp H. unfold subscribe_to_notifications in H.
  apply bind_Ok_inv in H. destruct H as ([] & w1 & E1 & H).
  apply bind_Ok_inv in H. destruct H as (r & w2 & E2 & H).
  apply bind_Ok_inv in H. destruct H as ([] & w3 & E3 & H).
  apply bind_Ok_inv in H. destruct H as ([] & w4 & E4 & H).
  injection H as _ <-.
  rewrite store_garage_state_run in E3.
  destruct (setitem (garage_state (self w2)) "is_available" (PBool true))
    as [g' | |] eqn:Es; try discriminate E3.
  injection E3 as <-. apply _call_subscriber_returns in E4. subst w4.
  exists w2, g'. split; [| split; [exact Es | reflexivity]].
  eapply extends_trans.
  - eapply keeps_run; [apply log_extends | exact E1].
  - eapply keeps_run; [apply Kp | exact E2].
Qed.

Lemma connect_wss_with_returns_true publish w w' :
  (forall m, keeps extends (publish m)) ->
  sock_eqb (socket_state (self w)) SOCK_CONNECTED = false ->
  connect_wss_with publish w = (Ok true, w') ->
  exists w1 g',
    extends w w1 /\
    setitem (garage_state (self w1)) "is_available" (PBool true) = Ok g' /\
    w' = with_out (notified (subscriber (self w1)))
           (with_self (set_garage_state g') w1).
Proof.
  intros Kp Hs H. unfold connect_wss_with in H.
  apply bind_Ok_inv in H. destruct H as (c & w0 & E0 & H).
  injection E0 as <- <-. rewrite Hs in H.
  apply bind_Ok_inv in H. destruct H as ([] & w1 & E1 & H).
  apply bind_Ok_inv in H. destruct H as (ok & w2 & E2 & H).
  destruct ok; [| discriminate H].
  apply bind_Ok_inv in H. destruct H as ([] & w3 & E3 & H).
  apply bind_Ok_inv in H. destruct H as (r & w4 & E4 & H).
  destruct r as [b |]; [| discriminate H]. injection H as -> <-.
  assert (X3 : extends w w3).
  { eapply extends_trans; [eapply keeps_run; [apply log_extends | exact E1] |].
    eapply extends_trans;
      [eapply keeps_run; [apply open_wss_thread_extends | exact E2] |].
    eapply keeps_run; [apply log_extends | exact E3]. }
  assert (Kauth : keeps extends (authenticate_with_server publish)).
  { unfold authenticate_with_server.
    extends_steps_with ltac:(apply Kp). }
  assert (Ksub : forall d, keeps extends (subscribe_to_notifications publish d)).
  { intros d. unfold subscribe_to_notifications.
    extends_steps_with
      ltac:(first [apply Kp | apply _call_subscriber_extends]). }
  apply for_each_Some_inv in E4.
  2: { intros i.
       extends_steps_with
         ltac:(first [ apply Kauth | apply Ksub
                     | apply asyncio_sleep_extends ]). }
  destruct E4 as (i & w5 & X5 & H).
  apply bind_Ok_inv in H. destruct H as ([] & w6 & E6 & H).
  apply bind_Ok_inv in H. destruct H as (c & w7 & E7 & H).
  injection E7 as <- <-.
  destruct (sock_eqb (socket_state (self w6)) SOCK_CONNECTED).
  - apply bind_Ok_inv in H. destruct H as ([] & w8 & E8 & H).
    apply bind_Ok_inv in H. destruct H as ([] & w9 & E9 & H).
    apply bind_Ok_inv in H. destruct H as (c & w10 & E10 & H).
    injection E10 as <- <-.
    apply bind_Ok_inv in H. destruct H as (b & w11 & E11 & H).
    injection H as <-.
    destruct (subscribe_to_notifications_returns _ _ _ _ _ Kp E11)
      as (w12 & g' & X12 & Hset & Hw).
    exists w12, g'. split; [| split; [exact Hset | exact Hw]].
    eapply extends_trans; [exact X3 |].
    eapply extends_trans; [exact X5 |].
    eapply extends_trans; [eapply keeps_run; [apply log_extends | exact E6] |].
    eapply extends_trans; [eapply keeps_run; [apply Kauth | exact E8] |].
    eapply extends_trans;
      [eapply keeps_run; [apply asyncio_sleep_extends | exact E9] |].
    exact X12.
  - apply bind_Ok_inv in H. destruct H as ([] & w8 & E8 & H).
    discriminate H.
Qed.

(** X16.  A connection that succeeds marks the device available and tells
    the subscribers.  When [connect_wss] is called with the socket not
    connected and returns [True], then on return [is_available] answers
    [True], and the last thing recorded is the notification of the
    subscribers, each called once, in order. *)
Theorem connect_wss_marks_available fuel w :
  sock_eqb (socket_state (self w)) SOCK_CONNECTED = false ->
  fst (connect_wss fuel w) = Ok true ->
  let w' := snd (connect_wss fuel w) in
  fst (is_available w') = Ok (PBool true) /\
  exists l, since w w' = l ++ notified (subscriber (self w')).
Proof.
  intros Hs Hok. cbn zeta.
  destruct (connect_wss fuel w) as [r w'] eqn:E. cbn [fst snd] in *. subst r.
  destruct (connect_wss_with_returns_true _ _ _ (publish_wss_extends fuel)
              Hs E) as (w1 & g' & X & Hset & ->).
  split.
  - rewrite (is_available_run _ (PBool true)); [reflexivity |].
    cbn. now apply getitem_setitem with (g := garage_state (self w1)).
  - exists (since w w1).
    set (w2 := with_self (set_garage_state g') w1).
    assert (X2 : extends w w2) by (destruct X as [l Hl]; exists l; exact Hl).
    assert (X3 : extends w2 (with_out (notified (subscriber (self w1))) w2))
      by (eexists; reflexivity).
    rewrite (since_trans _ _ _ X2 X3), since_with_out.
    reflexivity.
Qed.

Lemma connect_wss_marks_available_witness :
  let w' := snd (connect_wss 1 (closed_dev1 welcoming_server)) in
  fst (is_available w') = Ok (PBool true) /\
  exists l, since (closed_dev1 welcoming_server) w'
            = l ++ notified (subscriber (self w')).
Proof.
  apply (connect_wss_marks_available 1 (closed_dev1 welcoming_server));
    reflexivity.
Defined.

(** ** The door state after an update *)

Lemma on_message_update message params w :
  carries_update message = true ->
  getitem message "params" = Ok params ->
  on_message (Json message) w
  = bind (parse_device_update params) (fun _ => _call_subscriber)
      (with_out
         [Log DEBUG "RyobiApi (WSS) recieved garage door update message. " []]
         (with_out [Log DEBUG "RyobiApi (WSS) Msg received %s" [message]]
            (with_self (set_sent_counter 0) w))).
Proof.
  intros C Hp. unfold carries_update in C.
  destruct (str_in "method" message) as [[|] | |] eqn:E1; try discriminate.
  destruct (getitem message "method") as [m | |] eqn:E2; try discriminate.
  destruct (str_in "params" message) as [[|] | |] eqn:E4; try discriminate.
  unfold on_message, json_loads. cbn. rewrite E1. cbn. rewrite E2. cbn.
  rewrite C. cbn. rewrite E4. cbn. rewrite Hp. reflexivity.
Qed.

Lemma merge_keys_same_at q update ks :
  (forall k, In k ks -> forallb (apart q) (entry_paths update k) = true) ->
  keeps (same_at q) (for_ ks (merge_key update)).
Proof.
  intros H. apply keeps_for_In;
    [apply same_at_refl | apply same_at_trans |].
  intros k Hk. apply merge_key_same_at. now apply H.
Qed.

Lemma apart_longer q : forall p q2,
  apart q p = true -> apart (q ++ q2) p = true.
Proof.
  intros p q2 H. rewrite <- (app_nil_r p). now apply apart_app.
Qed.

Lemma dict_get_None_other h d k :
  dict_get h d = None -> In k (map fst d) -> hash_key k <> Some h.
Proof.
  induction d as [| [k0 v0] d IH]; cbn; [intros _ [] |].
  destruct (entry_has h (k0, v0)) eqn:E; [discriminate |].
  intros Hn [<- | Hin] Hh; [| now apply (IH Hn Hin)].
  rewrite (entry_has_key _ _ v0 Hh) in E. discriminate.
Qed.

Lemma other_key_absent (f : string) d k :
  dict_get (HStr f) d = None -> In k (map fst d) -> other_key f k = true.
Proof.
  intros Hn Hin. pose proof (dict_get_None_other _ _ _ Hn Hin) as Hne.
  unfold other_key. destruct (hash_key k) as [h |]; [| reflexivity].
  destruct (hkey_eq_dec (HStr f) h) as [<- |]; [congruence | reflexivity].
Qed.

(** The derived state, from what the state model reads at the value and at
    the table of the door state. *)
Lemma current_state_by_paths w enum v s :
  at_path (garage_state (self w)) ["doorState"; "enum"] = Ok enum ->
  at_path (garage_state (self w)) ["doorState"; "value"] = Ok v ->
  getitem enum v = Ok s ->
  fst (current_state w) = Ok s.
Proof.
  cbn [at_path]. intros He Hv Hs.
  destruct (getitem (garage_state (self w)) "doorState") as [dsv | |] eqn:Hds;
    try discriminate.
  apply getitem_str_inv in Hds. destruct Hds as (d & Hg & Hd).
  destruct (getitem dsv "enum") as [enum' | |] eqn:He'; try discriminate.
  injection He as ->.
  apply getitem_str_inv in He'. destruct He' as (ds & -> & He').
  destruct (getitem (PDict ds) "value") as [v' | |] eqn:Hv'; try discriminate.
  injection Hv as ->. rewrite getitem_dict in Hv'.
  destruct (dict_get (HStr "value") ds) as [v' |] eqn:Hv2; try discriminate.
  injection Hv' as ->.
  now rewrite (current_state_run w d ds enum v s Hg Hd He' Hv2 Hs).
Qed.

(** X17.  After an update of the door state has gone through, the derived
    state is the table entry at the new value.  For a frame that is an
    update notification for the device, with an entry for the [doorState]
    group that carries the value [v] and no table, no other entry writing
    into that group: if the state model holds the table [enum] and [on_message]
    returns, the next read of [current_state] gives [enum[v]]. *)
Theorem update_then_current_state message params w ks key ud v enum s :
  carries_update message = true ->
  getitem message "params" = Ok params ->
  addressed params (self w) = true ->
  keys params = Ok ks ->
  skipped key = false ->
  group_path key = Some [PStr "doorState"] ->
  getitem params key = Ok (PDict ud) ->
  dict_get (HStr "value") ud = Some v ->
  dict_get (HStr "enum") ud = None ->
  (forall k', In k' ks ->
     k' = key \/
     forallb (apart ["doorState"]) (entry_paths params k') = true) ->
  at_path (garage_state (self w)) ["doorState"; "enum"] = Ok enum ->
  getitem enum v = Ok s ->
  fst (on_message (Json message) w) = Ok tt ->
  fst (current_state (snd (on_message (Json message) w))) = Ok s.
Proof.
  intros C Hp Ha Hks Hs Hg Hu Hv Hne Hother Henum Hget Hok.
  rewrite (on_message_update _ _ _ C Hp) in *.
  set (w0 := with_out _ (with_out _ (with_self _ w))) in *.
  assert (Ha0 : addressed params (self w0) = true) by exact Ha.
  cbn [bind] in *.
  rewrite (parse_device_update_accepted _ _ _ Ha0 Hks) in *.
  destruct (for_ ks (merge_key params) w0) as [[[] | e |] w1] eqn:E;
    try discriminate Hok.
  rewrite _call_subscriber_run. cbn [snd].
  apply (current_state_by_paths _ enum v s); cbn [self with_out]; [| | exact Hget].
  - (* the table is where it was *)
    assert (K : keeps (same_at ["doorState"; "enum"])
                  (for_ ks (merge_key params))).
    { apply merge_keys_same_at. intros k Hk.
      destruct (Hother k Hk) as [-> | A].
      - unfold entry_paths. rewrite Hs, Hg, Hu. cbn [iter].
        apply forallb_forall. intros p Hin.
        apply in_map_iff in Hin. destruct Hin as (item & <- & Hitem).
        change (apart (["doorState"] ++ ["enum"])
                  (map PStr ["doorState"] ++ [item]) = true).
        rewrite apart_fields. now apply (other_key_absent "enum" ud).
      - rewrite forallb_forall in A. apply forallb_forall. intros p Hin.
        apply (apart_longer ["doorState"] p ["enum"]). now apply A. }
    pose proof (keeps_run _ _ _ _ _ K E) as S. unfold same_at in S.
    rewrite S. exact Henum.
  - apply (merge_keys_read_back params key ["doorState"] ud "value" v ks w0 w1
             Hs Hg Hu Hv); [| exact E |].
    + intros k' Hk'. destruct (Hother k' Hk') as [-> | A]; [now left |].
      right. rewrite forallb_forall in A. apply forallb_forall. intros p Hin.
      apply (apart_longer ["doorState"] p ["value"]). now apply A.
    + left. destruct (group_path_str _ _ Hg) as (k & Hk).
      destruct (keys_In_entry _ _ _ _ Hk Hu) as (ks' & Hks' & Hin).
      congruence.
Qed.

Lemma update_then_current_state_witness :
  fst (current_state (snd (on_message (Json door_frame) watching_dev1)))
  = Ok (PStr "Open").
Proof.
  apply (update_then_current_state door_frame door_params watching_dev1
           [PStr "topic"; PStr "varName"; PStr "id";
            PStr "garageDoor_7.doorState"]
           (PStr "garageDoor_7.doorState") [(PStr "value", PInt 1)] (PInt 1)
           (PList [PStr "Closed"; PStr "Open"; PStr "Closing";
                   PStr "Opening"; PStr "Fault"]));
    try reflexivity.
  intros k' [<- | [<- | [<- | [<- | []]]]];
    first [left; reflexivity | right; reflexivity].
Defined.

(** ** The flags of the device *)

(** Each flag reads the stored state and nothing else. *)
Lemma flag_by_path (name : string) yes (m : M pyval) w :
  (forall w,
     m w = bind get_self (fun c =>
             bind (lift (getitem (garage_state c) "doorState")) (fun ds =>
               bind (lift (getitem ds "state")) (fun s =>
                 if eq_str s name then ret yes else ret PNone))) w) ->
  m w
  = (match at_path (garage_state (self w)) ["doorState"; "state"] with
     | Ok s => Ok (flag name yes s)
     | Raise e => Raise e
     | Fuel => Fuel
     end, w).
Proof.
  intros Hm. rewrite Hm. cbn. unfold flag.
  destruct (getitem (garage_state (self w)) "doorState") as [ds | |]; cbn;
    try reflexivity.
  destruct (getitem ds "state") as [s | |]; cbn; try reflexivity.
  destruct (eq_str s name); reflexivity.
Qed.

Lemma is_opening_by_path w :
  is_opening w
  = (match at_path (garage_state (self w)) ["doorState"; "state"] with
     | Ok s => Ok (flag "Opening" (PBool true) s)
     | Raise e => Raise e
     | Fuel => Fuel
     end, w).
Proof. apply flag_by_path. reflexivity. Qed.

Lemma is_closing_by_path w :
  is_closing w
  = (match at_path (garage_state (self w)) ["doorState"; "state"] with
     | Ok s => Ok (flag "Closing" (PBool true) s)
     | Raise e => Raise e
     | Fuel => Fuel
     end, w).
Proof. apply flag_by_path. reflexivity. Qed.

Lemma is_closed_by_path w :
  is_closed w
  = (match at_path (garage_state (self w)) ["doorState"; "state"] with
     | Ok s => Ok (flag "Closed" (PBool true) s)
     | Raise e => Raise e
     | Fuel => Fuel
     end, w).
Proof. apply flag_by_path. reflexivity. Qed.

Lemma error_info_by_path w :
  error_info w
  = (match at_path (garage_state (self w)) ["doorState"; "state"] with
     | Ok s => Ok (flag "Fault" (PStr "Door in faulty State.") s)
     | Raise e => Raise e
     | Fuel => Fuel
     end, w).
Proof. apply flag_by_path. reflexivity. Qed.

(** A read of the derived state that finds the [doorState] group and
    returns has stored what it returns. *)
Lemma current_state_stored w s w1 :
  str_in "doorState" (garage_state (self w)) = Ok true ->
  current_state w = (Ok s, w1) ->
  at_path (garage_state (self w1)) ["doorState"; "state"] = Ok s.
Proof.
  intros Hin H. unfold current_state in H; cbn in H. rewrite Hin in H.
  cbn in H.
  destruct (getitem (garage_state (self w)) "doorState") as [dsv | |] eqn:Hds;
    cbn in H; try discriminate H.
  destruct (getitem dsv "enum") as [enum | |] eqn:He; cbn in H;
    try discriminate H.
  destruct (getitem dsv "value") as [value | |] eqn:Hv; cbn in H;
    try discriminate H.
  destruct (getitem enum value) as [s0 | |] eqn:Hs; cbn in H;
    try discriminate H.
  apply getitem_str_inv in Hds. destruct Hds as [d [Hg Hds]].
  apply getitem_str_inv in He. destruct He as [ds [-> He]].
  unfold update_at in H. rewrite Hg, getitem_dict, Hds in H.
  rewrite !setitem_dict in H. cbn in H.
  rewrite getitem_dict, dict_get_set_same in H by reflexivity.
  rewrite getitem_dict, dict_get_set_same in H by reflexivity.
  inversion H; subst. cbn.
  rewrite getitem_dict, dict_get_set_same by reflexivity.
  rewrite getitem_dict, dict_get_set_same by reflexivity.
  reflexivity.
Qed.

(** X18.  Right after a read of [current_state] the flags agree with it.
    When the state model has a [doorState] group and [current_state]
    returns [s], then in the world it leaves [is_opening], [is_closing] and
    [is_closed] answer [True] exactly when [s] is ["Opening"], ["Closing"],
    ["Closed"] (and [None] otherwise, never [False]), [error_info] answers
    its text exactly when [s] is ["Fault"], and none of them changes
    anything; so at most one of the three flags is set. *)
Theorem flags_follow_current_state w s w1 :
  str_in "doorState" (garage_state (self w)) = Ok true ->
  current_state w = (Ok s, w1) ->
  is_opening w1 = (Ok (flag "Opening" (PBool true) s), w1) /\
  is_closing w1 = (Ok (flag "Closing" (PBool true) s), w1) /\
  is_closed w1 = (Ok (flag "Closed" (PBool true) s), w1) /\
  error_info w1 = (Ok (flag "Fault" (PStr "Door in faulty State.") s), w1).
Proof.
  intros Hin H. pose proof (current_state_stored _ _ _ Hin H) as P.
  rewrite is_opening_by_path, is_closing_by_path, is_closed_by_path,
    error_info_by_path, P.
  repeat split.
Qed.

Lemma flags_follow_current_state_witness :
  let w1 := snd (current_state (door_at (PInt 2) (PInt 90))) in
  is_opening w1 = (Ok PNone, w1) /\
  is_closing w1 = (Ok (PBool true), w1) /\
  is_closed w1 = (Ok PNone, w1) /\
  error_info w1 = (Ok PNone, w1).
Proof.
  exact (flags_follow_current_state (door_at (PInt 2) (PInt 90))
           (PStr "Closing") _ eq_refl eq_refl).
Defined.

Lemma parse_device_update_same_at q update :
  forallb (apart q) (write_paths update) = true ->
  keeps (same_at q) (parse_device_update update).
Proof.
  intros A w.
  destruct (addressed update (self w)) eqn:Ha.
  - destruct (keys update) as [ks | e |] eqn:Hks.
    + rewrite (parse_device_update_accepted _ _ _ Ha Hks).
      apply merge_keys_same_at. intros k Hk.
      rewrite (write_paths_entries _ _ Hks) in A.
      rewrite forallb_forall in A. apply forallb_forall. intros p Hp.
      apply A. apply in_flat_map. eauto.
    + unfold addressed in Ha. unfold parse_device_update; cbn.
      destruct (getitem update "varName") as [n | |]; try discriminate Ha.
      cbn. rewrite Ha; cbn. rewrite Hks. reflexivity.
    + unfold addressed in Ha. unfold parse_device_update; cbn.
      destruct (getitem update "varName") as [n | |]; try discriminate Ha.
      cbn. rewrite Ha; cbn. rewrite Hks. reflexivity.
  - unfold addressed in Ha. unfold parse_device_update; cbn.
    destruct (getitem update "varName") as [n | |]; try reflexivity.
    cbn. rewrite Ha; cbn. reflexivity.
Qed.

(** X19.  The flags lag behind an update.  A merge that does not write the
    [state] field of the door state (updates carry [value], and only a read
    of [current_state] derives [state] from it) leaves [is_opening],
    [is_closing], [is_closed] and [error_info] answering what they answered
    before, whatever value of the door state the update brought. *)
Theorem flags_lag_behind_update update w :
  forallb (apart ["doorState"; "state"]) (write_paths update) = true ->
  let w' := snd (parse_device_update update w) in
  fst (is_opening w') = fst (is_opening w) /\
  fst (is_closing w') = fst (is_closing w) /\
  fst (is_closed w') = fst (is_closed w) /\
  fst (error_info w') = fst (error_info w).
Proof.
  intros A. cbn zeta.
  pose proof (parse_device_update_same_at _ _ A w) as S. unfold same_at in S.
  rewrite !is_opening_by_path, !is_closing_by_path, !is_closed_by_path,
    !error_info_by_path. cbn [fst]. rewrite S. repeat split.
Qed.

Lemma flags_lag_behind_update_witness :
  let w := snd (current_state (door_at (PInt 0) (PInt 0))) in
  let w' := snd (parse_device_update door_params w) in
  fst (is_closed w) = Ok (PBool true) /\
  at_path (garage_state (self w')) ["doorState"; "value"] = Ok (PInt 1) /\
  fst (is_closed w') = Ok (PBool true).
Proof.
  intros w w'.
  destruct (flags_lag_behind_update door_params w eq_refl) as (_ & _ & C & _).
  split; [reflexivity |]. split; [reflexivity |].
  fold w' in C. rewrite C. reflexivity.
Defined.

(** ** The state the cover entity reports *)

Lemma entry_has_str (s t : string) v :
  entry_has (HStr s) (PStr t, v) = String.eqb s t.
Proof.
  unfold entry_has; cbn [fst hash_key].
  destruct (hkey_eq_dec (HStr s) (HStr t)) as [E | N].
  - injection E as ->. now rewrite String.eqb_refl.
  - destruct (String.eqb s t) eqn:E; [| reflexivity].
    apply String.eqb_eq in E. congruence.
Qed.

Lemma entry_has_not_str h (t : string) v :
  (forall s, h <> HStr s) -> entry_has h (PStr t, v) = false.
Proof.
  intros H. unfold entry_has; cbn [fst hash_key].
  destruct (hkey_eq_dec h (HStr t)) as [E | N]; [now apply H in E | reflexivity].
Qed.

(** [STATE_MAPPING[s]] for a hashable [s]. *)
Lemma STATE_MAPPING_get ha s h :
  hash_key s = Some h ->
  getitem (STATE_MAPPING ha) s
  = if known_state s then Ok (ha_state ha s) else Raise (KeyError s).
Proof.
  intros Hh. unfold getitem, STATE_MAPPING, dict. rewrite Hh.
  cbn [map fst snd dict_get].
  destruct s; cbn in Hh; try discriminate Hh; injection Hh as <-;
    try (rewrite !entry_has_not_str by discriminate; reflexivity).
  - destruct (hash_float f) eqn:E;
      try (rewrite !entry_has_not_str by discriminate; reflexivity).
    exfalso. destruct f; cbn in E; try discriminate.
    destruct (odd_part m e) as [m' e']. destruct (0 <=? e'); discriminate.
  - rewrite !entry_has_str. unfold known_state, ha_state, eq_str.
    destruct (String.eqb s "Closed"); [reflexivity |].
    destruct (String.eqb s "Open"); [reflexivity |].
    destruct (String.eqb s "Closing"); [reflexivity |].
    destruct (String.eqb s "Opening"); reflexivity.
Qed.

(** X20.  The state the cover entity reports.  When [current_state] returns
    a hashable [s], [state] returns Home Assistant's name for it if [s] is
    ["Closed"], ["Open"], ["Closing"] or ["Opening"], without an error
    record, and [None] for ["Fault"] and for anything else (the [None] that
    [current_state] returns without a [doorState] group included), after
    one error record; the object is left as the first read of
    [current_state] leaves it.  An unhashable [s] (a list or a dict found
    in the table) makes it raise [TypeError]. *)
Theorem state_by_current_state ha w s w1 :
  current_state w = (Ok s, w1) ->
  let r := state ha w in
  fst r = (match hash_key s with
           | Some _ => Ok (ha_state ha s)
           | None => Raise TypeError
           end) /\
  self (snd r) = self w1 /\
  (hash_key s <> None ->
   List.length (errors (since w1 (snd r)))
   = if known_state s then 0%nat else 1%nat).
Proof.
  intros H. pose proof (current_state_again _ _ _ H) as H1. cbn zeta.
  unfold state, try_except_KeyError. cbn [bind]. rewrite H. cbn [lift].
  destruct (hash_key s) as [h |] eqn:Hh.
  - rewrite (STATE_MAPPING_get ha s h Hh). fold (known_state s).
    destruct (known_state s) eqn:Hm.
    + rewrite H1. cbn. rewrite since_with_out. repeat split.
    + cbn [bind]. rewrite H1.
      assert (Hu : ha_state ha s = PNone).
      { unfold ha_state. unfold known_state in Hm.
        apply orb_false_elim in Hm. destruct Hm as [Hm ->].
        apply orb_false_elim in Hm. destruct Hm as [Hm ->].
        apply orb_false_elim in Hm. destruct Hm as [-> ->]. reflexivity. }
      rewrite Hu.
      destruct (eq_str s "Fault"); cbn; [| rewrite H1; cbn];
        rewrite since_with_out; repeat split.
  - assert (E : getitem (STATE_MAPPING ha) s = Raise TypeError)
      by (unfold getitem, STATE_MAPPING, dict; now rewrite Hh).
    rewrite E. cbn. split; [reflexivity |]. split; [reflexivity |].
    intros N. now elim N.
Qed.

Lemma state_by_current_state_witness :
  fst (state home_assistant (door_at (PInt 3) (PInt 90))) = Ok (PStr "opening") /\
  fst (state home_assistant (door_at (PInt 4) (PInt 90))) = Ok PNone.
Proof.
  split.
  - exact (proj1 (state_by_current_state home_assistant
                    (door_at (PInt 3) (PInt 90)) (PStr "Opening") _ eq_refl)).
  - exact (proj1 (state_by_current_state home_assistant
                    (door_at (PInt 4) (PInt 90)) (PStr "Fault") _ eq_refl)).
Defined.

(** X21.  [state] hides no failure of [current_state].  Whatever
    [current_state] raises, [state] raises too, a [KeyError] included: the
    handler of its [except KeyError] reads [current_state] again, which
    raises again; and the world is left as it was. *)
Theorem state_lets_errors_through ha w e :
  fst (current_state w) = Raise e ->
  state ha w = (Raise e, w).
Proof.
  intros H. destruct (current_state w) as [r w'] eqn:E. cbn in H. subst r.
  pose proof (current_state_raise_same _ _ _ E) as ->.
  unfold state, try_except_KeyError. cbn [bind]. rewrite E.
  destruct e; try reflexivity. rewrite E. reflexivity.
Qed.

Lemma state_lets_errors_through_witness :
  let no_table :=
    boot (new_ctrl "dev1" (dict [("doorState", dict [("value", PInt 1)])]))
         quiet in
  state home_assistant no_table = (Raise (KeyError (PStr "enum")), no_table) /\
  state home_assistant (door_at (PInt 5) (PInt 90))
  = (Raise IndexError, door_at (PInt 5) (PInt 90)).
Proof.
  intros no_table. split.
  - exact (state_lets_errors_through home_assistant no_table
             (KeyError (PStr "enum")) eq_refl).
  - exact (state_lets_errors_through home_assistant
             (door_at (PInt 5) (PInt 90)) IndexError eq_refl).
Defined.

(** ** What [True] from [publish_wss] means *)

Lemma publish_attempt_returns connect payload attempt w b w' :
  publish_attempt connect payload attempt w = (Ok (Some b), w') ->
  b = true /\
  socket_state (self w') = SOCK_CONNECTED /\
  exists h,
    ws (self w') = Some h /\
    out w' = out w ++ published payload h attempt.
Proof.
  intros H. unfold publish_attempt in H.
  apply bind_Ok_inv in H. destruct H as (c & w0 & E0 & H).
  injection E0 as <- <-.
  destruct (sock_eqb (socket_state (self w)) SOCK_CONNECTED) eqn:Hs.
  - apply sock_eqb_connected in Hs.
    apply bind_Ok_inv in H. destruct H as (r & w1 & E1 & H).
    unfold ws_send in E1.
    apply bind_Ok_inv in E1. destruct E1 as (c & w2 & E2 & E1).
    injection E2 as <- <-.
    destruct (ws (self w)) as [h |] eqn:Hws; [| discriminate E1].
    apply bind_Ok_inv in E1. destruct E1 as ([] & w3 & E3 & E1).
    injection E3 as <-.
    assert (P : self w1 = self w /\ out w1 = out w ++ [WsSend h payload]).
    { cbn in E1. destruct (send (env w)) as [| r0 rest];
        injection E1 as _ <-; split; reflexivity. }
    destruct P as (Ps & Po).
    destruct r as [| | e]; [| | discriminate H].
    + apply bind_Ok_inv in H. destruct H as (c & w4 & E4 & H).
      injection E4 as <- <-.
      apply bind_Ok_inv in H. destruct H as ([] & w5 & E5 & H).
      injection E5 as <-.
      apply bind_Ok_inv in H. destruct H as ([] & w6 & E6 & H).
      injection E6 as <-. injection H as <- <-.
      split; [reflexivity |]. cbn. rewrite Ps, Po, <- app_assoc.
      split; [exact Hs |]. exists h. split; [exact Hws | reflexivity].
    + apply bind_Ok_inv in H. destruct H as ([] & w4 & E4 & H).
      apply bind_Ok_inv in H. destruct H as ([] & w5 & E5 & H).
      discriminate H.
  - apply bind_Ok_inv in H. destruct H as ([] & w1 & E1 & H).
    apply bind_Ok_inv in H. destruct H as (r & w2 & E2 & H).
    discriminate H.
Qed.

(** X22.  [True] from [publish_wss] means the message went out.  When
    [publish_wss] returns [True], the last thing it did was to hand the
    message to [ws.send] on the socket the object holds, which took it, and
    to log the success; the socket state is connected on return.  Whatever
    reconnecting it did came before. *)
Theorem publish_wss_true_means_sent fuel payload w :
  fst (publish_wss fuel payload w) = Ok true ->
  let w' := snd (publish_wss fuel payload w) in
  socket_state (self w') = SOCK_CONNECTED /\
  exists h attempt l,
    ws (self w') = Some h /\
    since w w' = l ++ published payload h attempt.
Proof.
  intros Hok. cbn zeta.
  destruct (publish_wss fuel payload w) as [r w'] eqn:E.
  cbn [fst snd] in *. subst r.
  destruct fuel as [| fuel]; [discriminate E |].
  cbn [publish_wss] in E.
  apply bind_Ok_inv in E. destruct E as ([] & w1 & E1 & E).
  apply bind_Ok_inv in E. destruct E as (c & w2 & E2 & E).
  injection E2 as <- <-.
  apply bind_Ok_inv in E. destruct E as ([] & w3 & E3 & E).
  apply bind_Ok_inv in E. destruct E as (r & w4 & E4 & E).
  destruct r as [b |].
  2: { apply bind_Ok_inv in E. destruct E as ([] & w5 & E5 & E).
       discriminate E. }
  injection E as -> <-.
  assert (X3 : extends w w3).
  { eapply extends_trans; [eapply keeps_run; [apply log_extends | exact E1] |].
    eapply keeps_run; [| exact E3].
    unfold ws_close, raise. extends_steps. }
  assert (K : forall i,
             keeps extends
               (publish_attempt (connect_wss_with (publish_wss fuel))
                  payload i)).
  { intros i. apply publish_attempt_extends. apply connect_wss_extends. }
  unfold publish_loop in E4.
  destruct (for_each_Some_inv _ _ _ _ _ K E4) as (i & w5 & X5 & H).
  destruct (publish_attempt_returns _ _ _ _ _ _ H) as (_ & Hs & h & Hws & Ho).
  split; [exact Hs |]. exists h, i, (since w w5). split; [exact Hws |].
  assert (X : extends w w5) by (eapply extends_trans; eassumption).
  assert (X' : extends w5 w4) by (eexists; exact Ho).
  rewrite (since_trans _ _ _ X X'). f_equal.
  unfold since. rewrite Ho. now rewrite skipn_app, skipn_all, Nat.sub_diag.
Qed.

Lemma publish_wss_true_means_sent_witness :
  let w := boot (self connected_dev1) silent_server in
  let w' := snd (publish_wss 1 (open_frame (self w)) w) in
  socket_state (self w') = SOCK_CONNECTED /\
  exists h attempt l,
    ws (self w') = Some h /\
    since w w' = l ++ published (open_frame (self w)) h attempt.
Proof.
  intros w.
  apply (publish_wss_true_means_sent 1 (open_frame (self w)) w).
  reflexivity.
Defined.

(** ** What [False] from [connect_wss] means *)

Lemma sockets_untouched_refl w : sockets_untouched w w.
Proof. exists []. now rewrite app_nil_r. Qed.

Lemma sockets_untouched_trans a b c :
  sockets_untouched a b -> sockets_untouched b c -> sockets_untouched a c.
Proof.
  intros (l1 & A1 & A2) (l2 & B1 & B2). exists (l1 ++ l2). split.
  - now rewrite B1, A1, app_assoc.
  - now rewrite forallb_app, A2, B2.
Qed.

Lemma emit_sockets_untouched e :
  off_socket e = true -> keeps sockets_untouched (emit e).
Proof. intros H w. exists [e]. split; [reflexivity |]. cbn. now rewrite H. Qed.

Lemma log_sockets_untouched lv fmt args :
  keeps sockets_untouched (log lv fmt args).
Proof. now apply emit_sockets_untouched. Qed.

Lemma modify_self_sockets_untouched f :
  keeps sockets_untouched (modify_self f).
Proof. intros w. exists []. cbn. now rewrite app_nil_r. Qed.

Lemma store_garage_state_sockets_untouched f :
  keeps sockets_untouched (store_garage_state f).
Proof.
  intros w. rewrite store_garage_state_run.
  destruct (f (garage_state (self w))); exists []; cbn; now rewrite app_nil_r.
Qed.

Ltac sockets_step :=
  first
    [ apply log_sockets_untouched
    | apply emit_sockets_untouched; reflexivity
    | apply modify_self_sockets_untouched
    | apply store_garage_state_sockets_untouched
    | match goal with
      | |- keeps sockets_untouched (fun w => match ?f (env w) with _ => _ end) =>
          let w := fresh in
          intros w; destruct (f (env w)); exists []; cbn; now rewrite app_nil_r
      | |- keeps sockets_untouched (fun w => (Ok (next_ws w), _)) =>
          let w := fresh in
          intros w; exists [WsNew (next_ws w)]; split; reflexivity
      end ].

Lemma dispatch_sockets_untouched cb : keeps sockets_untouched (dispatch cb).
Proof.
  pose proof sockets_untouched_refl. pose proof sockets_untouched_trans.
  assert (K : keeps sockets_untouched (handler cb)).
  { destruct cb; cbn [handler];
      unfold on_open, on_close, on_error, on_message, on_pong, raise,
        parse_device_update, _call_subscriber;
      frame_steps_with sockets_step. }
  intros w. unfold dispatch. specialize (K w).
  destruct (handler cb w) as [[[] | e |] w1]; cbn [snd] in *; try exact K.
  destruct (reports (env w1)); cbn [snd]; [| exact K].
  eapply sockets_untouched_trans; [exact K |].
  assert (K' : keeps sockets_untouched (on_error (PStr (exn_name e)))).
  { unfold on_error. frame_steps_with sockets_step. }
  apply K'.
Qed.

Lemma asyncio_sleep_sockets_untouched : keeps sockets_untouched asyncio_sleep.
Proof.
  pose proof sockets_untouched_refl. pose proof sockets_untouched_trans.
  unfold asyncio_sleep.
  frame_steps_with
    ltac:(first [apply dispatch_sockets_untouched | sockets_step]).
Qed.

Lemma open_wss_thread_sockets_untouched :
  keeps sockets_untouched open_wss_thread.
Proof.
  pose proof sockets_untouched_refl. pose proof sockets_untouched_trans.
  unfold open_wss_thread, check_credentials, login, send_http, client_send,
    next_spawn, new_ws.
  frame_steps_with
    ltac:(first [apply dispatch_sockets_untouched | sockets_step]).
Qed.

(** A loop that falls through has fallen through each of its rounds. *)
Lemma for_each_None_inv {I A} (R : world -> world -> Prop)
    (body : I -> M (option A)) l :
  (forall w, R w w) -> (forall a b c, R a b -> R b c -> R a c) ->
  (forall i w w1, body i w = (Ok None, w1) -> R w w1) ->
  forall w w', for_each l body w = (Ok None, w') -> R w w'.
Proof.
  intros RR RT Hb. induction l as [| i l IH]; intros w w' H.
  - injection H as <-. apply RR.
  - rewrite for_each_cons in H.
    destruct (body i w) as [[[a |] | e |] w1] eqn:E; try discriminate H.
    eapply RT; [eapply Hb; exact E | now apply IH].
Qed.

(** X23.  [False] from [connect_wss] means nothing was sent.  When
    [connect_wss] is called with the socket not connected and returns
    [False], it has written to no socket and closed none: no
    authentication and no subscription went out, and a socket it created
    (when the thread started and the connection was not reported open
    within the ten waits) is left as it is. *)
Theorem connect_wss_false_sends_nothing fuel w :
  sock_eqb (socket_state (self w)) SOCK_CONNECTED = false ->
  fst (connect_wss fuel w) = Ok false ->
  forallb off_socket (since w (snd (connect_wss fuel w))) = true.
Proof.
  intros Hs Hok.
  cut (sockets_untouched w (snd (connect_wss fuel w))).
  { intros (l & Hl & Hf). unfold since. rewrite Hl.
    now rewrite skipn_app, skipn_all, Nat.sub_diag. }
  destruct (connect_wss fuel w) as [r w'] eqn:E. cbn [fst snd] in *. subst r.
  unfold connect_wss, connect_wss_with in E.
  apply bind_Ok_inv in E. destruct E as (c & w0 & E0 & E).
  injection E0 as <- <-. rewrite Hs in E.
  apply bind_Ok_inv in E. destruct E as ([] & w1 & E1 & E).
  apply bind_Ok_inv in E. destruct E as (ok & w2 & E2 & E).
  assert (X2 : sockets_untouched w w2).
  { eapply sockets_untouched_trans.
    - eapply keeps_run; [apply log_sockets_untouched | exact E1].
    - eapply keeps_run; [apply open_wss_thread_sockets_untouched | exact E2]. }
  destruct ok; [| now injection E as <-].
  apply bind_Ok_inv in E. destruct E as ([] & w3 & E3 & E).
  apply bind_Ok_inv in E. destruct E as (r & w4 & E4 & E).
  assert (X3 : sockets_untouched w w3).
  { eapply sockets_untouched_trans; [exact X2 |].
    eapply keeps_run; [apply log_sockets_untouched | exact E3]. }
  destruct r as [b |].
  - (* a round that returns returns True *)
    injection E as -> <-. exfalso.
    assert (K : forall i,
               keeps extends
                 (fun w =>
                    (log DEBUG
                       "RyobiApi (WSS) awaiting connection established... %s"
                       [PInt i] ;;;
                     c <- get_self ;;
                     if sock_eqb (socket_state c) SOCK_CONNECTED then
                       authenticate_with_server (publish_wss fuel) ;;;
                       asyncio_sleep ;;;
                       c <- get_self ;;
                       _ <- subscribe_to_notifications (publish_wss fuel)
                              (device_id c) ;;
                       ret (Some true)
                     else asyncio_sleep ;;; ret None) w)).
    { intros i. unfold authenticate_with_server, subscribe_to_notifications.
      extends_steps_with
        ltac:(first [ apply publish_wss_extends
                    | apply asyncio_sleep_extends
                    | apply _call_subscriber_extends ]). }
    destruct (for_each_Some_inv _ _ _ _ _ K E4) as (i & w5 & _ & H).
    apply bind_Ok_inv in H. destruct H as ([] & w6 & E6 & H).
    apply bind_Ok_inv in H. destruct H as (c & w7 & E7 & H).
    injection E7 as <- <-.
    destruct (sock_eqb (socket_state (self w6)) SOCK_CONNECTED).
    + apply bind_Ok_inv in H. destruct H as ([] & w8 & E8 & H).
      apply bind_Ok_inv in H. destruct H as ([] & w9 & E9 & H).
      apply bind_Ok_inv in H. destruct H as (c & w10 & E10 & H).
      apply bind_Ok_inv in H. destruct H as (b & w11 & E11 & H).
      discriminate H.
    + apply bind_Ok_inv in H. destruct H as ([] & w8 & E8 & H).
      discriminate H.
  - injection E as <-.
    eapply sockets_untouched_trans; [exact X3 |].
    revert E4. apply for_each_None_inv;
      [apply sockets_untouched_refl | apply sockets_untouched_trans |].
    intros i wa wb H.
    apply bind_Ok_inv in H. destruct H as ([] & w6 & E6 & H).
    apply bind_Ok_inv in H. destruct H as (c & w7 & E7 & H).
    injection E7 as <- <-.
    destruct (sock_eqb (socket_state (self w6)) SOCK_CONNECTED).
    + apply bind_Ok_inv in H. destruct H as ([] & w8 & E8 & H).
      apply bind_Ok_inv in H. destruct H as ([] & w9 & E9 & H).
      apply bind_Ok_inv in H. destruct H as (c & w10 & E10 & H).
      apply bind_Ok_inv in H. destruct H as (b & w11 & E11 & H).
      discriminate H.
    + apply bind_Ok_inv in H. destruct H as ([] & w8 & E8 & H).
      injection H as <-.
      eapply sockets_untouched_trans.
      * eapply keeps_run; [apply log_sockets_untouched | exact E6].
      * eapply keeps_run; [apply asyncio_sleep_sockets_untouched | exact E8].
Qed.

Lemma connect_wss_false_sends_nothing_witness :
  let w := closed_dev1 mute_server in
  fst (connect_wss 1 w) = Ok false /\
  socket_ops (since w (snd (connect_wss 1 w))) = [WsNew 0] /\
  forallb off_socket (since w (snd (connect_wss 1 w))) = true.
Proof.
  intros w. split; [reflexivity |]. split; [reflexivity |].
  apply (connect_wss_false_sends_nothing 1 w); reflexivity.
Defined.

(** ** The device list *)

Arguments devices_url : simpl never.

Lemma rbind_Ok_inv {A B} (r : res A) (k : A -> res B) b :
  rbind r k = Ok b -> exists a, r = Ok a /\ k a = Ok b.
Proof. destruct r as [a | |]; try discriminate. eauto. Qed.

Lemma append_devices_all c results : forall devices ds,
  Forall2 (fun r d => device_of c r = Ok d) results ds ->
  append_devices c results devices = (Ok tt, devices ++ ds).
Proof.
  induction results as [| r results IH]; intros devices ds H; inversion H; subst.
  - now rewrite app_nil_r.
  - cbn [append_devices].
    match goal with E : device_of c r = Ok _ |- _ => rewrite E end.
    rewrite IH with (ds := l'); [| assumption]. now rewrite <- app_assoc.
Qed.

(** What has been appended stays appended when a later result raises. *)
Lemma append_devices_stops c good : forall devices ds bad rest e,
  Forall2 (fun r d => device_of c r = Ok d) good ds ->
  device_of c bad = Raise e ->
  append_devices c (good ++ bad :: rest) devices = (Raise e, devices ++ ds).
Proof.
  induction good as [| r good IH]; intros devices ds bad rest e H Hbad;
    inversion H; subst.
  - cbn. rewrite Hbad. now rewrite app_nil_r.
  - cbn [app append_devices].
    match goal with E : device_of c r = Ok _ |- _ => rewrite E end.
    rewrite IH with (ds := l') (e := e); [| assumption | assumption].
    now rewrite <- app_assoc.
Qed.

Lemma truth_of_keyed resp (k : string) v :
  getitem resp k = Ok v -> truth resp = true.
Proof.
  intros H. apply getitem_str_inv in H. destruct H as (d & -> & Hd).
  destruct d; [discriminate Hd | reflexivity].
Qed.

Lemma get_devices_steps devices w :
  get_devices devices w
  = match send_http devices_url (login_params (self w)) "GET"
            (with_out [Log DEBUG "RyobiApi get list of devices" []] w) with
    | (Ok resp, w1) =>
        if truth resp then
          match (rs <-- getitem resp "result" ;; iter rs) with
          | Ok results =>
              match append_devices (self w1) results devices with
              | (Ok _, devices') =>
                  ((Ok (PList devices'), devices'),
                   with_out
                     [Log DEBUG "RyobiApi: Get device list OK. %s devices found"
                          [PInt (Z.of_nat (List.length devices'))]] w1)
              | (Raise e, devices') => ((Raise e, devices'), w1)
              | (Fuel, devices') => ((Fuel, devices'), w1)
              end
          | Raise e => ((Raise e, devices), w1)
          | Fuel => ((Fuel, devices), w1)
          end
        else
          ((Ok (PList []), devices),
           with_out
             [Log ERROR "RyobiApi: FAILED to get device list: %s" [resp]] w1)
    | (Raise e, w1) => ((Raise e, devices), w1)
    | (Fuel, w1) => ((Fuel, devices), w1)
    end.
Proof. reflexivity. Qed.

(** X24.  [get_devices] adds to the list the object holds and returns the
    whole of it.  When the server answers 200 with a body whose [result] is
    a list of well-formed entries, the call returns the devices held before
    followed by one dict per entry, in order, and holds that list from then
    on; so a second call with the same answer lists every device twice, and
    an empty [result] returns what was held before.  When an entry is
    malformed, the call raises what reading the entry raises, and the
    entries before it stay appended. *)
Theorem get_devices_accumulates devices w resp results rest :
  http (env w) = HttpResponse 200 (Json resp) :: rest ->
  getitem resp "result" = Ok (PList results) ->
  (forall ds,
      Forall2 (fun r d => device_of (self w) r = Ok d) results ds ->
      fst (get_devices devices w)
      = (Ok (PList (devices ++ ds)), devices ++ ds)) /\
  (forall good bad more ds e,
      results = good ++ bad :: more ->
      Forall2 (fun r d => device_of (self w) r = Ok d) good ds ->
      device_of (self w) bad = Raise e ->
      fst (get_devices devices w) = (Raise e, devices ++ ds)).
Proof.
  intros He Hr. rewrite get_devices_steps.
  rewrite (send_http_answer_200 _ _ _ _ resp rest) by exact He.
  rewrite (truth_of_keyed _ _ _ Hr), Hr. cbn [rbind self with_out with_env].
  change (iter (PList results)) with (Ok results).
  split.
  - intros ds H. now rewrite (append_devices_all _ _ devices ds H).
  - intros good bad more ds e -> H Hbad.
    now rewrite (append_devices_stops _ _ devices ds bad more e H Hbad).
Qed.

Lemma get_devices_accumulates_witness :
  let c := new_ctrl "dev1" default_garage_state in
  let resp := dict [("result", PList [listed "dev1" "Garage"])] in
  let w := boot c (answering (HttpResponse 200 (Json resp))) in
  exists d,
    device_of c (listed "dev1" "Garage") = Ok d /\
    fst (get_devices [] w) = (Ok (PList [d]), [d]) /\
    fst (get_devices [d] w) = (Ok (PList [d; d]), [d; d]).
Proof.
  intros c resp w.
  destruct (get_devices_accumulates [] w resp [listed "dev1" "Garage"] []
              eq_refl eq_refl) as (A & _).
  destruct (device_of c (listed "dev1" "Garage")) as [d | |] eqn:E;
    try discriminate E.
  exists d. split; [reflexivity |]. split.
  - apply (A [d]). repeat constructor. exact E.
  - destruct (get_devices_accumulates [d] w resp [listed "dev1" "Garage"] []
                eq_refl eq_refl) as (B & _).
    apply (B [d]). repeat constructor. exact E.
Defined.

(** What [send_http] gives back when the server has nothing but failures
    to offer: one of its two error dicts, neither of which has a [result]
    key. *)
Lemma send_http_failing url params method w :
  failing (http (env w)) ->
  exists resp w1,
    send_http url params method w = (Ok resp, w1) /\
    truth resp = true /\
    getitem resp "result" = Raise (KeyError (PStr "result")) /\
    self w1 = self w.
Proof.
  intros (rs & rest & Ht & [(He & Hl) | (body & He & Hl)]);
    rewrite send_http_loop; set (w0 := with_out _ w).
  - destruct (http_loop_retried url method rs (range N_RETRY) w0 rest)
      as (A & B & C & D); auto.
    { rewrite Hl. cbn. lia. }
    cbn [bind]. rewrite A, Hl. cbn [skipn]. cbn.
    change [0; 1; 2; 3; 4] with (range N_RETRY).
    eexists _, _. split; [reflexivity |]. repeat split. exact C.
  - destruct (http_loop_retried url method rs (range N_RETRY) w0
                (HttpResponse 401 body :: rest))
      as (A & B & C & D); auto.
    { change (List.length (range N_RETRY)) with 5%nat. lia. }
    cbn [bind]. rewrite A.
    set (w1 := retried url method rs (range N_RETRY) w0) in *.
    destruct (skipn (List.length rs) (range N_RETRY)) as [| a l] eqn:Es.
    { apply (f_equal (@List.length Z)) in Es. rewrite length_skipn in Es.
      change (List.length (range N_RETRY)) with 5%nat in Es.
      cbn [List.length] in Es. lia. }
    rewrite for_each_cons. unfold http_attempt, client_send; cbn.
    rewrite B; cbn.
    eexists _, _. split; [reflexivity |]. repeat split. exact C.
Qed.

(** X25.  A failed request makes [get_devices] raise, not return the empty
    list.  When the server answers the request with five transient
    failures, or with a 401 after fewer, [get_devices] raises [KeyError]
    on the ["result"] key that the error dict of [send_http] lacks; the
    list it holds is unchanged.  Its branch for a failed request is taken
    only for a 200 whose body is falsy (an empty object, an empty list,
    [null]), and then it returns the empty list and not the list it
    holds. *)
Theorem get_devices_raises_on_failure devices w :
  (failing (http (env w)) ->
   fst (get_devices devices w) = (Raise (KeyError (PStr "result")), devices)) /\
  (forall resp rest,
      http (env w) = HttpResponse 200 (Json resp) :: rest ->
      truth resp = false ->
      fst (get_devices devices w) = (Ok (PList []), devices)).
Proof.
  split.
  - intros F. rewrite get_devices_steps.
    destruct (send_http_failing devices_url (login_params (self w)) "GET"
                (with_out [Log DEBUG "RyobiApi get list of devices" []] w) F)
      as (resp & w1 & E & Ht & Hr & _).
    rewrite E, Ht, Hr. reflexivity.
  - intros resp rest He Ht. rewrite get_devices_steps.
    rewrite (send_http_answer_200 _ _ _ _ resp rest) by exact He.
    now rewrite Ht.
Qed.

Lemma get_devices_raises_on_failure_witness :
  let c := new_ctrl "dev1" default_garage_state in
  fst (get_devices [PNone] (boot c (answering (HttpResponse 401 (NotJson "")))))
  = (Raise (KeyError (PStr "result")), [PNone]) /\
  fst (get_devices [PNone] (boot c (answering (HttpResponse 200 (Json (dict []))))))
  = (Ok (PList []), [PNone]).
Proof.
  intros c. split.
  - apply (proj1 (get_devices_raises_on_failure [PNone]
                    (boot c (answering (HttpResponse 401 (NotJson "")))))).
    exists [], []. split; [reflexivity |]. right.
    exists (NotJson ""). split; [reflexivity | cbn; lia].
  - apply (proj2 (get_devices_raises_on_failure [PNone]
                    (boot c (answering (HttpResponse 200 (Json (dict []))))))
             (dict []) []); reflexivity.
Defined.

(** ** The description of one device *)

Lemma get_device_steps format d_id w :
  get_device format d_id w
  = bind (send_http (devices_url ++ "/" ++ format d_id)
            (login_params (self w)) "GET")
      (fun resp =>
         if truth resp then extract_device_info format resp
         else
           log ERROR
             "RyobiApi: Could not get information for that device. Returning nothing. "
             [] ;;;
           ret no_device_info)
      (with_out
         [Log DEBUG "Ryopbi Api: Retrieving device information for %s. " [d_id]]
         w).
Proof. reflexivity. Qed.

(** X26.  What [get_device] gives for an answer that is no description.
    For a 200 whose body is falsy it returns a dict with [garage_state],
    [serial] and [mac] set to [None] and without the [module_id] and
    [port_id] keys that a description has.  When the server answers with
    five transient failures, or with a 401 after fewer, it raises
    [KeyError] on the ["result"] key that the error dict of [send_http]
    lacks. *)
Theorem get_device_without_description format d_id w :
  (forall resp rest,
      http (env w) = HttpResponse 200 (Json resp) :: rest ->
      truth resp = false ->
      fst (get_device format d_id w) = Ok no_device_info /\
      str_in "module_id" no_device_info = Ok false /\
      str_in "port_id" no_device_info = Ok false) /\
  (failing (http (env w)) ->
   fst (get_device format d_id w) = Raise (KeyError (PStr "result"))).
Proof.
  split.
  - intros resp rest He Ht. rewrite get_device_steps. cbn [bind].
    rewrite (send_http_answer_200 _ _ _ _ resp rest) by exact He.
    rewrite Ht. repeat split.
  - intros F. rewrite get_device_steps. cbn [bind].
    destruct (send_http_failing (devices_url ++ "/" ++ format d_id)
                (login_params (self w)) "GET"
                (with_out
                   [Log DEBUG
                      "Ryopbi Api: Retrieving device information for %s. "
                      [d_id]] w) F)
      as (resp & w1 & E & Ht & Hr & _).
    rewrite E, Ht. unfold extract_device_info, device_info_of.
    cbn [bind log emit lift fst subscript rbind]. now rewrite Hr.
Qed.

Lemma get_device_without_description_witness :
  let c := new_ctrl "dev1" default_garage_state in
  fst (get_device text_of (PStr "dev1")
         (boot c (answering (HttpResponse 200 (Json PNone)))))
  = Ok no_device_info /\
  fst (get_device text_of (PStr "dev1")
         (boot c (answering (HttpResponse 401 (NotJson "")))))
  = Raise (KeyError (PStr "result")).
Proof.
  intros c. split.
  - apply (proj1 (get_device_without_description text_of (PStr "dev1")
                    (boot c (answering (HttpResponse 200 (Json PNone)))))
             PNone []); reflexivity.
  - apply (proj2 (get_device_without_description text_of (PStr "dev1")
                    (boot c (answering (HttpResponse 401 (NotJson "")))))).
    exists [], []. split; [reflexivity |]. right.
    exists (NotJson ""). split; [reflexivity | cbn; lia].
Defined.

Ltac rbind_inv H :=
  repeat
    match type of H with
    | rbind _ _ = Ok _ =>
        let a := fresh "a" in
        let E := fresh "E" in
        apply rbind_Ok_inv in H; destruct H as (a & E & H)
    end.

Lemma extract_garage_state_inv garage_door garage_light gs :
  extract_garage_state garage_door garage_light = Ok gs ->
  exists d ds enum value s percent,
    gs = PDict d /\
    dict_get (HStr "doorState") d = Some (PDict ds) /\
    dict_get (HStr "enum") ds = Some enum /\
    dict_get (HStr "value") ds = Some value /\
    dict_get (HStr "state") ds = Some s /\
    getitem enum value = Ok s /\
    dict_get (HStr "is_available") d = None /\
    dict_get (HStr "doorPercentOpen") d = Some percent /\
    subscript garage_door [PStr "doorPercentOpen"; PStr "value"] = Ok percent.
Proof.
  intros H. unfold extract_garage_state in H. rbind_inv H.
  injection H as <-.
  do 6 eexists. split; [reflexivity |].
  repeat (split; [reflexivity |]).
  split; [| split; [reflexivity | split; [reflexivity | eassumption]]].
  match goal with
  | E1 : subscript garage_door [PStr "doorState"; PStr "enum"] = Ok ?x,
    E2 : subscript garage_door [PStr "doorState"; PStr "enum"] = Ok ?y,
    E3 : subscript garage_door [PStr "doorState"; PStr "value"] = Ok ?u,
    E4 : subscript garage_door [PStr "doorState"; PStr "value"] = Ok ?v,
    E5 : getitem ?y ?v = Ok _ |- getitem ?x ?u = _ =>
      assert (x = y) by congruence; assert (u = v) by congruence; subst;
      exact E5
  end.
Qed.

(** X27.  The state model [extract_device_info] builds is consistent with
    [current_state].  Whenever it returns, the description holds a state
    model whose door state has a [state] field that is the table entry at
    its [value]: in a controller over that model, [current_state] returns
    that state and changes nothing.  The model has no [is_available] key,
    so that [is_available] answers [None]; and it holds the percentage of
    the door as the bare value the server gave, not as a group. *)
Theorem extracted_state_is_consistent format response info :
  device_info_of format response = Ok info ->
  exists gs s percent,
    getitem info "garage_state" = Ok gs /\
    at_path gs ["doorState"; "state"] = Ok s /\
    at_path gs ["doorPercentOpen"] = Ok percent /\
    forall w,
      garage_state (self w) = gs ->
      current_state w = (Ok s, w) /\ is_available w = (Ok PNone, w).
Proof.
  intros H. unfold device_info_of in H. rbind_inv H.
  destruct a5 as [[module_id port] |]; [| discriminate H].
  rbind_inv H. injection H as <-.
  match goal with
  | E : extract_garage_state _ _ = Ok ?g |- _ =>
      destruct (extract_garage_state_inv _ _ _ E)
        as (d & ds & enum & value & s & percent & -> & Hds & He & Hv & Hst
            & Hget & Hav & Hp & _)
  end.
  exists (PDict d), s, percent. split; [reflexivity |].
  split; [cbn [at_path]; rewrite getitem_dict, Hds, getitem_dict, Hst;
          reflexivity |].
  split; [cbn [at_path]; rewrite getitem_dict, Hp; reflexivity |].
  intros w Hw. split.
  - rewrite (current_state_run w d ds enum value s Hw Hds He Hv Hget).
    f_equal. apply with_self_same. rewrite Hw. unfold with_door_state.
    rewrite (dict_set_same_value _ _ _ ds Hst).
    now rewrite (dict_set_same_value _ _ _ d Hds).
  - unfold is_available; cbn. rewrite Hw, str_in_dict, Hav. reflexivity.
Qed.

Lemma extracted_state_is_consistent_witness :
  match device_info_of text_of (device_response (PInt 1)) with
  | Ok info =>
      exists gs,
        getitem info "garage_state" = Ok gs /\
        at_path gs ["doorState"; "state"] = Ok (PStr "Open") /\
        at_path gs ["doorPercentOpen"] = Ok (PInt 0) /\
        forall w,
          garage_state (self w) = gs ->
          current_state w = (Ok (PStr "Open"), w) /\
          is_available w = (Ok PNone, w)
  | _ => False
  end.
Proof.
  destruct (device_info_of text_of (device_response (PInt 1)))
    as [info | |] eqn:E; try discriminate E.
  destruct (extracted_state_is_consistent text_of (device_response (PInt 1))
              info E) as (gs & s & percent & G & A & B & C).
  vm_compute in E. injection E as <-.
  vm_compute in G. injection G as <-.
  vm_compute in A. injection A as <-.
  vm_compute in B. injection B as <-.
  eexists. split; [reflexivity |]. split; [reflexivity |].
  split; [reflexivity |]. exact C.
Defined.

Lemma find_port_none deviceMap modules :
  Forall (no_door_port deviceMap) modules ->
  find_port deviceMap modules = Ok None.
Proof.
  induction 1 as [| module modules H _ IH]; [reflexivity |].
  cbn [find_port].
  destruct H as [Hs | (Hs & profiles & subs & Hp & Hi & Ha)]; rewrite Hs;
    cbn [rbind]; [exact IH |].
  rewrite Hp. cbn [rbind]. rewrite Hi. cbn [rbind]. rewrite Ha. cbn [rbind].
  exact IH.
Qed.

(** X28.  A device without a garage-door port makes [extract_device_info]
    raise.  When the response has its first result, the serial number and
    the address of its master unit, and a device map in which no module is
    a port ([modulePort_...]) with a profile that mentions [garageDoor],
    the loop that looks for the port ends without having set [port], and
    the method raises [UnboundLocalError] where it first uses it. *)
Theorem no_garage_port_raises format response w first_result master_unit
    serial mac deviceMap modules :
  subscript response [PStr "result"; PInt 0] = Ok first_result ->
  subscript first_result [PStr "deviceTypeMap"; PStr "masterUnit"; PStr "at"]
  = Ok master_unit ->
  subscript master_unit [PStr "serialNumber"; PStr "value"] = Ok serial ->
  subscript master_unit [PStr "macAddress"; PStr "value"] = Ok mac ->
  getitem first_result "deviceTypeMap" = Ok deviceMap ->
  iter deviceMap = Ok modules ->
  Forall (no_door_port deviceMap) modules ->
  extract_device_info format response w
  = (Raise (OtherError "UnboundLocalError"),
     with_out [Log DEBUG "RyobiApi: Extracting device info. " []] w).
Proof.
  intros H1 H2 H3 H4 H5 H6 H7.
  unfold extract_device_info, device_info_of. cbn [bind log emit lift].
  rewrite H1. cbn [rbind]. rewrite H2. cbn [rbind]. rewrite H3. cbn [rbind].
  rewrite H4. cbn [rbind]. rewrite H5. cbn [rbind]. rewrite H6. cbn [rbind].
  now rewrite (find_port_none _ _ H7).
Qed.

Lemma no_garage_port_raises_witness :
  fst (extract_device_info text_of doorless_response watching_dev1)
  = Raise (OtherError "UnboundLocalError").
Proof.
  refine (f_equal fst
            (no_garage_port_raises text_of doorless_response watching_dev1
               _ _ _ _ _ _ eq_refl eq_refl eq_refl eq_refl eq_refl eq_refl _)).
  apply Forall_cons; [left; reflexivity |].
  apply Forall_cons; [| apply Forall_nil].
  right. split; [reflexivity |].
  do 2 eexists. split; [reflexivity |]. split; reflexivity.
Defined.

(** ** The API key *)

Lemma key_kept_refl w : key_kept w w.
Proof. intros _. split; [reflexivity |]. exists []. now rewrite app_nil_r. Qed.

Lemma key_kept_trans a b c : key_kept a b -> key_kept b c -> key_kept a c.
Proof.
  intros H1 H2 Hk. destruct (H1 Hk) as (A1 & l1 & A2 & A3).
  destruct H2 as (B1 & l2 & B2 & B3); [now rewrite A1 |].
  split; [congruence |]. exists (l1 ++ l2). split.
  - now rewrite B2, A2, app_assoc.
  - now rewrite requests_app, A3, B3.
Qed.

Lemma emit_key_kept e :
  requests [e] = 0%nat -> keeps key_kept (emit e).
Proof. intros H w _. split; [reflexivity |]. now exists [e]. Qed.

Lemma log_key_kept lv fmt args : keeps key_kept (log lv fmt args).
Proof. now apply emit_key_kept. Qed.

Lemma quiet_step_key_kept {A} (m : M A) :
  (forall w, api_key (self (snd (m w))) = api_key (self w) /\
             out (snd (m w)) = out w) ->
  keeps key_kept m.
Proof.
  intros H w _. destruct (H w) as (A1 & A2). split; [exact A1 |].
  exists []. now rewrite app_nil_r.
Qed.

Lemma store_garage_state_key_kept f : keeps key_kept (store_garage_state f).
Proof.
  apply quiet_step_key_kept. intros w. rewrite store_garage_state_run.
  destruct (f (garage_state (self w))); split; reflexivity.
Qed.

Ltac key_step :=
  first
    [ apply log_key_kept
    | apply emit_key_kept; reflexivity
    | apply store_garage_state_key_kept
    | apply quiet_step_key_kept;
      let w := fresh in
      intros w; cbn;
      try match goal with
          | |- context [match ?f (env w) with _ => _ end] => destruct (f (env w))
          end;
      split; reflexivity ].

Lemma dispatch_key_kept cb : keeps key_kept (dispatch cb).
Proof.
  pose proof key_kept_refl. pose proof key_kept_trans.
  assert (K : keeps key_kept (handler cb)).
  { destruct cb; cbn [handler];
      unfold on_open, on_close, on_error, on_message, on_pong, raise,
        parse_device_update, _call_subscriber;
      frame_steps_with key_step. }
  intros w. unfold dispatch. specialize (K w).
  destruct (handler cb w) as [[[] | e |] w1]; cbn [snd] in *; try exact K.
  destruct (reports (env w1)); cbn [snd]; [| exact K].
  eapply key_kept_trans; [exact K |].
  assert (K' : keeps key_kept (on_error (PStr (exn_name e)))).
  { unfold on_error. frame_steps_with key_step. }
  apply K'.
Qed.

Lemma asyncio_sleep_key_kept : keeps key_kept asyncio_sleep.
Proof.
  pose proof key_kept_refl. pose proof key_kept_trans.
  unfold asyncio_sleep.
  frame_steps_with ltac:(first [apply dispatch_key_kept | key_step]).
Qed.

(** With a key in hand, [check_credentials] does not log in. *)
Lemma check_credentials_key_kept : keeps key_kept check_credentials.
Proof.
  intros w Hk. unfold check_credentials; cbn. rewrite Hk; cbn.
  split; [reflexivity |]. eexists. split; [now rewrite <- app_assoc |].
  reflexivity.
Qed.

Lemma new_ws_key_kept : keeps key_kept new_ws.
Proof.
  intros w _. split; [reflexivity |].
  exists [WsNew (next_ws w)]. split; reflexivity.
Qed.

Lemma open_wss_thread_key_kept : keeps key_kept open_wss_thread.
Proof.
  pose proof key_kept_refl. pose proof key_kept_trans.
  unfold open_wss_thread, next_spawn.
  frame_steps_with
    ltac:(first [ apply check_credentials_key_kept
                | apply dispatch_key_kept
                | apply new_ws_key_kept
                | key_step ]).
Qed.

Lemma connect_wss_with_key_kept publish :
  (forall m, keeps key_kept (publish m)) ->
  keeps key_kept (connect_wss_with publish).
Proof.
  intros Hp. pose proof key_kept_refl. pose proof key_kept_trans.
  unfold connect_wss_with, authenticate_with_server, subscribe_to_notifications,
    _call_subscriber.
  frame_steps_with
    ltac:(first [ apply Hp
                | apply open_wss_thread_key_kept
                | apply asyncio_sleep_key_kept
                | key_step ]).
Qed.

Lemma publish_wss_key_kept fuel : forall m, keeps key_kept (publish_wss fuel m).
Proof.
  pose proof key_kept_refl. pose proof key_kept_trans.
  induction fuel as [| fuel IH]; intros m.
  - intros w. apply key_kept_refl.
  - cbn [publish_wss]. unfold publish_loop, publish_attempt, ws_close, ws_send,
      raise.
    frame_steps_with
      ltac:(first [ apply connect_wss_with_key_kept; exact IH | key_step ]).
Qed.

(** X29.  A controller that holds an API key never logs in again and never
    replaces the key.  With a key in hand, [connect_wss], [publish_wss] and
    [send_command], with all the reconnecting and all the callbacks that
    run inside them, send no HTTP request and leave the key as it is,
    whatever the server answers on the socket (an authorisation it refuses
    included). *)
Theorem key_is_never_renewed fuel payload w :
  truth (api_key (self w)) = true ->
  (api_key (self (snd (connect_wss fuel w))) = api_key (self w) /\
   requests (since w (snd (connect_wss fuel w))) = 0%nat) /\
  (api_key (self (snd (publish_wss fuel payload w))) = api_key (self w) /\
   requests (since w (snd (publish_wss fuel payload w))) = 0%nat) /\
  (api_key (self (snd (send_command fuel payload w))) = api_key (self w) /\
   requests (since w (snd (send_command fuel payload w))) = 0%nat).
Proof.
  intros Hk.
  assert (S : forall w', key_kept w w' ->
                api_key (self w') = api_key (self w) /\
                requests (since w w') = 0%nat).
  { intros w' K. destruct (K Hk) as (A & l & B & C). split; [exact A |].
    unfold since. rewrite B.
    now rewrite skipn_app, skipn_all, Nat.sub_diag. }
  split; [| split]; apply S.
  - apply connect_wss_with_key_kept, publish_wss_key_kept.
  - apply publish_wss_key_kept.
  - pose proof key_kept_refl. pose proof key_kept_trans.
    cut (keeps key_kept (send_command fuel payload)); [intros K; apply K |].
    unfold send_command.
    frame_steps_with ltac:(first [apply publish_wss_key_kept | key_step]).
Qed.

Lemma key_is_never_renewed_witness :
  let w := closed_dev1 welcoming_server in
  api_key (self (snd (send_command 2 (open_frame (self w)) w))) = PStr "k1" /\
  requests (since w (snd (send_command 2 (open_frame (self w)) w))) = 0%nat.
Proof.
  intros w.
  exact (proj2 (proj2 (key_is_never_renewed 2 (open_frame (self w)) w
                         eq_refl))).
Defined.

(** ** What Home Assistant is told about availability *)

Lemma available_run w v :
  getitem (garage_state (self w)) "is_available" = Ok v ->
  fst (available w) = Ok v.
Proof.
  intros H. unfold available. cbn [bind].
  rewrite (is_available_run _ _ H). cbn [bind log emit].
  now rewrite (is_available_run _ v) by exact H.
Qed.

(** X30.  Once a connection has succeeded, the cover is reported available
    for good.  After [connect_wss], called with the socket not connected,
    has returned [True], the property [available] of the cover entity
    answers [True], and it still does after any sequence of socket
    callbacks, the close of the connection and socket errors included:
    nothing sets the flag back. *)
Theorem entity_stays_available fuel w cbs :
  sock_eqb (socket_state (self w)) SOCK_CONNECTED = false ->
  fst (connect_wss fuel w) = Ok true ->
  let w1 := snd (connect_wss fuel w) in
  fst (available w1) = Ok (PBool true) /\
  fst (available (snd (for_ cbs dispatch w1))) = Ok (PBool true).
Proof.
  intros Hs Hok. cbn zeta.
  destruct (connect_wss fuel w) as [r w1] eqn:E. cbn [fst snd] in *. subst r.
  destruct (connect_wss_with_returns_true _ _ _ (publish_wss_extends fuel)
              Hs E) as (w0 & g' & _ & Hset & ->).
  set (w1 := with_out _ (with_self _ w0)).
  assert (A : getitem (garage_state (self w1)) "is_available"
              = Ok (PBool true))
    by (cbn; now apply getitem_setitem with (g := garage_state (self w0))).
  split; [now apply available_run |].
  apply available_run.
  assert (K : keeps available_kept (for_ cbs dispatch)).
  { apply keeps_for_;
      [apply available_kept_refl | apply available_kept_trans
      | apply dispatch_available_kept]. }
  exact (K w1 true A).
Qed.

Lemma entity_stays_available_witness :
  let w1 := snd (connect_wss 1 (closed_dev1 welcoming_server)) in
  let w2 := snd (for_ [OnError (PStr "Connection reset"); OnClose PNone PNone]
                   dispatch w1) in
  socket_state (self w2) = SOCK_CLOSE /\
  fst (available w1) = Ok (PBool true) /\
  fst (available w2) = Ok (PBool true).
Proof.
  intros w1 w2. split; [reflexivity |].
  exact (entity_stays_available 1 (closed_dev1 welcoming_server)
           [OnError (PStr "Connection reset"); OnClose PNone PNone]
           eq_refl eq_refl).
Defined.
